(** * seqtree: a shallow embedding of the sequence tree-boosting core

    Go [int] is modelled as [Z], [float32]/[float64] arithmetic as exact
    rationals [Q] (rounding is not modelled) unless stated otherwise, a
    Go panic as [None] in the [option] monad, and Go pointers to tree
    leaves as keys into an explicit leaf store ([gmap]). *)

From Stdlib Require Import ZArith QArith Qfield Lqa Lia Qpower.
From stdpp Require Import base list gmap.

Open Scope Z_scope.

(** Panics are [None]; stdpp's [x ← m ; k] threads them. *)

(** Indexing a Go slice with an [int]: out of range panics. *)
Definition slice_get {A} (l : list A) (i : Z) : option A :=
  if (0 <=? i) && (i <? Z.of_nat (length l)) then l !! Z.to_nat i else None.

(** ** sequence.go / TimestepSample (part_011): features and samples *)

(** [Bitmap]: [numBits] bits packed little-endian into bytes. *)
Record Bitmap := mkBitmap { numBits : Z; bytes : list Z }.

(** [NewBitmap]: all zeros, [ceil(numBits / 8)] bytes. *)
Definition NewBitmap (n : Z) : Bitmap :=
  let numBytes := if Z.rem n 8 =? 0 then Z.quot n 8 else Z.quot n 8 + 1 in
  mkBitmap n (repeat 0 (Z.to_nat numBytes)).

(** [Bitmap.Get]: panics out of range. *)
Definition Bitmap_Get (b : Bitmap) (i : Z) : option bool :=
  if (i <? 0) || (i >=? numBits b) then None
  else byte ← slice_get (bytes b) (Z.shiftr i 3);
       Some (negb (Z.land byte (Z.shiftl 1 (Z.land i 7)) =? 0)).

(** [Bitmap.Set] *)
Definition Bitmap_Set (b : Bitmap) (i : Z) (v : bool) : option Bitmap :=
  if (i <? 0) || (i >=? numBits b) then None
  else byte ← slice_get (bytes b) (Z.shiftr i 3);
       let mask := Z.shiftl 1 (Z.land i 7) in
       let byte' := if v then Z.lor byte mask
                    else Z.land byte (Z.lxor mask 255) in
       Some (mkBitmap (numBits b) (<[Z.to_nat (Z.shiftr i 3) := byte']> (bytes b))).

(** A bitmap as [NewBitmap] builds it and [Set] keeps it: [numBits]
    fits in the bytes, and each byte is a [uint8]. *)
Definition Bitmap_WF (b : Bitmap) : Prop :=
  0 <= numBits b ∧ numBits b <= 8 * Z.of_nat (length (bytes b)) ∧
  Forall (λ x, 0 <= x < 256) (bytes b).

Record Timestep := mkTimestep {
  Features : Bitmap;
  Output : list Q;
  Target : list Q
}.

Definition Sequence := list Timestep.

(** [BranchFeature]: [Feature = -1] is the "before the start" sentinel. *)
Record BranchFeature := mkBranchFeature { Feature : Z; StepsInPast : Z }.

Record TimestepSample := mkTimestepSample { Seq : Sequence; Index : Z }.

(** [TimestepSample.BranchFeature] (part_011, lines 75-84). *)
Definition TimestepSample_BranchFeature (t : TimestepSample) (b : BranchFeature)
    : option bool :=
  if StepsInPast b >? Index t then Some (Feature b =? -1)
  else if Feature b =? -1 then Some false
  else ts ← slice_get (Seq t) (Index t - StepsInPast b);
       Bitmap_Get (Features ts) (Feature b).

(** [TimestepSample.Timestep] *)
Definition TimestepSample_Timestep (t : TimestepSample) : option Timestep :=
  slice_get (Seq t) (Index t).

(** [lossSample.BranchFeatureFast] (part_001, lines 987-995): the feature
    is pre-split into a byte index ([-1] for the sentinel) and a mask. *)
Definition BranchFeatureFast (t : TimestepSample) (stepsInPast byteIdx bitMask : Z)
    : option bool :=
  if stepsInPast >? Index t then Some (byteIdx =? -1)
  else if byteIdx =? -1 then Some false
  else ts ← slice_get (Seq t) (Index t - stepsInPast);
       byte ← slice_get (bytes (Features ts)) byteIdx;
       Some (negb (Z.land byte bitMask =? 0)).

(** The byte index and mask [Builder.evaluateFeature] (part_001) passes
    to [BranchFeatureFast] for a feature. *)
Definition evaluateFeature_fast (t : TimestepSample) (f : BranchFeature) : option bool :=
  let byteIdx := if Feature f =? -1 then -1 else Z.shiftr (Feature f) 3 in
  let bitMask := Z.shiftl 1 (Z.land (Feature f) 7) in
  BranchFeatureFast t (StepsInPast f) byteIdx bitMask.

(** ** Examples *)

Definition ex_seq : Sequence :=
  [ mkTimestep (mkBitmap 10 [5; 2]) [] [];
    mkTimestep (mkBitmap 10 [0; 1]) [] [] ].

Example ex_get : Bitmap_Get (mkBitmap 10 [5; 2]) 2 = Some true.
Proof. reflexivity. Qed.

Example ex_branch :
  TimestepSample_BranchFeature (mkTimestepSample ex_seq 1) (mkBranchFeature 9 1)
  = Some true.
Proof. reflexivity. Qed.

(** ** model.go: trees, leaves and the model *)

(** A Go [*Leaf] is a key into the leaf store; [OutputDelta] and
    [Feature] are mutable through that pointer. *)
Record Leaf := mkLeaf { OutputDelta : list Q; LeafFeature : Z }.

Abbreviation LeafStore := (gmap nat Leaf).

(** A [*Tree] node: [node] is the address of the [Tree] struct (and of
    its [Branch] for inner nodes); a leaf node points into the store.
    [F] is the branch test: one [BranchFeature] in model.go, a union of
    them in part_012. *)
Inductive tree (F : Type) : Type :=
  | TLeaf (node : nat) (leaf : nat)
  | TBranch (node : nat) (feat : F) (FalseBranch TrueBranch : tree F).
Arguments TLeaf {F} _ _.
Arguments TBranch {F} _ _ _ _.

Abbreviation Tree := (tree BranchFeature).

(** Leaf pointers, false branch first. *)
Fixpoint leaf_ptrs {F} (t : tree F) : list nat :=
  match t with
  | TLeaf _ l => [l]
  | TBranch _ _ fb tb => leaf_ptrs fb ++ leaf_ptrs tb
  end.

(** Node addresses of the [Tree] structs. *)
Fixpoint node_ptrs {F} (t : tree F) : list nat :=
  match t with
  | TLeaf n _ => [n]
  | TBranch n _ fb tb => n :: node_ptrs fb ++ node_ptrs tb
  end.

(** [Tree.NumFeatures]; dereferencing a missing leaf panics. *)
Fixpoint Tree_NumFeatures {F} (st : LeafStore) (t : tree F) : option Z :=
  match t with
  | TLeaf _ l =>
      lf ← st !! l; Some (if LeafFeature lf =? 0 then 0 else 1)
  | TBranch _ _ fb tb =>
      a ← Tree_NumFeatures st fb; b ← Tree_NumFeatures st tb; Some (a + b)%Z
  end.

Definition scale_leaf (s : Q) (lf : Leaf) : Leaf :=
  mkLeaf (map (fun x => (x * s)%Q) (OutputDelta lf)) (LeafFeature lf).

(** [Tree.Scale]: scales every leaf's [OutputDelta] in place. *)
Fixpoint Tree_Scale {F} (st : LeafStore) (t : tree F) (s : Q) : option LeafStore :=
  match t with
  | TLeaf _ l => lf ← st !! l; Some (<[l := scale_leaf s lf]> st)
  | TBranch _ _ fb tb => st' ← Tree_Scale st fb s; Tree_Scale st' tb s
  end.

Record Model := mkModel {
  BaseFeatures : Z;
  ExtraFeatures : Z;
  Trees : list Tree
}.

(** [Model.NumFeatures] *)
Definition Model_NumFeatures (m : Model) : Z := BaseFeatures m + ExtraFeatures m.

(** [Model.Add] (model.go, lines 71-75). *)
Definition Model_Add (st : LeafStore) (m : Model) (t : Tree) (stepSize : Q)
    : option (LeafStore * Model) :=
  st' ← Tree_Scale st t (- stepSize)%Q;
  n ← Tree_NumFeatures st' t;
  Some (st', mkModel (BaseFeatures m) (ExtraFeatures m + n) (Trees m ++ [t])).

(** ** sequence.go / model.go: evaluating a model on a linked sequence

    The doubly linked list of sequence.go is a list of timesteps; a
    [*Timestep] is a position in it ([Prev] is position - 1). *)
Module Linked.

Record Timestep := mkTimestep { Features : list bool; Output : list Q }.

(** [Timestep.BranchFeature]: walk [StepsInPast] times to [Prev]; [nil]
    answers [Feature == -1], otherwise index [Features] (which panics out
    of range, including for [-1]). *)
Definition Timestep_BranchFeature (sq : list Timestep) (p : nat) (b : BranchFeature)
    : option bool :=
  let pos := (Z.of_nat p - Z.max (StepsInPast b) 0)%Z in
  if (pos <? 0)%Z then Some (Feature b =? -1)%Z
  else ts ← slice_get sq pos; slice_get (Features ts) (Feature b).

(** [Tree.Evaluate]: the leaf pointer the timestep is routed to. *)
Fixpoint Tree_Evaluate (sq : list Timestep) (p : nat) (t : Tree) : option nat :=
  match t with
  | TLeaf _ l => Some l
  | TBranch _ f fb tb =>
      match Timestep_BranchFeature sq p f with
      | Some true => Tree_Evaluate sq p tb
      | Some false => Tree_Evaluate sq p fb
      | None => None
      end
  end.

(** [blas32.Axpy(n, 1.0, x, y)] on unit-stride vectors: [n = 0] is a
    no-op, a short [x] panics, otherwise [y[i] += 1.0 * x[i]]. *)
Definition Axpy (n : nat) (x y : list Q) : option (list Q) :=
  if (n =? 0)%nat then Some y
  else if (length x <? n)%nat then None
  else Some (zip_with (fun yi xi => yi + 1 * xi)%Q y x).

(** [if leaf.Feature != 0 { ts.Features[leaf.Feature] = true }]; the
    slice index panics out of range. *)
Definition set_leaf_feature (lf : Leaf) (fs : list bool) : option (list bool) :=
  if (LeafFeature lf =? 0)%Z then Some fs
  else match slice_get fs (LeafFeature lf) with
       | Some _ => Some (<[Z.to_nat (LeafFeature lf) := true]> fs)
       | None => None
       end.

(** The body of the [Iterate] callback in [Model.Evaluate] at position
    [p]: add the leaf's delta, then set the leaf's feature if non-zero. *)
Definition eval_at (st : LeafStore) (t : Tree) (sq : list Timestep) (p : nat)
    : option (list Timestep) :=
  l ← Tree_Evaluate sq p t;
  lf ← st !! l;
  ts ← sq !! p;
  out ← Axpy (length (Output ts)) (OutputDelta lf) (Output ts);
  feats ← set_leaf_feature lf (Features ts);
  Some (<[p := mkTimestep feats out]> sq).

(** [start.Iterate(...)] for one tree: positions first to last. *)
Fixpoint eval_positions (st : LeafStore) (t : Tree) (ps : list nat) (sq : list Timestep)
    : option (list Timestep) :=
  match ps with
  | [] => Some sq
  | p :: ps' => sq' ← eval_at st t sq p; eval_positions st t ps' sq'
  end.

Definition eval_tree (st : LeafStore) (t : Tree) (sq : list Timestep)
    : option (list Timestep) :=
  eval_positions st t (seq 0 (length sq)) sq.

Fixpoint eval_trees (st : LeafStore) (ts : list Tree) (sq : list Timestep)
    : option (list Timestep) :=
  match ts with
  | [] => Some sq
  | t :: ts' => sq' ← eval_tree st t sq; eval_trees st ts' sq'
  end.

(** [Model.Evaluate] (model.go, lines 35-47). *)
Definition Model_Evaluate (st : LeafStore) (m : Model) (sq : list Timestep)
    : option (list Timestep) :=
  eval_trees st (Trees m) sq.

End Linked.

(** ** Feature bookkeeping of a model (for the additivity of evaluation) *)

(** Feature indices tested by the branches of a tree. *)
Fixpoint tested_features (t : Tree) : list Z :=
  match t with
  | TLeaf _ _ => []
  | TBranch _ f fb tb => Feature f :: tested_features fb ++ tested_features tb
  end.

(** Feature indices set by the leaves of a tree ([0] means none). *)
Fixpoint set_features (st : LeafStore) (t : Tree) : list Z :=
  match t with
  | TLeaf _ l =>
      match st !! l with
      | Some lf => if (LeafFeature lf =? 0)%Z then [] else [LeafFeature lf]
      | None => []
      end
  | TBranch _ _ fb tb => set_features st fb ++ set_features st tb
  end.

(** The shape of a boosted model: no tree tests a feature that it or a
    later tree sets (later trees may read features of earlier ones). *)
Fixpoint Trees_WF (st : LeafStore) (ts : list Tree) : Prop :=
  match ts with
  | [] => True
  | t :: ts' =>
      (∀ f, f ∈ tested_features t →
         (f ∉ set_features st t) ∧ (∀ t', t' ∈ ts' → f ∉ set_features st t')) ∧
      Trees_WF st ts'
  end.

Module LinkedRel.
Import Linked.

(** [c] is [a] with [g] added: features OR-ed, outputs summed. *)
Definition ts_sum (a g c : Timestep) : Prop :=
  length (Features a) = length (Features g) ∧
  Features c = zip_with orb (Features a) (Features g) ∧
  length (Output a) = length (Output g) ∧
  Forall2 Qeq (Output c) (zip_with Qplus (Output a) (Output g)).

Definition seq_sum (s1 g s2 : list Timestep) : Prop :=
  length s1 = length g ∧ length s2 = length g ∧
  ∀ p a b c, s1 !! p = Some a → g !! p = Some b → s2 !! p = Some c → ts_sum a b c.

(** Two sequences of one shape that read the same on the features [fs]. *)
Definition agree_on (fs : list Z) (s s' : list Timestep) : Prop :=
  length s = length s' ∧
  ∀ p a b, s !! p = Some a → s' !! p = Some b →
    ∀ f, f ∈ fs → slice_get (Features a) f = slice_get (Features b) f.

(** [s'] only differs from [s] on the features [fs]. *)
Definition unchanged_except (fs : list Z) (s s' : list Timestep) : Prop :=
  length s = length s' ∧
  ∀ p a b, s !! p = Some a → s' !! p = Some b →
    ∀ f, f ∉ fs → slice_get (Features a) f = slice_get (Features b) f.

(** [s'] has the shape of [s] and at least its features. *)
Definition grows (s s' : list Timestep) : Prop :=
  length s = length s' ∧
  ∀ p a b, s !! p = Some a → s' !! p = Some b →
    length (Features a) = length (Features b) ∧
    Features b = zip_with orb (Features a) (Features b) ∧
    length (Output a) = length (Output b).

End LinkedRel.

(** ** Concrete models used as witnesses *)

(** A tree whose root tests feature 1 of the current timestep and whose
    false leaf sets that very feature. *)
Definition ex_store_self : LeafStore :=
  <[1%nat := mkLeaf [1%Q] 1]> (<[2%nat := mkLeaf [0%Q] 0]> ∅).
Definition ex_tree_self : Tree :=
  TBranch 0 (mkBranchFeature 1 0) (TLeaf 1 1) (TLeaf 2 2).
Definition ex_model_self : Model := mkModel 1 1 [ex_tree_self].
Definition ex_fresh_seq : list Linked.Timestep :=
  [Linked.mkTimestep [false; false] [0%Q]].

(** A boosted model: the tree tests feature 0 and its leaves set 1. *)
Definition ex_store_wf : LeafStore :=
  <[1%nat := mkLeaf [1%Q] 1]> (<[2%nat := mkLeaf [2%Q] 0]> ∅).
Definition ex_tree_wf : Tree :=
  TBranch 0 (mkBranchFeature 0 0) (TLeaf 1 1) (TLeaf 2 2).
Definition ex_model_wf : Model := mkModel 1 1 [ex_tree_wf].
(** The same store with one [*Leaf] (pointer 1) at both positions of a tree. *)
Definition ex_tree_shared : Tree :=
  TBranch 0 (mkBranchFeature 0 0) (TLeaf 1 1) (TLeaf 2 1).
Definition ex_seq_wf : list Linked.Timestep :=
  [Linked.mkTimestep [true; false] [0%Q]; Linked.mkTimestep [false; false] [0%Q]].

(** ** heuristic.go, loss.go, math_types.go, numerical.go: split heuristics *)

Section HeuristicDefs.
Local Open Scope Q_scope.

(** Ranging over [xs] while reading [ys[i]]: panics when [ys] is shorter. *)
Fixpoint zip_index {A B C} (f : A → B → C) (xs : list A) (ys : list B)
    : option (list C) :=
  match xs, ys with
  | [], _ => Some []
  | x :: xs', y :: ys' =>
      match zip_index f xs' ys' with Some r => Some (f x y :: r) | None => None end
  | _ :: _, [] => None
  end.

(** [var res float32; for _, x := range v { res += ... }] *)
Definition float_sum (v : list Q) : Q := fold_left Qplus v 0.

Definition vectorNormSquared (v : list Q) : Q :=
  fold_left (λ res x, res + x * x) v 0.

Fixpoint vectorDot_from (res : Q) (v1 v2 : list Q) : option Q :=
  match v1, v2 with
  | [], _ => Some res
  | x :: v1', y :: v2' => vectorDot_from (res + x * y) v1' v2'
  | _ :: _, [] => None
  end.

Definition vectorDot (v1 v2 : list Q) : option Q := vectorDot_from 0 v1 v2.

Definition vectorDifference (v1 v2 : list Q) : option (list Q) :=
  zip_index Qminus v1 v2.

(** [maxOutput := outputs[0]; for ... if x > maxOutput { maxOutput = x }] *)
Definition max_output (outputs : list Q) : option Q :=
  match outputs with
  | [] => None
  | o :: rest => Some (fold_left (λ m x, if Qle_bool x m then m else x) rest o)
  end.

(** The exponentials of [Softmax]: [float32(math.Exp(float64(x - max)))].
    Exact arithmetic cannot compute them, so [exp32] is a parameter. *)
Definition softmax_exps (exp32 : Q → Q) (outputs : list Q) : option (list Q) :=
  m ← max_output outputs; Some (map (λ x, exp32 (x - m)) outputs).

(** [Softmax.LossGrad]: [targetSum * e_i / sum(e) - targets[i]]. *)
Definition Softmax_LossGrad (exp32 : Q → Q) (outputs targets : list Q)
    : option (list Q) :=
  let targetSum := float_sum targets in
  grad ← softmax_exps exp32 outputs;
  let div := 1 / float_sum grad in
  zip_index (λ x t, targetSum * x * div - t) grad targets.

Record Hessian := mkHessian { Dim : nat; Data : list Q }.

(** [Softmax.LossHessian]: [Data[i + j*Dim]] is
    [(-e_j e_i / expSum^2 + [i = j] e_i / expSum) * targetSum]; the double
    loop writes each index of [Data] exactly once. *)
Definition Softmax_LossHessian (exp32 : Q → Q) (outputs targets : list Q)
    : option Hessian :=
  exps ← softmax_exps exp32 outputs;
  let expSum := float_sum exps in
  let expSumSq := expSum * expSum in
  let targetSum := float_sum targets in
  let d := length outputs in
  let val (i j : nat) :=
    let ei := nth i exps 0 in let ej := nth j exps 0 in
    let v := - ej * ei / expSumSq in
    let v := if (i =? j)%nat then v + ei / expSum else v in
    v * targetSum in
  Some (mkHessian d (map (λ k, val (k mod d)%nat (k / d)%nat) (seq 0 (d * d)))).

(** [Sigmoid.LossGrad]: per coordinate, component 0 of the softmax gradient
    of the logits [x, 0] against the targets [t, 1-t]. *)
Definition Sigmoid_LossGrad (exp32 : Q → Q) (outputs targets : list Q)
    : option (list Q) :=
  gs ← zip_index (λ x t, Softmax_LossGrad exp32 [x; 0] [t; 1 - t]) outputs targets;
  mapM (λ g, g ≫= λ g', g' !! 0%nat) gs.

(** [Sigmoid.LossHessian]: a diagonal matrix whose entry [i + i*d] is
    [Data[0]] of the softmax Hessian of [x, 0] against [t, 1-t]. *)
Fixpoint sigmoid_diag (exp32 : Q → Q) (d i : nat) (outputs targets : list Q)
    (data : list Q) : option (list Q) :=
  match outputs with
  | [] => Some data
  | x :: outputs' =>
      t ← targets !! i;
      h ← Softmax_LossHessian exp32 [x; 0] [t; 1 - t];
      h0 ← Data h !! 0%nat;
      sigmoid_diag exp32 d (S i) outputs' targets (<[(i + i * d)%nat := h0]> data)
  end.

Definition Sigmoid_LossHessian (exp32 : Q → Q) (outputs targets : list Q)
    : option Hessian :=
  let d := length outputs in
  data ← sigmoid_diag exp32 d 0 outputs targets (repeat 0 (d * d));
  Some (mkHessian d data).

(** The two [HessianLossFunc] implementations. *)
Inductive HessianLoss := LossSoftmax | LossSigmoid.

Definition LossGrad (exp32 : Q → Q) (l : HessianLoss) :=
  match l with LossSoftmax => Softmax_LossGrad exp32 | LossSigmoid => Sigmoid_LossGrad exp32 end.

Definition LossHessian (exp32 : Q → Q) (l : HessianLoss) :=
  match l with
  | LossSoftmax => Softmax_LossHessian exp32
  | LossSigmoid => Sigmoid_LossHessian exp32
  end.

Record HessianHeuristic := mkHessianHeuristic { Loss : HessianLoss; Damping : Q }.

(** [hess.Data[i+i*hess.Dim] += h.Damping] for [i < hess.Dim]. *)
Fixpoint add_damping (damp : Q) (dim : nat) (is : list nat) (data : list Q)
    : option (list Q) :=
  match is with
  | [] => Some data
  | i :: is' =>
      v ← data !! (i + i * dim)%nat;
      add_damping damp dim is' (<[(i + i * dim)%nat := v + damp]> data)
  end.

(** [HessianHeuristic.SampleVector] (heuristic.go, lines 80-88): the
    gradient is taken from [Softmax{}], the Hessian from [h.Loss]. *)
Definition HessianHeuristic_SampleVector (exp32 : Q → Q) (h : HessianHeuristic)
    (outputs targets : list Q) : option (list Q) :=
  grad ← Softmax_LossGrad exp32 outputs targets;
  hess ← LossHessian exp32 (Loss h) outputs targets;
  data ← add_damping (Damping h) (Dim hess) (seq 0 (Dim hess)) (Data hess);
  Some (grad ++ data).

(** [Hessian.Apply], row [i]: [res[i] += Data[i*Dim + j] * v[j]]. *)
Fixpoint Apply_row (data : list Q) (rowIdx j : nat) (acc : Q) (v : list Q)
    : option Q :=
  match v with
  | [] => Some acc
  | x :: v' =>
      match data !! (rowIdx + j)%nat with
      | Some a => Apply_row data rowIdx (S j) (acc + a * x) v'
      | None => None
      end
  end.

Definition Hessian_Apply (h : Hessian) (v : list Q) : option (list Q) :=
  if negb (length v =? Dim h)%nat then None
  else mapM (λ i, Apply_row (Data h) (i * Dim h)%nat 0 0 v) (seq 0 (Dim h)).

(** [for j, y := range residual { x[j] += stepSize * y }] *)
Fixpoint add_scaled (x residual : list Q) (s : Q) : option (list Q) :=
  match residual, x with
  | [], _ => Some x
  | y :: r', xj :: x' =>
      match add_scaled x' r' s with Some rest => Some (xj + s * y :: rest) | None => None end
  | _ :: _, [] => None
  end.

(** [Hessian.ApplyInverse]: [Dim] steps of minimal-residual descent from
    zero, stopping early when [|H r|^2 = 0]. *)
Fixpoint ApplyInverse_loop (h : Hessian) (v : list Q) (n : nat) (x : list Q)
    : option (list Q) :=
  match n with
  | O => Some x
  | S n' =>
      hx ← Hessian_Apply h x;
      residual ← vectorDifference v hx;
      product ← Hessian_Apply h residual;
      let divisor := vectorNormSquared product in
      if Qeq_bool divisor 0 then Some x
      else (d ← vectorDot residual product;
            x' ← add_scaled x residual (d / divisor);
            ApplyInverse_loop h v n' x')
  end.

Definition Hessian_ApplyInverse (h : Hessian) (v : list Q) : option (list Q) :=
  ApplyInverse_loop h v (Dim h) (repeat 0 (length v)).

(** [sort.Search(n, f)]: [i, j := 0, n; for i < j { h := (i+j)/2; if !f(h)
    { i = h + 1 } else { j = h } }; return i].  The loop halves [j - i], so
    [n + 1] rounds bound it. *)
Fixpoint sort_Search_loop (f : nat → bool) (fuel i j : nat) : nat :=
  match fuel with
  | O => i
  | S fuel' =>
      if (i <? j)%nat then
        let h := ((i + j) / 2)%nat in
        if f h then sort_Search_loop f fuel' i h else sort_Search_loop f fuel' (S h) j
      else i
  end.

Definition sort_Search (n : nat) (f : nat → bool) : nat := sort_Search_loop f (S n) 0 n.

(** [HessianHeuristic.inferDimension]: panics unless [x*(x+1) = vecSize]. *)
Definition inferDimension (vecSize : nat) : option nat :=
  let x := sort_Search vecSize (λ n, (vecSize <=? n * (n + 1))%nat) in
  if (x * (x + 1) =? vecSize)%nat then Some x else None.

(** [HessianHeuristic.minimize]: the approximate minimiser of
    [g.x + 1/2 x.Hx] and the value there. *)
Definition minimize (sum : list Q) : option (list Q * Q) :=
  dim ← inferDimension (length sum);
  let grad := take dim sum in
  let hessian := mkHessian dim (drop dim sum) in
  solution ← Hessian_ApplyInverse hessian (map Qopp grad);
  d1 ← vectorDot grad solution;
  hs ← Hessian_Apply hessian solution;
  d2 ← vectorDot solution hs;
  Some (solution, d1 + (1 # 2) * d2).

Definition HessianHeuristic_Quality (sum : list Q) : option Q :=
  r ← minimize sum; Some (- snd r).

Definition HessianHeuristic_LeafOutput (sum : list Q) : option (list Q) :=
  r ← minimize sum; Some (fst r).

(** [GradientHeuristic.SampleVector]: a count channel [1] followed by the
    loss gradient [g.Loss.LossGrad(...)] (passed in as [grad]). *)
Definition GradientHeuristic_SampleVector (grad : list Q) : list Q := 1 :: grad.

(** [GradientHeuristic.Quality] (heuristic.go, lines 47-53). *)
Definition GradientHeuristic_Quality (gradSum : list Q) : option Q :=
  count ← gradSum !! 0%nat;
  if Qeq_bool count 0 then Some 0
  else Some (vectorNormSquared (tail gradSum) / count).

(** [kahanSum] (numerical.go). *)
Record kahanSum := mkKahanSum { ksum : list Q; compensation : list Q }.

Definition newKahanSum (dim : nat) : kahanSum :=
  mkKahanSum (repeat 0 dim) (repeat 0 dim).

(** [kahanSum.Add]: ranges over [addition]; indexing panics past [dim]. *)
Fixpoint kahan_add_loop (sum comp addition : list Q) : option (list Q * list Q) :=
  match addition, sum, comp with
  | [], _, _ => Some (sum, comp)
  | n :: a', s :: sum', c :: comp' =>
      let n' := n - c in
      let s' := s + n' in
      let c' := (s' - s) - n' in
      match kahan_add_loop sum' comp' a' with
      | Some (ss, cs) => Some (s' :: ss, c' :: cs)
      | None => None
      end
  | _, _, _ => None
  end.

Definition kahanSum_Add (k : kahanSum) (addition : list Q) : option kahanSum :=
  r ← kahan_add_loop (ksum k) (compensation k) addition;
  Some (mkKahanSum (fst r) (snd r)).

Fixpoint kahanSum_AddAll (k : kahanSum) (vs : list (list Q)) : option kahanSum :=
  match vs with
  | [] => Some k
  | v :: vs' => match kahanSum_Add k v with Some k' => kahanSum_AddAll k' vs' | None => None end
  end.

(** The summed vector of a sample set: [newKahanSum(dim)], [Add] each
    sample vector, [Sum()]. *)
Definition vectors_sum (dim : nat) (vs : list (list Q)) : option (list Q) :=
  k ← kahanSum_AddAll (newKahanSum dim) vs; Some (ksum k).

End HeuristicDefs.

(** Element-wise sum of two vectors (the exact value of a Kahan-summed pair). *)
Definition vector_add (a b : list Q) : list Q := zip_with Qplus a b.

(** A function with the values of [float32(math.Exp(float64 x))] at [x = 0]
    (one) and at [x = -200] (zero: [e^-200] is below the least float32). *)
Definition exp32_at_0_and_m200 (x : Q) : Q := if Qeq_bool x 0%Q then 1%Q else 0%Q.

(** ** IEEE special values for [GradientHeuristic] (heuristic.go, lines 47-63)

    Finite values are exact rationals ([Fin q] with [q == 0] is +0); the
    model keeps what float32 division by zero produces: signed zeros,
    infinities and NaN. *)
Module F32.

Inductive float := Fin (q : Q) | NegZero | Inf (neg : bool) | NaN.

Definition is_zero (x : float) : bool :=
  match x with Fin q => Qeq_bool q 0 | NegZero => true | _ => false end.

(** The sign bit. *)
Definition sign (x : float) : bool :=
  match x with
  | Fin q => negb (Qle_bool 0 q)
  | NegZero => true
  | Inf n => n
  | NaN => false
  end.

Definition is_finite (x : float) : bool :=
  match x with Fin _ | NegZero => true | _ => false end.

Definition to_Q (x : float) : Q := match x with Fin q => q | _ => 0%Q end.

(** A finite result with the given sign when it is zero. *)
Definition mk_fin (neg : bool) (q : Q) : float :=
  if Qeq_bool q 0 then (if neg then NegZero else Fin 0) else Fin q.

Definition fmul (a b : float) : float :=
  match a, b with
  | NaN, _ | _, NaN => NaN
  | Inf _, _ | _, Inf _ =>
      if is_zero a || is_zero b then NaN else Inf (xorb (sign a) (sign b))
  | _, _ => mk_fin (xorb (sign a) (sign b)) (to_Q a * to_Q b)
  end.

Definition fdiv (a b : float) : float :=
  match a, b with
  | NaN, _ | _, NaN => NaN
  | Inf _, Inf _ => NaN
  | Inf _, _ => Inf (xorb (sign a) (sign b))
  | _, Inf _ => mk_fin (xorb (sign a) (sign b)) 0
  | _, _ =>
      if is_zero b then (if is_zero a then NaN else Inf (xorb (sign a) (sign b)))
      else mk_fin (xorb (sign a) (sign b)) (to_Q a / to_Q b)
  end.

Definition fadd (a b : float) : float :=
  match a, b with
  | NaN, _ | _, NaN => NaN
  | Inf n, Inf m => if Bool.eqb n m then Inf n else NaN
  | Inf n, _ | _, Inf n => Inf n
  | _, _ => mk_fin (sign a && sign b) (to_Q a + to_Q b)
  end.

(** Go's [==] on floats: NaN is unequal to everything, [+0 == -0]. *)
Definition feq (a b : float) : bool :=
  match a, b with
  | NaN, _ | _, NaN => false
  | Inf n, Inf m => Bool.eqb n m
  | Inf _, _ | _, Inf _ => false
  | _, _ => Qeq_bool (to_Q a) (to_Q b)
  end.

Definition vectorNormSquared (v : list float) : float :=
  fold_left (λ res x, fadd res (fmul x x)) v (Fin 0).

(** [GradientHeuristic.Quality]. *)
Definition GradientHeuristic_Quality (gradSum : list float) : option float :=
  count ← gradSum !! 0%nat;
  if feq count (Fin 0) then Some (Fin 0)
  else Some (fdiv (vectorNormSquared (tail gradSum)) count).

(** [GradientHeuristic.LeafOutput]: [s := -1 / count], no zero guard. *)
Definition GradientHeuristic_LeafOutput (gradSum : list float) : option (list float) :=
  count ← gradSum !! 0%nat;
  let s := fdiv (Fin (-1)) count in
  Some (map (λ x, fmul x s) (tail gradSum)).

End F32.

(** ** Polynomial (math_types.go), Sigmoid.LossPolynomials (loss.go) and
    PolynomialHeuristic.SampleVector (features.go) *)

Definition Polynomial := list Q.

(** [FlipX]: [p1[i] = -x] for odd [i], [x] otherwise. *)
Fixpoint FlipX_from (i : nat) (p : Polynomial) : Polynomial :=
  match p with
  | [] => []
  | x :: p' => (if Nat.odd i then (- x)%Q else x) :: FlipX_from (S i) p'
  end.

Definition FlipX (p : Polynomial) : Polynomial := FlipX_from 0 p.

(** [Add]: a zeroed result of the longer length, [res[i] = p[i]], then
    [res[i] += p1[i]]. *)
Fixpoint Polynomial_Add (p p1 : Polynomial) : Polynomial :=
  match p, p1 with
  | [], _ => map (λ y, 0 + y)%Q p1
  | _, [] => p
  | x :: p', y :: p1' => (x + y)%Q :: Polynomial_Add p' p1'
  end.

Definition Polynomial_Scale (p : Polynomial) (s : Q) : Polynomial :=
  map (λ x, x * s)%Q p.

(** [Polynomial.Apply] (math_types.go, lines 127-135): [res += c * coeff;
    coeff *= x] over the coefficients. *)
Definition Polynomial_Apply (p : Polynomial) (x : Q) : Q :=
  fst (fold_left (λ '(res, coeff) c, (res + c * coeff, coeff * x)%Q) p (0, 1)%Q).

(** The value [p[0] + x*(p[1] + x*(...))] of a coefficient list. *)
Fixpoint poly_value (p : Polynomial) (x : Q) : Q :=
  match p with [] => 0%Q | c :: p' => (c + x * poly_value p' x)%Q end.

(** [Sigmoid.LossPolynomials]; [plog x] stands for [newPolynomialLogSigmoid(x)],
    whose coefficients come from float64 [exp] and [log]. *)
Definition Sigmoid_LossPolynomials (plog : Q → Polynomial) (outputs targets : list Q)
    : option (list Polynomial) :=
  zip_index (λ x t,
      let p1 := Polynomial_Scale (plog x) t in
      let p2 := Polynomial_Scale (FlipX (plog (- x)%Q)) (1 - t)%Q in
      Polynomial_Scale (Polynomial_Add p1 p2) (-1)%Q)
    outputs targets.

(** The loop of [PolynomialHeuristic.SampleVector]: for each polynomial
    append [0] and [p[1:]] (which panics on an empty polynomial). *)
Fixpoint poly_blocks (polys : list Polynomial) : option (list Q) :=
  match polys with
  | [] => Some []
  | [] :: _ => None
  | (_ :: tl) :: ps =>
      match poly_blocks ps with Some r => Some ((0%Q :: tl) ++ r) | None => None end
  end.

Definition PolynomialHeuristic_SampleVector (plog : Q → Polynomial)
    (outputs targets : list Q) : option (list Q) :=
  polys ← Sigmoid_LossPolynomials plog outputs targets; poly_blocks polys.

(** ** The worker pool of [Model.EvaluateAll] (model.go)

    The starts are sent on a buffered channel that is then closed; the main
    goroutine runs [GOMAXPROCS] iterations of [wg.Add(1); go worker()] and
    returns.  A worker receives from the channel and evaluates what it got,
    and calls [wg.Done()] once the closed channel is drained.  The workers are
    interchangeable, so only their number is kept; receiving a sequence and
    evaluating it is one step.  [with_wait] adds the [wg.Wait()] that the
    other parallel operations (e.g. [Builder.optimalFeature]) have after
    their spawn loop, and that [EvaluateAll] lacks. *)
Module Pool.

Inductive MainPC := Spawning (k : nat) | Waiting | Returned.

Record state := mkState {
  main_pc : MainPC;
  chan : list nat;        (** indices of the starts still in the channel *)
  evaluated : list nat;   (** indices of the starts already evaluated *)
  wg : nat;               (** the WaitGroup counter *)
  running : nat;          (** spawned workers that have not exited *)
  exited : nat            (** workers that have exited *)
}.

Definition init (procs : nat) (starts : list nat) : state :=
  mkState (Spawning procs) starts [] 0 0 0.

Inductive step (with_wait : bool) : state → state → Prop :=
  | step_spawn k ch ev w r e :
      step with_wait (mkState (Spawning (S k)) ch ev w r e)
                     (mkState (Spawning k) ch ev (S w) (S r) e)
  | step_loop_done ch ev w r e :
      step with_wait (mkState (Spawning 0) ch ev w r e)
                     (mkState (if with_wait then Waiting else Returned) ch ev w r e)
  | step_wait_return ch ev r e :
      step with_wait (mkState Waiting ch ev 0 r e) (mkState Returned ch ev 0 r e)
  | step_worker_eval pc x ch ev w r e :
      step with_wait (mkState pc (x :: ch) ev w (S r) e)
                     (mkState pc ch (x :: ev) w (S r) e)
  | step_worker_exit pc ev w r e :
      step with_wait (mkState pc [] ev (S w) (S r) e)
                     (mkState pc [] ev w r (S e)).

(** The main goroutine's program: [EvaluateAll] as written has no wait. *)
Definition EvaluateAll_step := step false.

(** What holds along every run with the wait: the counter equals the number
    of running workers, a worker exits only on the drained channel, no start
    is lost, and the main goroutine returns only when no worker runs. *)
Definition wait_inv (procs : nat) (starts : list nat) (s : state) : Prop :=
  wg s = running s ∧ (0 < exited s → chan s = [])%nat ∧
  evaluated s ++ chan s ≡ₚ starts ∧ (main_pc s = Returned → running s = 0%nat) ∧
  match main_pc s with
  | Spawning k => (k + running s + exited s = procs)%nat
  | _ => (running s + exited s = procs)%nat
  end.

End Pool.

(** ** prune.go (lines 1-98): the pruner

    Trees here are those of part_012, whose branches test a union of
    features.  Addresses of new [Tree] structs and [Leaf] structs are drawn
    from a counter [next], above every address in use. *)

Abbreviation UTree := (tree (list BranchFeature)).

(** The union test of [Tree.Evaluate] (part_012, lines 126-136). *)
Fixpoint union_test (ts : TimestepSample) (fs : list BranchFeature) : option bool :=
  match fs with
  | [] => Some false
  | f :: fs' =>
      match TimestepSample_BranchFeature ts f with
      | Some true => Some true
      | Some false => union_test ts fs'
      | None => None
      end
  end.

Fixpoint UTree_Evaluate (ts : TimestepSample) (t : UTree) : option nat :=
  match t with
  | TLeaf _ l => Some l
  | TBranch _ fs fb tb =>
      match union_test ts fs with
      | Some true => UTree_Evaluate ts tb
      | Some false => UTree_Evaluate ts fb
      | None => None
      end
  end.

(** The address of the root [Tree] struct. *)
Definition root_ptr {F} (t : tree F) : nat :=
  match t with TLeaf n _ => n | TBranch n _ _ _ => n end.

(** [t.Leaf == l] *)
Definition is_leaf_ptr {F} (t : tree F) (l : nat) : bool :=
  match t with TLeaf _ l' => Nat.eqb l' l | TBranch _ _ _ _ => false end.

(** The heuristic's methods used by the pruner (heuristic.go). *)
Record Heuristic := mkHeuristic {
  H_Quality : list Q → option Q;
  H_LeafOutput : list Q → option (list Q)
}.

(** [GradientHeuristic.LeafOutput] *)
Definition GradientHeuristic_LeafOutput (gradSum : list Q) : option (list Q) :=
  count ← gradSum !! 0%nat;
  let s := (-1 / count)%Q in
  Some (map (λ x, x * s)%Q (tail gradSum)).

Definition GradientHeuristicQ : Heuristic :=
  mkHeuristic GradientHeuristic_Quality GradientHeuristic_LeafOutput.

(** A [vecSample]: a timestep sample and its heuristic vector. *)
Abbreviation vecSample := (TimestepSample * list Q)%type.

(** [pruneLeaf] (lines 80-98); the new [Tree] struct gets the address
    [next] once both children are built. *)
Fixpoint pruneLeaf (t : UTree) (l : nat) (next : nat) : option (UTree * nat) :=
  match t with
  | TLeaf _ l' => if Nat.eqb l' l then None else Some (t, next)
  | TBranch _ fs fb tb =>
      if is_leaf_ptr fb l then Some (tb, next)
      else if is_leaf_ptr tb l then Some (fb, next)
      else
        '(fb', next1) ← pruneLeaf fb l next;
        '(tb', next2) ← pruneLeaf tb l next1;
        Some (TBranch next2 fs fb' tb', S next2)
  end.

(** One step of [leafSums] (lines 65-78): add the vector to the leaf's
    running sum, creating [newKahanSum(len(s.Vector))] on first use. *)
Definition leafSums_add (t : UTree) (sums : gmap nat kahanSum) (s : vecSample)
    : option (gmap nat kahanSum) :=
  leaf ← UTree_Evaluate s.1 t;
  let start := match sums !! leaf with Some k => k | None => newKahanSum (length s.2) end in
  k ← kahanSum_Add start s.2;
  Some (<[leaf := k]> sums).

Fixpoint leafSums_from (t : UTree) (sums : gmap nat kahanSum) (samples : list vecSample)
    : option (gmap nat kahanSum) :=
  match samples with
  | [] => Some sums
  | s :: rest => sums' ← leafSums_add t sums s; leafSums_from t sums' rest
  end.

Definition leafSums (samples : list vecSample) (t : UTree) : option (gmap nat kahanSum) :=
  leafSums_from t ∅ samples.

(** [treeQuality] (lines 49-56): a one-dimensional Kahan sum of the leaf
    qualities, in the map's iteration order. *)
Definition treeQuality (h : Heuristic) (samples : list vecSample) (t : UTree) : option Q :=
  sums ← leafSums samples t;
  qs ← mapM (λ ls : nat * kahanSum, H_Quality h (ksum ls.2)) (map_to_list sums);
  k ← kahanSum_AddAll (newKahanSum 1) (map (λ q, [q]) qs);
  ksum k !! 0%nat.

(** The inner loop of [Prune] over the leaves: the first strictly best
    candidate wins; [None] is the initial [-Inf]. *)
Fixpoint best_prune (h : Heuristic) (samples : list vecSample) (result : UTree)
    (leaves : list nat) (next : nat) (best : option (Q * UTree))
    : option (option (Q * UTree) * nat) :=
  match leaves with
  | [] => Some (best, next)
  | l :: ls =>
      '(t1, next1) ← pruneLeaf result l next;
      q ← treeQuality h samples t1;
      let best' :=
        match best with
        | Some (bq, _) => if negb (Qle_bool q bq) then Some (q, t1) else best
        | None => Some (q, t1)
        end in
      best_prune h samples result ls next1 best'
  end.

(** [Tree.Leaves] is not in the sources.  Modelled from the spec:
    "Enumerate the tree's leaves", taken false branch first. *)
Definition Tree_Leaves {F} (t : tree F) : list nat := leaf_ptrs t.

(** The [for] loop of [Prune] (lines 24-41).  Every round removes at
    least one leaf, so the number of leaves bounds the rounds. *)
Fixpoint prune_loop (h : Heuristic) (maxLeaves : Z) (samples : list vecSample)
    (fuel : nat) (result : UTree) (next : nat) : option (UTree * nat) :=
  if (Z.of_nat (length (Tree_Leaves result)) <=? maxLeaves)%Z then Some (result, next)
  else match fuel with
  | O => None
  | S fuel' =>
      '(best, next1) ← best_prune h samples result (Tree_Leaves result) next None;
      match best with
      | Some (_, bt) => prune_loop h maxLeaves samples fuel' bt next1
      | None => None
      end
  end.

(** [Tree.Copy] is not in the sources.  Modelled from the spec:
    "deep-copy the result": fresh [Tree] structs and fresh leaves holding
    the same [OutputDelta] and [Feature]. *)
Fixpoint Tree_Copy {F} (st : LeafStore) (t : tree F) (next : nat)
    : option (LeafStore * tree F * nat) :=
  match t with
  | TLeaf _ l => lf ← st !! l; Some (<[S next := lf]> st, TLeaf next (S next), S (S next))
  | TBranch _ f fb tb =>
      '(st1, fb', next1) ← Tree_Copy st fb next;
      '(st2, tb', next2) ← Tree_Copy st1 tb next1;
      Some (st2, TBranch next2 f fb' tb', S next2)
  end.

(** [recomputeOutputDeltas] (lines 58-63), over the leaf sums. *)
Fixpoint set_deltas (h : Heuristic) (sums : list (nat * kahanSum)) (st : LeafStore)
    : option LeafStore :=
  match sums with
  | [] => Some st
  | (l, k) :: rest =>
      out ← H_LeafOutput h (ksum k);
      lf ← st !! l;
      set_deltas h rest (<[l := mkLeaf out (LeafFeature lf)]> st)
  end.

Definition recomputeOutputDeltas (h : Heuristic) (samples : list vecSample) (t : UTree)
    (st : LeafStore) : option LeafStore :=
  sums ← leafSums samples t; set_deltas h (map_to_list sums) st.

(** [Pruner.Prune] (lines 19-47). *)
Definition Pruner_Prune (h : Heuristic) (maxLeaves : Z) (samples : list vecSample)
    (t : UTree) (st : LeafStore) (next : nat) : option (UTree * LeafStore * nat) :=
  if (maxLeaves <? 1)%Z then None
  else
    '(result, next1) ← prune_loop h maxLeaves samples (length (Tree_Leaves t)) t next;
    if Nat.eqb (root_ptr result) (root_ptr t) then Some (result, st, next1)
    else
      '(st1, c, next2) ← Tree_Copy st result next1;
      st2 ← recomputeOutputDeltas h samples c st1;
      Some (c, st2, next2).

(** A three-leaf tree whose samples all reach its first leaf: with
    [StepsInPast 1] at index 0 the feature reads as [Feature == -1], here
    false. *)
Definition ex_prune_feature : BranchFeature := mkBranchFeature 5 1.
Definition ex_prune_ts : TimestepSample := mkTimestepSample [] 0.
Definition ex_prune_tree : UTree :=
  TBranch 1 [ex_prune_feature] (TLeaf 2 10)
    (TBranch 3 [ex_prune_feature] (TLeaf 4 11) (TLeaf 5 12)).
Definition ex_prune_store : LeafStore :=
  {[10%nat := mkLeaf [1; 1]%Q 0; 11%nat := mkLeaf [2; 2]%Q 0; 12%nat := mkLeaf [7; 7]%Q 0]}.
Definition ex_prune_samples : list vecSample :=
  [(ex_prune_ts, [1; 3]%Q); (ex_prune_ts, [1; 5]%Q)].

(** ** math_util.go: [minimizeUnary]; features.go: [PolynomialHeuristic.minimize] *)

(** [math.Phi] as the float32 divisor of [(maxX-minX)/math.Phi]. *)
Definition Phi32 : Q := 13573053 # 8388608.

(** [minimizeUnary] (math_util.go, lines 10-40): golden section search;
    [midValue1], [midValue2] are the cached values ([nil] is [None]). *)
Fixpoint minimizeUnary_loop (f : Q → Q) (n : nat) (minX maxX : Q)
    (midValue1 midValue2 : option Q) : Q :=
  match n with
  | O => ((minX + maxX) / 2)%Q
  | S n' =>
      let mid1 := (maxX - (maxX - minX) / Phi32)%Q in
      let mid2 := (minX + (maxX - minX) / Phi32)%Q in
      let v1 := match midValue1 with Some v => v | None => f mid1 end in
      let v2 := match midValue2 with Some v => v | None => f mid2 end in
      if negb (Qle_bool v1 v2) then minimizeUnary_loop f n' mid1 maxX (Some v2) None
      else minimizeUnary_loop f n' minX mid2 None (Some v1)
  end.

Definition minimizeUnary (minX maxX : Q) (iters : Z) (f : Q → Q) : Q :=
  minimizeUnary_loop f (Z.to_nat iters) minX maxX None None.

(** [Sigmoid.LossPolynomialSize], the only [PolynomialLossFunc]. *)
Definition Sigmoid_LossPolynomialSize : nat := 10.

Record PolynomialHeuristic := mkPolynomialHeuristic { MaxDelta : Q }.

(** The loop of [PolynomialHeuristic.minimize] (features.go, lines 175-181)
    from polynomial [i]: [polys[idx : idx+size]] panics past the end. *)
Fixpoint ph_minimize_loop (delta : Q) (polys : list Q) (n i : nat) (y : Q)
    : option (list Q * Q) :=
  match n with
  | O => Some ([], y)
  | S n' =>
      let size := Sigmoid_LossPolynomialSize in
      let idx := (i * size)%nat in
      poly ← (if (idx + size <=? length polys)%nat
              then Some (take size (drop idx polys)) else None);
      let x := minimizeUnary (- delta) delta 30 (Polynomial_Apply poly) in
      '(xs, y') ← ph_minimize_loop delta polys n' (S i) (y + Polynomial_Apply poly x)%Q;
      Some (x :: xs, y')
  end.

(** [PolynomialHeuristic.minimize] (features.go, lines 168-183). *)
Definition PolynomialHeuristic_minimize (p : PolynomialHeuristic) (polys : list Q)
    : option (list Q * Q) :=
  let delta := if Qeq_bool (MaxDelta p) 0 then 1%Q else MaxDelta p in
  ph_minimize_loop delta polys (length polys / Sigmoid_LossPolynomialSize) 0 0.

Definition PolynomialHeuristic_Quality (p : PolynomialHeuristic) (sum : list Q) : option Q :=
  r ← PolynomialHeuristic_minimize p sum; Some (- snd r)%Q.

Definition PolynomialHeuristic_LeafOutput (p : PolynomialHeuristic) (sum : list Q)
    : option (list Q) :=
  r ← PolynomialHeuristic_minimize p sum; Some (fst r).

(** ** Sums of float32 accumulation loops *)

(** [f start + f (start+1) + ... + f (start+n-1)], the exact value of a
    float32 accumulation loop. *)
Fixpoint Qsum (f : nat → Q) (start n : nat) : Q :=
  match n with O => 0%Q | S n' => (f start + Qsum f (S start) n')%Q end.

(** A Hessian whose [Data] holds [c] times the identity, row by row. *)
Definition scaled_identity (h : Hessian) (c : Q) : Prop :=
  (Dim h * Dim h <= length (Data h))%nat ∧
  ∀ i j, (i < Dim h)%nat → (j < Dim h)%nat →
    ∃ a, Data h !! (i * Dim h + j)%nat = Some a ∧ Qeq a (if decide (i = j) then c else 0%Q).

(** ** steps.go: [AvgLossDelta] (lines 161-189)

    The loss is the [LossFunc] interface's [Loss] method, passed in as a
    function that may panic.  Trees are those of part_012 ([UTree]). *)

Section StepDefs.
Local Open Scope Q_scope.

(** [addDelta] (part_008, lines 50-56): ranges over [v1], reading [v2[i]]. *)
Definition addDelta (v1 v2 : list Q) (scale : Q) : option (list Q) :=
  zip_index (λ x y, x + y * scale) v1 v2.

(** The body of the worker loop for one timestep (lines 175-179). *)
Definition sample_loss_delta (loss : list Q → list Q → option Q) (st : LeafStore)
    (t : UTree) (step : Q) (ts : TimestepSample) : option Q :=
  leaf ← UTree_Evaluate ts t;
  lf ← st !! leaf;
  tsp ← TimestepSample_Timestep ts;
  oldLoss ← loss (Output tsp) (Target tsp);
  newOut ← addDelta (Output tsp) (OutputDelta lf) step;
  newLoss ← loss newOut (Target tsp);
  Some (newLoss - oldLoss).

(** Worker [i] (lines 169-183): [for j, ts := range timesteps], skipping
    [j % numProcs != i], Kahan-summing [newLoss - oldLoss]. *)
Fixpoint avg_worker_loop (loss : list Q → list Q → option Q) (st : LeafStore)
    (t : UTree) (step : Q) (numProcs i j : nat) (tss : list TimestepSample)
    (k : kahanSum) : option kahanSum :=
  match tss with
  | [] => Some k
  | ts :: rest =>
      if negb (Nat.eqb (j mod numProcs) i)
      then avg_worker_loop loss st t step numProcs i (S j) rest k
      else d ← sample_loss_delta loss st t step ts;
           k' ← kahanSum_Add k [d];
           avg_worker_loop loss st t step numProcs i (S j) rest k'
  end.

(** [deltaTotal.Sum()[0]] of worker [i]. *)
Definition avg_worker (loss : list Q → list Q → option Q) (st : LeafStore)
    (t : UTree) (step : Q) (numProcs : nat) (tss : list TimestepSample) (i : nat)
    : option Q :=
  k ← avg_worker_loop loss st t step numProcs i 0 tss (newKahanSum 1);
  ksum k !! 0%nat.

(** [AvgLossDelta]: [numProcs] is [runtime.GOMAXPROCS(0)]; the workers
    add their partial sums to [currentDelta] under the lock in the order
    [ord] in which they take it; a panic in any worker ends the program.
    For an empty [timesteps] Go computes [0/0] (NaN) where [Qdiv] gives 0. *)
Definition AvgLossDelta (loss : list Q → list Q → option Q) (st : LeafStore)
    (t : UTree) (step : Q) (numProcs : nat) (ord : list nat)
    (tss : list TimestepSample) : option Q :=
  parts ← mapM (avg_worker loss st t step numProcs tss) ord;
  Some (float_sum parts / inject_Z (Z.of_nat (length tss))).

End StepDefs.

(** ** heuristic.go (lines 303-341): [featureSplitQuality] of the older
    package version, whose timesteps hold [Features []bool] and a
    [Gradient] (math_util.go, lines 316-355). *)

Module OldSeq.

Record Timestep := mkTimestep {
  Features : list bool; Output : list Q; Target : list Q; Gradient : list Q
}.

Record TimestepSample := mkTimestepSample { Sequence : list Timestep; Index : Z }.

(** [TimestepSample.BranchFeature] (math_util.go, lines 341-350). *)
Definition TimestepSample_BranchFeature (t : TimestepSample) (b : BranchFeature)
    : option bool :=
  if StepsInPast b >? Index t then Some (Feature b =? -1)
  else if Feature b =? -1 then Some false
  else ts ← slice_get (Sequence t) (Index t - StepsInPast b);
       slice_get (Features ts) (Feature b).

Definition TimestepSample_Timestep (t : TimestepSample) : option Timestep :=
  slice_get (Sequence t) (Index t).

(** [for j, x := range g { acc[j] += x }]: panics when [g] is longer. *)
Fixpoint add_into (acc g : list Q) : option (list Q) :=
  match g, acc with
  | [], _ => Some acc
  | x :: g', a :: acc' => r ← add_into acc' g'; Some ((a + x)%Q :: r)
  | _ :: _, [] => None
  end.

(** [falseCount], [trueCount] of the feature values. *)
Fixpoint count_values (vals : list bool) : nat * nat :=
  match vals with
  | [] => (0, 0)%nat
  | v :: vals' =>
      let '(f, t) := count_values vals' in if v then (f, S t) else (S f, t)
  end.

(** The [minoritySum] loop: the gradients of the samples whose value is
    [m] ([trueCount < falseCount]). *)
Fixpoint minority_loop (m : bool) (vals : list bool) (tss : list TimestepSample)
    (acc : list Q) : option (list Q) :=
  match vals, tss with
  | [], _ => Some acc
  | v :: vals', t :: tss' =>
      if Bool.eqb v m
      then ts ← TimestepSample_Timestep t; acc' ← add_into acc (Gradient ts);
           minority_loop m vals' tss' acc'
      else minority_loop m vals' tss' acc
  | _ :: _, [] => None
  end.

Definition featureSplitQuality (tss : list TimestepSample) (f : BranchFeature)
    (sum : list Q) : option Q :=
  vals ← mapM (λ t, TimestepSample_BranchFeature t f) tss;
  let '(falseCount, trueCount) := count_values vals in
  if orb (Nat.eqb falseCount 0) (Nat.eqb trueCount 0) then Some 0%Q
  else
    minoritySum ← minority_loop (Nat.ltb trueCount falseCount) vals tss
                    (repeat 0%Q (length sum));
    majoritySum ← zip_index Qminus sum minoritySum;
    let minorityCount := Nat.min falseCount trueCount in
    let majorityCount := Nat.max falseCount trueCount in
    Some (vectorNormSquared minoritySum / inject_Z (Z.of_nat minorityCount) +
          vectorNormSquared majoritySum / inject_Z (Z.of_nat majorityCount))%Q.

End OldSeq.

(** [Leaf] [b] is [a] with its [OutputDelta] multiplied by [c]. *)
Definition leaf_scaled (c : Q) (a b : Leaf) : Prop :=
  LeafFeature b = LeafFeature a ∧
  Forall2 (λ y x, (y == x * c)%Q) (OutputDelta b) (OutputDelta a).

(** ** newPolynomialLogSigmoid (math_types.go, lines 62-124) in float64

    The values of [F32] (exact finite values, signed zero, infinities,
    NaN), each operation followed by overflow: a finite result beyond the
    largest finite float becomes an infinity (rounding is not modelled).
    [math.Exp] and [math.Log] are parameters [exp64] and [log64]. *)
Module LogSigmoid.
Import F32.
Local Open Scope Q_scope.

Definition MaxFloat64 : Q := inject_Z ((2 ^ 53 - 1) * 2 ^ 971).
Definition MaxFloat32 : Q := inject_Z ((2 ^ 24 - 1) * 2 ^ 104).

Definition overflow (max : Q) (x : float) : float :=
  match x with
  | Fin q => if Qle_bool (- max) q && Qle_bool q max then x else Inf (negb (Qle_bool 0 q))
  | _ => x
  end.

Definition fmul64 (a b : float) : float := overflow MaxFloat64 (fmul a b).
Definition fdiv64 (a b : float) : float := overflow MaxFloat64 (fdiv a b).
Definition fadd64 (a b : float) : float := overflow MaxFloat64 (fadd a b).

Definition fneg (a : float) : float :=
  match a with
  | Fin q => if Qeq_bool q 0 then NegZero else Fin (- q)
  | NegZero => Fin 0
  | Inf n => Inf (negb n)
  | NaN => NaN
  end.

Definition fsub64 (a b : float) : float := fadd64 a (fneg b).

(** [math.IsInf(f, 1)] and [math.IsNaN(f)]. *)
Definition is_posinf (x : float) : bool := match x with Inf false => true | _ => false end.
Definition is_nan (x : float) : bool := match x with NaN => true | _ => false end.

(** [float32(x)] of a float64: overflow only. *)
Definition to_f32 (x : float) : float := overflow MaxFloat32 x.

(** The coefficients of degree 1 to 9 of [res64], from [exp]. *)
Definition coeffs64 (exp : float) : list float :=
  let c (q : Q) := Fin q in
  let exp2 := fmul64 exp exp in
  let exp3 := fmul64 exp2 exp in
  let exp4 := fmul64 exp2 exp2 in
  let exp5 := fmul64 exp3 exp2 in
  let exp6 := fmul64 exp3 exp3 in
  let exp7 := fmul64 exp4 exp3 in
  let expP := fadd64 exp (c 1) in
  let expP2 := fmul64 expP expP in
  let expP3 := fmul64 expP2 expP in
  let expP4 := fmul64 expP2 expP2 in
  let expP5 := fmul64 expP4 expP in
  let expP6 := fmul64 expP3 expP3 in
  let expP7 := fmul64 expP4 expP3 in
  let expP8 := fmul64 expP4 expP4 in
  let expP9 := fmul64 expP5 expP4 in
  [ fdiv64 (c 1) (fadd64 exp (c 1));
    fdiv64 (fmul64 (c (-1 # 2)) exp) expP2;
    fdiv64 (fmul64 (fmul64 (c (1 # 6)) exp) (fsub64 exp (c 1))) expP3;
    fdiv64 (fmul64 (fmul64 (c (-1 # 24)) exp)
      (fadd64 (fadd64 (fmul64 (c (-4)) exp) exp2) (c 1))) expP4;
    fdiv64 (fmul64 (fmul64 (c (1 # 120)) exp)
      (fsub64 (fadd64 (fsub64 (fmul64 (c 11) exp) (fmul64 (c 11) exp2)) exp3) (c 1))) expP5;
    fdiv64 (fmul64 (fmul64 (c (-1 # 720)) exp)
      (fadd64 (fadd64 (fsub64 (fadd64 (fmul64 (c (-26)) exp) (fmul64 (c 66) exp2))
        (fmul64 (c 26) exp3)) exp4) (c 1))) expP6;
    fdiv64 (fmul64 (fmul64 (c (1 # 5040)) exp)
      (fsub64 (fadd64 (fsub64 (fadd64 (fsub64 (fmul64 (c 57) exp) (fmul64 (c 302) exp2))
        (fmul64 (c 302) exp3)) (fmul64 (c 57) exp4)) exp5) (c 1))) expP7;
    fdiv64 (fmul64 (fmul64 (c (-1 # 40320)) exp)
      (fadd64 (fadd64 (fsub64 (fadd64 (fsub64 (fadd64 (fmul64 (c (-120)) exp)
        (fmul64 (c 1191) exp2)) (fmul64 (c 2416) exp3)) (fmul64 (c 1191) exp4))
        (fmul64 (c 120) exp5)) exp6) (c 1))) expP8;
    fdiv64 (fmul64 (fmul64 (c (1 # 362880)) exp)
      (fsub64 (fadd64 (fsub64 (fadd64 (fsub64 (fadd64 (fsub64 (fmul64 (c 247) exp)
        (fmul64 (c 4293) exp2)) (fmul64 (c 15619) exp3)) (fmul64 (c 15619) exp4))
        (fmul64 (c 4293) exp5)) (fmul64 (c 247) exp6)) exp7) (c 1))) expP9 ].

(** The clamp: [exp] is checked first, [invExp] only when [exp] is finite. *)
Definition clamp_exps (exp invExp : float) : float * float :=
  if is_posinf exp then (Fin (inject_Z (2 ^ 32)), invExp)
  else if is_posinf invExp then (exp, Fin (inject_Z (2 ^ 32)))
  else (exp, invExp).

(** [res64] for the float32 input [x]. *)
Definition res64 (exp64 : Q → float) (log64 : float → float) (x : Q) : list float :=
  let '(exp, invExp) := clamp_exps (exp64 x) (exp64 (- x)) in
  let logValue :=
    if negb (Qle_bool x (-22)) then log64 (fdiv64 (Fin 1) (fadd64 (Fin 1) invExp)) else Fin x in
  logValue :: coeffs64 exp.

(** [res]: zeroed by [make]; a NaN entry is skipped, others converted. *)
Definition nan_to_zero (x : float) : float := if is_nan x then Fin 0 else to_f32 x.

Definition newPolynomialLogSigmoid (exp64 : Q → float) (log64 : float → float) (x : Q)
    : list float :=
  map nan_to_zero (res64 exp64 log64 x).

End LogSigmoid.

(** A stand-in for [math.Exp] with its overflow threshold (finite up to
    709, [+Inf] above) and one for [math.Log]. *)
Definition ex_exp64 (y : Q) : F32.float :=
  if Qle_bool y 709 then F32.Fin 1 else F32.Inf false.
Definition ex_log64 (x : F32.float) : F32.float := F32.Fin 0.

(* ===================================================================== *)
(** * Properties *)
(* ===================================================================== *)

(** ** Tree.Scale, Tree.NumFeatures and Model.Add *)

Section TreeStore.
Context {F : Type}.

Lemma Tree_Scale_spec (s : Q) (t : tree F) (st : LeafStore) :
  NoDup (leaf_ptrs t) →
  (∀ l, l ∈ leaf_ptrs t → is_Some (st !! l)) →
  ∃ st', Tree_Scale st t s = Some st' ∧
    ∀ l, st' !! l = if decide (l ∈ leaf_ptrs t) then scale_leaf s <$> st !! l
                    else st !! l.
Proof.
  revert st. induction t as [n l | n f fb IHfb tb IHtb]; intros st Hnd Hin; simpl in *.
  - destruct (Hin l) as [lf Hlf]; [set_solver|]. rewrite Hlf. simpl.
    eexists; split; [reflexivity|]. intros l'.
    destruct (decide (l' = l)) as [->|Hne].
    + rewrite lookup_insert_eq, decide_True by set_solver. by rewrite Hlf.
    + rewrite lookup_insert_ne by congruence. rewrite decide_False by set_solver. done.
  - apply NoDup_app in Hnd as (Hfb & Hdisj & Htb).
    destruct (IHfb st) as (st1 & Hs1 & Hst1); [done| set_solver |].
    rewrite Hs1. simpl.
    destruct (IHtb st1) as (st2 & Hs2 & Hst2); [done| |].
    { intros l Hl. rewrite Hst1. rewrite decide_False.
      - apply Hin. set_solver.
      - intros Hl'. by apply (Hdisj l). }
    rewrite Hs2. eexists; split; [reflexivity|]. intros l.
    rewrite Hst2, Hst1.
    destruct (decide (l ∈ leaf_ptrs tb)) as [Htl|Htl];
      destruct (decide (l ∈ leaf_ptrs fb)) as [Hfl|Hfl].
    + exfalso. by apply (Hdisj l).
    + rewrite decide_True by set_solver. done.
    + rewrite decide_True by set_solver. done.
    + rewrite decide_False by set_solver. done.
Qed.

Lemma Tree_NumFeatures_ext (t : tree F) (st st' : LeafStore) :
  (∀ l, l ∈ leaf_ptrs t → LeafFeature <$> st' !! l = LeafFeature <$> st !! l) →
  Tree_NumFeatures st' t = Tree_NumFeatures st t.
Proof.
  induction t as [n l | n f fb IHfb tb IHtb]; intros H; simpl in *.
  - specialize (H l ltac:(set_solver)).
    destruct (st' !! l), (st !! l); simpl in *; try discriminate; [|done].
    injection H as ->. done.
  - rewrite IHfb, IHtb by (intros; apply H; set_solver). done.
Qed.

End TreeStore.

(** ** Model.Evaluate on a linked sequence *)

Module LinkedFacts.
Import Linked LinkedRel.

Lemma slice_get_Some {A} (l : list A) (i : Z) (x : A) :
  slice_get l i = Some x ↔ (0 <= i)%Z ∧ l !! Z.to_nat i = Some x.
Proof.
  unfold slice_get. destruct (0 <=? i)%Z eqn:E1; simpl.
  - destruct (i <? Z.of_nat (length l))%Z eqn:E2.
    + apply Z.leb_le in E1. naive_solver.
    + apply Z.ltb_ge in E2. split; [done|]. intros [_ H].
      apply lookup_lt_Some in H. lia.
  - apply Z.leb_gt in E1. split; [done|]. intros [? _]; lia.
Qed.

Lemma slice_get_None_iff {A B} (l : list A) (l' : list B) (i : Z) :
  length l = length l' → (slice_get l i = None ↔ slice_get l' i = None).
Proof. intros H. unfold slice_get. rewrite H.
  destruct (_ && _) eqn:E; [|done].
  apply andb_true_iff in E as [E1 E2]. apply Z.ltb_lt in E2.
  rewrite !lookup_ge_None. lia.
Qed.

Lemma slice_get_zip_orb (a g : list bool) (f : Z) :
  length a = length g →
  slice_get (zip_with orb a g) f =
    (x ← slice_get a f; y ← slice_get g f; Some (x || y)).
Proof.
  intros Hl. unfold slice_get. rewrite length_zip_with, Hl, Nat.min_id.
  destruct (_ && _) eqn:E; [|done].
  apply andb_true_iff in E as [E1 E2]. apply Z.leb_le in E1. apply Z.ltb_lt in E2.
  rewrite lookup_zip_with.
  destruct (a !! Z.to_nat f) eqn:Ea; [|apply lookup_ge_None in Ea; lia].
  destruct (g !! Z.to_nat f) eqn:Eg; [|apply lookup_ge_None in Eg; lia]. done.
Qed.

Lemma insert_zip_orb (a g : list bool) (i : nat) :
  length a = length g →
  <[i := true]> (zip_with orb a g) = zip_with orb (<[i := true]> a) g.
Proof.
  revert g i. induction a as [|x a IH]; intros [|y g] i Hl; simpl in *; try done.
  destruct i; simpl; [done|]. rewrite IH by lia. done.
Qed.

Lemma zip_orb_idem (a : list bool) : zip_with orb a a = a.
Proof. induction a as [|x a IH]; simpl; [done|]. rewrite IH, orb_diag. done. Qed.

Lemma Axpy_spec (x y y' : list Q) :
  Axpy (length y) x y = Some y' →
  y' = zip_with (fun yi xi => yi + 1 * xi)%Q y x ∧ (length y <= length x)%nat.
Proof.
  unfold Axpy. destruct (length y =? 0)%nat eqn:E.
  - apply Nat.eqb_eq in E. destruct y; [|done]. intros [= <-]. simpl; split; [done|lia].
  - destruct (length x <? length y)%nat eqn:E2; [done|]. intros [= <-].
    apply Nat.ltb_ge in E2. done.
Qed.

Lemma Forall2_Qeq_axpy (o1 o2 og d : list Q) :
  Forall2 Qeq o2 (zip_with Qplus o1 og) →
  length o1 = length og → (length o1 <= length d)%nat →
  Forall2 Qeq (zip_with (fun yi xi => yi + 1 * xi)%Q o2 d)
              (zip_with Qplus (zip_with (fun yi xi => yi + 1 * xi)%Q o1 d) og).
Proof.
  revert o2 og d. induction o1 as [|x o1 IH]; intros o2 og d H Hl Hd.
  - simpl in *. inversion H; subst. constructor.
  - destruct og as [|g og]; [done|]. destruct d as [|e d]; simpl in *; [lia|].
    inversion H as [|y ? o2' ? Hy Ho]; subst. simpl. constructor.
    + rewrite Hy. ring.
    + apply IH; [done|lia|lia].
Qed.

Lemma Forall2_Qeq_axpy_length (o d : list Q) :
  (length o <= length d)%nat →
  length (zip_with (fun yi xi => yi + 1 * xi)%Q o d) = length o.
Proof. intros. rewrite length_zip_with. lia. Qed.

Lemma Tree_Evaluate_leaf (s : list Timestep) (p : nat) (t : Tree) (l : nat) :
  Tree_Evaluate s p t = Some l → l ∈ leaf_ptrs t.
Proof.
  induction t as [n l' | n f fb IHfb tb IHtb]; simpl.
  - intros [= ->]. set_solver.
  - destruct (Timestep_BranchFeature s p f) as [[]|]; intros H; [| |done].
    + specialize (IHtb H). set_solver.
    + specialize (IHfb H). set_solver.
Qed.

Lemma agree_on_sub (fs fs' : list Z) (s s' : list Timestep) :
  fs' ⊆ fs → agree_on fs s s' → agree_on fs' s s'.
Proof. intros Hsub [Hl H]. split; [done|]. intros p a b Ha Hb f Hf. apply (H p); set_solver. Qed.

Lemma slice_get_same_length {A B} (l : list A) (l' : list B) (i : Z) (x : A) :
  length l = length l' → slice_get l i = Some x → ∃ y, slice_get l' i = Some y.
Proof.
  intros Hl Hx. destruct (slice_get l' i) eqn:E; [eauto|].
  apply (slice_get_None_iff l l' i Hl) in E. congruence.
Qed.

Lemma Tree_Evaluate_agree (s s' : list Timestep) (p : nat) (t : Tree) :
  agree_on (tested_features t) s s' → Tree_Evaluate s p t = Tree_Evaluate s' p t.
Proof.
  induction t as [n l | n f fb IHfb tb IHtb]; intros Hag; simpl; [done|].
  assert (Hbf : Timestep_BranchFeature s p f = Timestep_BranchFeature s' p f).
  { destruct Hag as [Hl Hag]. unfold Timestep_BranchFeature.
    destruct (_ <? 0)%Z; [done|].
    destruct (slice_get s _) as [a|] eqn:Ea.
    - destruct (slice_get_same_length s s' _ a Hl Ea) as [b Eb]. rewrite Eb. simpl.
      apply slice_get_Some in Ea as [_ Ea]. apply slice_get_Some in Eb as [_ Eb].
      apply (Hag _ a b Ea Eb). simpl. set_solver.
    - apply (slice_get_None_iff s s' _ Hl) in Ea. rewrite Ea. done. }
  rewrite Hbf. destruct (Timestep_BranchFeature s' p f) as [[]|]; [| |done].
  - apply IHtb. eapply agree_on_sub; [|done]. simpl. set_solver.
  - apply IHfb. eapply agree_on_sub; [|done]. simpl. set_solver.
Qed.

Lemma set_features_leaf (st : LeafStore) (t : Tree) (l : nat) (lf : Leaf) :
  l ∈ leaf_ptrs t → st !! l = Some lf → LeafFeature lf ≠ 0%Z →
  LeafFeature lf ∈ set_features st t.
Proof.
  induction t as [n l' | n f fb IHfb tb IHtb]; simpl; intros Hl Hlf Hnz.
  - assert (l = l') as <- by set_solver. rewrite Hlf.
    destruct (LeafFeature lf =? 0)%Z eqn:E; [apply Z.eqb_eq in E; done|]. set_solver.
  - apply elem_of_app in Hl as [Hl|Hl]; apply elem_of_app; [left|right]; auto.
Qed.

Lemma eval_at_inv (st : LeafStore) (t : Tree) (s s' : list Timestep) (p : nat) :
  eval_at st t s p = Some s' →
  ∃ l lf ts out feats,
    Tree_Evaluate s p t = Some l ∧ st !! l = Some lf ∧ s !! p = Some ts ∧
    Axpy (length (Output ts)) (OutputDelta lf) (Output ts) = Some out ∧
    set_leaf_feature lf (Features ts) = Some feats ∧
    s' = <[p := mkTimestep feats out]> s.
Proof.
  unfold eval_at.
  destruct (Tree_Evaluate s p t) as [l|] eqn:E1; simpl; [|done].
  destruct (st !! l) as [lf|] eqn:E2; simpl; [|done].
  destruct (s !! p) as [ts|] eqn:E3; simpl; [|done].
  destruct (Axpy _ _ _) as [out|] eqn:E4; simpl; [|done].
  destruct (set_leaf_feature lf (Features ts)) as [feats|] eqn:Ef; simpl; [|done].
  intros [= <-]. by exists l, lf, ts, out, feats.
Qed.

Lemma set_leaf_feature_spec (lf : Leaf) (fs fs' : list bool) :
  set_leaf_feature lf fs = Some fs' →
  length fs' = length fs ∧
  fs' = zip_with orb fs fs' ∧
  (∀ f, (LeafFeature lf = 0 ∨ f ≠ LeafFeature lf)%Z →
        slice_get fs' f = slice_get fs f).
Proof.
  unfold set_leaf_feature. destruct (LeafFeature lf =? 0)%Z eqn:E.
  - intros [= <-]. rewrite zip_orb_idem. done.
  - destruct (slice_get fs _) eqn:Eg; [|done]. intros [= <-]. simpl.
    apply slice_get_Some in Eg as [Hge Hlk]. apply Z.eqb_neq in E.
    split; [apply length_insert|]. split.
    + clear. revert fs. induction (Z.to_nat (LeafFeature lf)) as [|i IH];
        intros [|x fs]; simpl; try done.
      * rewrite orb_true_r, zip_orb_idem. done.
      * rewrite orb_diag, <- IH. done.
    + intros f [Hf|Hf]; [lia|]. unfold slice_get. rewrite length_insert.
      destruct (_ && _) eqn:Eb; [|done].
      apply andb_true_iff in Eb as [Eb _]. apply Z.leb_le in Eb.
      rewrite list_lookup_insert_ne; [done|lia].
Qed.

Lemma eval_at_frame (st : LeafStore) (t : Tree) (s s' : list Timestep) (p : nat) :
  eval_at st t s p = Some s' →
  unchanged_except (set_features st t) s s' ∧ grows s s'.
Proof.
  intros H. apply eval_at_inv in H as (l & lf & ts & out & feats & Hev & Hlf & Hts & Hax & Hf & ->).
  apply Axpy_spec in Hax as [-> Hlen].
  destruct (set_leaf_feature_spec lf _ _ Hf) as (Hfl & Hfo & Hfg).
  pose proof (Tree_Evaluate_leaf _ _ _ _ Hev) as Hin.
  split; split; try by rewrite length_insert.
  - intros q a b Ha Hb f Hnot.
    destruct (decide (q = p)) as [->|Hne].
    + rewrite list_lookup_insert_eq in Hb by (eapply lookup_lt_Some; eauto).
      injection Hb as <-. rewrite Ha in Hts. injection Hts as ->. simpl.
      rewrite Hfg; [done|].
      destruct (decide (LeafFeature lf = 0%Z)) as [E|E]; [by left|right].
      intros ->. apply Hnot. by apply (set_features_leaf st t l).
    + rewrite list_lookup_insert_ne in Hb by done. congruence.
  - intros q a b Ha Hb.
    destruct (decide (q = p)) as [->|Hne].
    + rewrite list_lookup_insert_eq in Hb by (eapply lookup_lt_Some; eauto).
      injection Hb as <-. rewrite Ha in Hts. injection Hts as ->. simpl.
      rewrite length_zip_with. split; [done|]. split; [done|]. lia.
    + rewrite list_lookup_insert_ne in Hb by done. rewrite Ha in Hb. injection Hb as <-.
      rewrite zip_orb_idem. done.
Qed.

Lemma Axpy_same_length (x y y2 y' : list Q) :
  length y = length y2 → Axpy (length y) x y = Some y' →
  ∃ y2', Axpy (length y2) x y2 = Some y2'.
Proof.
  intros Hl. unfold Axpy. rewrite Hl.
  destruct (length y2 =? 0)%nat; [eauto|].
  destruct (length x <? length y2)%nat; [done|eauto].
Qed.

Lemma seq_sum_lookup (s1 g s2 : list Timestep) (p : nat) (a : Timestep) :
  seq_sum s1 g s2 → s1 !! p = Some a →
  ∃ b c, g !! p = Some b ∧ s2 !! p = Some c ∧ ts_sum a b c.
Proof.
  intros (Hl1 & Hl2 & H) Ha.
  pose proof (lookup_lt_Some _ _ _ Ha) as Hp.
  destruct (lookup_lt_is_Some_2 g p) as [b Hb]; [lia|].
  destruct (lookup_lt_is_Some_2 s2 p) as [c Hc]; [lia|].
  exists b, c. eauto.
Qed.

Lemma eval_at_sum (st : LeafStore) (t : Tree) (s1 g s2 s1' : list Timestep) (p : nat) :
  seq_sum s1 g s2 →
  Tree_Evaluate s1 p t = Tree_Evaluate s2 p t →
  eval_at st t s1 p = Some s1' →
  ∃ s2', eval_at st t s2 p = Some s2' ∧ seq_sum s1' g s2'.
Proof.
  intros Hsum Hroute H. apply eval_at_inv in H as (l & lf & ts & out & feats & Hev & Hlf & Hts & Hax & Hf & ->).
  destruct (seq_sum_lookup _ _ _ _ _ Hsum Hts) as (b & c & Hb & Hc & Hfl & Hfe & Hol & Hoe).
  assert (Hlc : length (Output ts) = length (Output c)).
  { apply Forall2_length in Hoe. rewrite Hoe, length_zip_with. lia. }
  destruct (Axpy_same_length _ _ _ _ Hlc Hax) as [out2 Hax2].
  apply Axpy_spec in Hax as [-> Hlen]. apply Axpy_spec in Hax2 as [-> _].
  assert (Hfeat : ∃ feats2, set_leaf_feature lf (Features c) = Some feats2 ∧
                    feats2 = zip_with orb feats (Features b) ∧
                    length feats = length (Features b)).
  { unfold set_leaf_feature in *. rewrite Hfe.
    destruct (LeafFeature lf =? 0)%Z.
    - injection Hf as <-. eauto.
    - destruct (slice_get (Features ts) _) as [x|] eqn:Ex; [|done].
      injection Hf as <-.
      rewrite slice_get_zip_orb, Ex by done. simpl.
      apply slice_get_Some in Ex as [Hge Ex].
      destruct (lookup_lt_is_Some_2 (Features b) (Z.to_nat (LeafFeature lf)))
        as [y Hy]; [apply lookup_lt_Some in Ex; lia|].
      assert (Hy' : slice_get (Features b) (LeafFeature lf) = Some y).
      { by apply slice_get_Some. }
      rewrite Hy'. simpl. eexists; split; [reflexivity|].
      rewrite insert_zip_orb by done. split; [done|]. by rewrite length_insert. }
  destruct Hfeat as (feats2 & Hf2 & Hf2e & Hf2l).
  exists (<[p := mkTimestep feats2 (zip_with (fun yi xi => yi + 1 * xi)%Q (Output c) (OutputDelta lf))]> s2).
  split.
  - unfold eval_at. rewrite <- Hroute, Hev. simpl. rewrite Hlf. simpl. rewrite Hc. simpl.
    unfold Axpy. destruct (length (Output c) =? 0)%nat eqn:E0.
    + apply Nat.eqb_eq in E0. destruct (Output c); [|done]. simpl. rewrite Hf2. done.
    + destruct (length (OutputDelta lf) <? length (Output c))%nat eqn:E1.
      * apply Nat.ltb_lt in E1. lia.
      * simpl. rewrite Hf2. done.
  - destruct Hsum as (Hl1 & Hl2 & Hsum). split; [by rewrite length_insert|].
    split; [by rewrite length_insert|].
    intros q a b' c' Ha Hb' Hc'.
    destruct (decide (q = p)) as [->|Hne].
    + rewrite list_lookup_insert_eq in Ha by (eapply lookup_lt_Some; eauto).
      rewrite list_lookup_insert_eq in Hc' by (eapply lookup_lt_Some; eauto).
      injection Ha as <-. injection Hc' as <-. rewrite Hb in Hb'. injection Hb' as <-.
      split; [done|]. split; [done|]. simpl.
      split; [rewrite length_zip_with; lia|].
      apply Forall2_Qeq_axpy; [done|done|lia].
    + rewrite list_lookup_insert_ne in Ha, Hc' by done. eauto.
Qed.

Lemma zip_orb_trans (a b c : list bool) :
  length a = length b → length b = length c →
  b = zip_with orb a b → c = zip_with orb b c → c = zip_with orb a c.
Proof.
  revert b c. induction a as [|x a IH]; intros [|y b] [|z c] Hab Hbc Hb Hc;
    simpl in *; try done.
  injection Hb as Hy Hb. injection Hc as Hz Hc. f_equal.
  - destruct x, y, z; simpl in *; congruence.
  - apply (IH b); [lia|lia|done|done].
Qed.

Lemma unchanged_except_trans (fs : list Z) (s1 s2 s3 : list Timestep) :
  unchanged_except fs s1 s2 → unchanged_except fs s2 s3 → unchanged_except fs s1 s3.
Proof.
  intros [Hl1 H1] [Hl2 H2]. split; [lia|]. intros p a c Ha Hc f Hf.
  destruct (lookup_lt_is_Some_2 s2 p) as [b Hb]; [apply lookup_lt_Some in Ha; lia|].
  rewrite (H1 p a b Ha Hb f Hf). eauto.
Qed.

Lemma unchanged_except_mono (fs fs' : list Z) (s1 s2 : list Timestep) :
  fs ⊆ fs' → unchanged_except fs s1 s2 → unchanged_except fs' s1 s2.
Proof. intros Hsub [Hl H]. split; [done|]. intros p a b Ha Hb f Hf. apply (H p); set_solver. Qed.

Lemma grows_refl (s : list Timestep) : grows s s.
Proof. split; [done|]. intros p a b Ha Hb. rewrite Ha in Hb. injection Hb as <-.
  rewrite zip_orb_idem. done. Qed.

Lemma grows_trans (s1 s2 s3 : list Timestep) : grows s1 s2 → grows s2 s3 → grows s1 s3.
Proof.
  intros [Hl1 H1] [Hl2 H2]. split; [lia|]. intros p a c Ha Hc.
  destruct (lookup_lt_is_Some_2 s2 p) as [b Hb]; [apply lookup_lt_Some in Ha; lia|].
  destruct (H1 p a b Ha Hb) as (Hab & Hfb & Hob).
  destruct (H2 p b c Hb Hc) as (Hbc & Hfc & Hoc).
  split; [lia|]. split; [|lia]. eapply zip_orb_trans; eauto.
Qed.

Lemma eval_positions_frame (st : LeafStore) (t : Tree) (ps : list nat) (s s' : list Timestep) :
  eval_positions st t ps s = Some s' →
  unchanged_except (set_features st t) s s' ∧ grows s s'.
Proof.
  revert s. induction ps as [|p ps IH]; intros s; simpl.
  - intros [= <-]. split; [|apply grows_refl]. split; [done|].
    intros p a b Ha Hb. rewrite Ha in Hb. by injection Hb as <-.
  - destruct (eval_at st t s p) as [s1|] eqn:E; simpl; [|done]. intros Hps.
    destruct (eval_at_frame _ _ _ _ _ E) as [U1 G1].
    destruct (IH _ Hps) as [U2 G2].
    split; [eapply unchanged_except_trans|eapply grows_trans]; eauto.
Qed.

Lemma eval_trees_frame (st : LeafStore) (ts : list Tree) (s s' : list Timestep) :
  eval_trees st ts s = Some s' →
  unchanged_except (concat (map (set_features st) ts)) s s' ∧ grows s s'.
Proof.
  revert s. induction ts as [|t ts IH]; intros s; simpl.
  - intros [= <-]. split; [|apply grows_refl]. split; [done|].
    intros p a b Ha Hb. rewrite Ha in Hb. by injection Hb as <-.
  - unfold eval_tree. destruct (eval_positions _ _ _ _) as [s1|] eqn:E; simpl; [|done].
    intros Hts. destruct (eval_positions_frame _ _ _ _ _ E) as [U1 G1].
    destruct (IH _ Hts) as [U2 G2]. split; [|eapply grows_trans; eauto].
    eapply unchanged_except_trans.
    + eapply unchanged_except_mono; [|exact U1]. set_solver.
    + eapply unchanged_except_mono; [|exact U2]. set_solver.
Qed.

Lemma eval_positions_sum (st : LeafStore) (t : Tree) (g : list Timestep) (ps : list nat) :
  (∀ f, f ∈ tested_features t → f ∉ set_features st t) →
  ∀ s1 s2 s1', eval_positions st t ps s1 = Some s1' →
  seq_sum s1 g s2 → agree_on (tested_features t) s1 g →
  ∃ s2', eval_positions st t ps s2 = Some s2' ∧ seq_sum s1' g s2'.
Proof.
  intros Hdisj. induction ps as [|p ps IH]; intros s1 s2 s1' Hev Hsum Hag; simpl in *.
  - injection Hev as <-. eauto.
  - destruct (eval_at st t s1 p) as [s1m|] eqn:E; simpl in Hev; [|done].
    assert (Hroute : Tree_Evaluate s1 p t = Tree_Evaluate s2 p t).
    { apply Tree_Evaluate_agree. destruct Hsum as (Hl1 & Hl2 & Hs).
      destruct Hag as [Hlg Hag]. split; [lia|].
      intros q a c Ha Hc f Hf.
      destruct (lookup_lt_is_Some_2 g q) as [b Hb]; [apply lookup_lt_Some in Ha; lia|].
      destruct (Hs q a b c Ha Hb Hc) as (Hfl & Hfe & _).
      rewrite Hfe, slice_get_zip_orb by done.
      rewrite <- (Hag q a b Ha Hb f Hf).
      destruct (slice_get (Features a) f) as [[]|]; done. }
    destruct (eval_at_sum _ _ _ _ _ _ _ Hsum Hroute E) as (s2m & E2 & Hsum2).
    rewrite E2. simpl. apply (IH s1m); [done|done|].
    destruct (eval_at_frame _ _ _ _ _ E) as [[Hlu U] _].
    destruct Hag as [Hlg Hag]. split; [lia|].
    intros q a b Ha Hb f Hf.
    destruct (lookup_lt_is_Some_2 s1 q) as [a0 Ha0]; [apply lookup_lt_Some in Ha; lia|].
    rewrite <- (U q a0 a Ha0 Ha f (Hdisj f Hf)). eauto.
Qed.

Lemma eval_trees_sum (st : LeafStore) (ts : list Tree) :
  Trees_WF st ts →
  ∀ s1 s2 g, eval_trees st ts s1 = Some g → seq_sum s1 g s2 →
  ∃ r, eval_trees st ts s2 = Some r ∧ seq_sum g g r.
Proof.
  induction ts as [|t ts IH]; intros Hwf s1 s2 g Hev Hsum; simpl in *.
  - injection Hev as <-. eauto.
  - destruct Hwf as [Ht Hwf].
    unfold eval_tree in *.
    destruct (eval_positions st t _ s1) as [r1|] eqn:E1; simpl in Hev; [|done].
    assert (Hag : agree_on (tested_features t) s1 g).
    { assert (Hfr : eval_trees st (t :: ts) s1 = Some g).
      { simpl. unfold eval_tree. rewrite E1. done. }
      destruct (eval_trees_frame _ _ _ _ Hfr) as [[Hl U] _].
      split; [done|]. intros p a b Ha Hb f Hf. apply (U p a b Ha Hb f).
      simpl. destruct (Ht f Hf) as [H1 H2]. rewrite elem_of_app. intros [Hin|Hin]; [done|].
      apply list_elem_of_In, in_concat in Hin as (l & Hlm & Hfl).
      apply in_map_iff in Hlm as (t' & <- & Ht'). apply (H2 t'); [by apply list_elem_of_In|].
      by apply list_elem_of_In. }
    assert (Hlen : length s2 = length s1) by (destruct Hsum as (? & ? & _); lia).
    destruct (eval_positions_sum st t g _ (λ f Hf, proj1 (Ht f Hf)) _ s2 _ E1 Hsum Hag)
      as (r2 & E2 & Hsum2).
    rewrite Hlen, E2. simpl. eapply IH; eauto.
Qed.

Lemma fresh_sum (os og : list Q) :
  Forall (λ x, x == 0)%Q os → length os = length og →
  Forall2 Qeq og (zip_with Qplus os og).
Proof.
  revert og. induction os as [|x os IH]; intros [|y og] H0 Hl; simpl in *; try done.
  inversion H0 as [|? ? Hx Hos]; subst. constructor.
  - rewrite Hx. ring.
  - apply IH; [done|lia].
Qed.

Lemma double_sum (o o' : list Q) :
  Forall2 Qeq o' (zip_with Qplus o o) → Forall2 Qeq o' (map (λ x, 2 * x)%Q o).
Proof.
  revert o'. induction o as [|x o IH]; intros [|y o'] H; simpl in *; inversion H; subst.
  - constructor.
  - constructor; [|by apply IH]. rewrite H3. ring.
Qed.

End LinkedFacts.

(** C4 (as the code has it).  [Model.Evaluate] is additive on outputs
    for models in which no tree tests a feature that it or a later tree
    sets: evaluating a fresh sequence (all outputs zero) a second time
    gives, at every timestep, the same features and exactly twice the
    outputs of the first evaluation (in exact arithmetic). *)
Theorem Model_Evaluate_twice_doubles (st : LeafStore) (m : Model)
    (s s1 : list Linked.Timestep) :
  Trees_WF st (Trees m) →
  (∀ p ts, s !! p = Some ts → Forall (λ x, x == 0)%Q (Linked.Output ts)) →
  Linked.Model_Evaluate st m s = Some s1 →
  ∃ s2, Linked.Model_Evaluate st m s1 = Some s2 ∧
    length s2 = length s1 ∧
    ∀ p a b, s1 !! p = Some a → s2 !! p = Some b →
      Linked.Features b = Linked.Features a ∧
      Forall2 Qeq (Linked.Output b) (map (λ x, 2 * x)%Q (Linked.Output a)).
Proof.
  intros Hwf Hfresh Hev. unfold Linked.Model_Evaluate in *.
  assert (Hsum : LinkedRel.seq_sum s s1 s1).
  { destruct (LinkedFacts.eval_trees_frame _ _ _ _ Hev) as [_ [Hl Hg]].
    split; [done|]. split; [done|]. intros p a b c Ha Hb Hc.
    rewrite Hb in Hc. injection Hc as <-.
    destruct (Hg p a b Ha Hb) as (Hfl & Hfe & Hol).
    split; [done|]. split; [done|]. split; [done|].
    apply LinkedFacts.fresh_sum; [by apply (Hfresh p)|done]. }
  destruct (LinkedFacts.eval_trees_sum _ _ Hwf _ _ _ Hev Hsum) as (s2 & E2 & (Hl1 & Hl2 & H2)).
  exists s2. split; [done|]. split; [done|].
  intros p a b Ha Hb. destruct (H2 p a a b Ha Ha Hb) as (_ & Hfe & _ & Hoe).
  split; [rewrite Hfe; apply LinkedFacts.zip_orb_idem|].
  by apply LinkedFacts.double_sum.
Qed.

Lemma Model_Evaluate_twice_doubles_witness :
  ∃ s1, Linked.Model_Evaluate ex_store_wf ex_model_wf ex_seq_wf = Some s1 ∧
  ∃ s2, Linked.Model_Evaluate ex_store_wf ex_model_wf s1 = Some s2 ∧
    length s2 = length s1 ∧
    ∀ p a b, s1 !! p = Some a → s2 !! p = Some b →
      Linked.Features b = Linked.Features a ∧
      Forall2 Qeq (Linked.Output b) (map (λ x, 2 * x)%Q (Linked.Output a)).
Proof.
  eexists. split; [vm_compute; reflexivity|].
  apply (Model_Evaluate_twice_doubles ex_store_wf ex_model_wf ex_seq_wf).
  - simpl. split; [|done]. intros f Hf.
    assert (f = 0%Z) as -> by set_solver.
    vm_compute. split; [set_solver|]. intros t' Ht'. set_solver.
  - intros p ts Hp. destruct p as [|[|p]]; simpl in Hp; try discriminate;
      injection Hp as <-; repeat constructor.
  - vm_compute. reflexivity.
Defined.

(** C4 (as stated, refuted).  With a tree that tests the feature its own
    leaf sets, a fresh sequence evaluated twice does not get doubled
    outputs: the second pass is routed to a different leaf. *)
Lemma Model_Evaluate_twice_not_doubled :
  ∃ (st : LeafStore) (m : Model) (s s1 s2 : list Linked.Timestep),
    (∀ p ts, s !! p = Some ts → Forall (λ x, x == 0)%Q (Linked.Output ts)) ∧
    Linked.Model_Evaluate st m s = Some s1 ∧
    Linked.Model_Evaluate st m s1 = Some s2 ∧
    ∃ p a b, s1 !! p = Some a ∧ s2 !! p = Some b ∧
      ¬ Forall2 Qeq (Linked.Output b) (map (λ x, 2 * x)%Q (Linked.Output a)).
Proof.
  exists ex_store_self, ex_model_self, ex_fresh_seq,
    [Linked.mkTimestep [false; true] [1%Q]],
    [Linked.mkTimestep [false; true] [1%Q]].
  split; [|split; [vm_compute; reflexivity|split; [vm_compute; reflexivity|]]].
  - intros p ts Hp. destruct p as [|p]; simpl in Hp; [|discriminate].
    injection Hp as <-. repeat constructor.
  - eexists 0%nat, _, _. split; [reflexivity|]. split; [reflexivity|].
    simpl. intros Hd.
    inversion Hd as [|x y l l' Hxy]; subst. vm_compute in Hxy. discriminate.
Qed.

(** ** TimestepSample.BranchFeature *)

(** C3. At index [i] with branch feature [(f, k)]: the sentinel [f = -1]
    tests [k > i]; a real feature ([f >= 0]) is false when [k > i], and
    otherwise is bit [f] of the bitmap of [sequence[i - k]]. *)
Theorem TimestepSample_BranchFeature_spec (t : TimestepSample) (b : BranchFeature) :
  (Feature b = -1 →
     TimestepSample_BranchFeature t b = Some (StepsInPast b >? Index t)) ∧
  (0 <= Feature b → StepsInPast b > Index t →
     TimestepSample_BranchFeature t b = Some false) ∧
  (0 <= Feature b → StepsInPast b <= Index t →
     TimestepSample_BranchFeature t b =
       (ts ← slice_get (Seq t) (Index t - StepsInPast b);
        Bitmap_Get (Features ts) (Feature b))).
Proof.
  unfold TimestepSample_BranchFeature. repeat split; intros Hf.
  - rewrite Hf. simpl.
    destruct (StepsInPast b >? Index t) eqn:E; [done|]. done.
  - intros Hk. rewrite Z.gtb_ltb, (proj2 (Z.ltb_lt _ _)) by lia.
    destruct (Feature b =? -1) eqn:E; [apply Z.eqb_eq in E; lia|done].
  - intros Hk. rewrite Z.gtb_ltb, (proj2 (Z.ltb_ge _ _)) by lia.
    destruct (Feature b =? -1) eqn:E; [apply Z.eqb_eq in E; lia|done].
Qed.

Lemma TimestepSample_BranchFeature_spec_witness :
  TimestepSample_BranchFeature (mkTimestepSample ex_seq 1) (mkBranchFeature 9 1)
    = Some true ∧
  TimestepSample_BranchFeature (mkTimestepSample ex_seq 1) (mkBranchFeature (-1) 2)
    = Some true.
Proof.
  pose proof (TimestepSample_BranchFeature_spec (mkTimestepSample ex_seq 1)
                (mkBranchFeature 9 1)) as (_ & _ & H).
  pose proof (TimestepSample_BranchFeature_spec (mkTimestepSample ex_seq 1)
                (mkBranchFeature (-1) 2)) as (H' & _ & _).
  split.
  - rewrite H by (simpl; lia). reflexivity.
  - rewrite H' by reflexivity. reflexivity.
Defined.

(** X12: the byte-level test of [Builder.evaluateFeature]
    ([BranchFeatureFast] with [byteIdx = Feature >> 3] and
    [bitMask = 1 << (Feature & 7)]) agrees with
    [TimestepSample.BranchFeature] for the sentinel feature [-1] and for
    every feature index inside the referenced timestep's bitmap. *)
Lemma evaluateFeature_fast_agrees (t : TimestepSample) (f : BranchFeature) :
  (Feature f = -1 ∨
   (0 <= Feature f ∧ ∀ ts, slice_get (Seq t) (Index t - StepsInPast f) = Some ts →
                           Feature f < numBits (Features ts))) →
  evaluateFeature_fast t f = TimestepSample_BranchFeature t f.
Proof.
  unfold evaluateFeature_fast, BranchFeatureFast, TimestepSample_BranchFeature.
  intros [Hf|[Hf Hin]].
  - rewrite Hf. simpl. done.
  - destruct (Feature f =? -1) eqn:E; [apply Z.eqb_eq in E; lia|].
    assert (Hs : (Z.shiftr (Feature f) 3 =? -1) = false).
    { apply Z.eqb_neq. pose proof (proj2 (Z.shiftr_nonneg (Feature f) 3) Hf). lia. }
    rewrite Hs.
    destruct (StepsInPast f >? Index t); [done|].
    destruct (slice_get (Seq t) _) as [ts|] eqn:Ets; simpl; [|done].
    specialize (Hin ts eq_refl). unfold Bitmap_Get.
    rewrite (proj2 (Z.ltb_ge _ _)), Z.geb_leb, (proj2 (Z.leb_gt _ _)) by lia. done.
Qed.

Lemma evaluateFeature_fast_agrees_witness :
  (Feature (mkBranchFeature 2 1) = -1 ∨
   (0 <= Feature (mkBranchFeature 2 1) ∧
    ∀ ts, slice_get (Seq (mkTimestepSample ex_seq 1)) (1 - 1) = Some ts →
          Feature (mkBranchFeature 2 1) < numBits (Features ts))) ∧
  evaluateFeature_fast (mkTimestepSample ex_seq 1) (mkBranchFeature 2 1)
  = TimestepSample_BranchFeature (mkTimestepSample ex_seq 1) (mkBranchFeature 2 1).
Proof.
  assert (H : Feature (mkBranchFeature 2 1) = -1 ∨
   (0 <= Feature (mkBranchFeature 2 1) ∧
    ∀ ts, slice_get (Seq (mkTimestepSample ex_seq 1)) (1 - 1) = Some ts →
          Feature (mkBranchFeature 2 1) < numBits (Features ts))).
  { right. split; [simpl; lia|]. intros ts E. vm_compute in E. injection E as <-.
    vm_compute. reflexivity. }
  split; [exact H|]. apply (evaluateFeature_fast_agrees _ _ H).
Defined.

(** ** Split heuristics: sums and qualities *)

Section HeuristicFacts.
Local Open Scope Q_scope.

Lemma vq_refl (l : list Q) : Forall2 Qeq l l.
Proof. induction l; constructor; [reflexivity|assumption]. Qed.

Lemma vq_sym (a b : list Q) : Forall2 Qeq a b → Forall2 Qeq b a.
Proof. induction 1; constructor; [symmetry|]; assumption. Qed.

Lemma vq_trans (a b c : list Q) :
  Forall2 Qeq a b → Forall2 Qeq b c → Forall2 Qeq a c.
Proof.
  intros H; revert c; induction H as [|x y a b Hxy Hab IH]; intros c Hbc;
    inversion Hbc; subst; constructor; [rewrite Hxy; assumption|auto].
Qed.

Lemma vq_length (a b : list Q) : Forall2 Qeq a b → length a = length b.
Proof. apply Forall2_length. Qed.

Lemma vector_add_cong (a a' b b' : list Q) :
  Forall2 Qeq a a' → Forall2 Qeq b b' →
  Forall2 Qeq (vector_add a b) (vector_add a' b').
Proof.
  intros Ha; revert b b'; induction Ha as [|x x' a a' Hx Ha IH];
    intros b b' Hb; [constructor|].
  inversion Hb as [|y y' b0 b0' Hy Hb0]; subst; simpl; [constructor|].
  constructor; [rewrite Hx, Hy; reflexivity|auto].
Qed.

Lemma vector_add_assoc (a b c : list Q) :
  Forall2 Qeq (vector_add (vector_add a b) c) (vector_add a (vector_add b c)).
Proof.
  revert b c; induction a as [|x a IH]; intros [|y b] [|z c]; simpl; try constructor.
  - ring.
  - apply IH.
Qed.

Lemma vector_add_zero_r (a : list Q) :
  Forall2 Qeq (vector_add a (repeat 0 (length a))) a.
Proof. induction a; simpl; constructor; [ring|assumption]. Qed.

Lemma vector_add_zero_l (a : list Q) :
  Forall2 Qeq (vector_add (repeat 0 (length a)) a) a.
Proof. induction a; simpl; constructor; [ring|assumption]. Qed.

Lemma length_vector_add (a b : list Q) :
  length a = length b → length (vector_add a b) = length a.
Proof. intros H. unfold vector_add. rewrite length_zip_with. lia. Qed.

Lemma kahan_add_loop_spec (sum comp a : list Q) :
  length a = length sum → length comp = length sum →
  Forall (λ c, c == 0) comp →
  ∃ ss cs, kahan_add_loop sum comp a = Some (ss, cs) ∧
    Forall2 Qeq ss (vector_add sum a) ∧ Forall (λ c, c == 0) cs ∧
    length ss = length sum ∧ length cs = length sum.
Proof.
  revert sum comp; induction a as [|n a IH]; intros [|s sum] [|c comp] Hl Hc Hz;
    simpl in *; try discriminate.
  - exists [], []. repeat split; constructor.
  - inversion Hz as [|? ? Hc0 Hz']; subst.
    destruct (IH sum comp) as (ss & cs & E & Hss & Hcs & Hl1 & Hl2); [lia|lia|done|].
    rewrite E. eexists _, _. split; [reflexivity|].
    split; [constructor; [rewrite Hc0; ring|exact Hss]|].
    split; [constructor; [rewrite Hc0; ring|exact Hcs]|].
    simpl; split; lia.
Qed.

Lemma kahanSum_AddAll_spec (d : nat) (vs : list (list Q)) (k : kahanSum) (acc : list Q) :
  Forall (λ v, length v = d) vs →
  length (ksum k) = d → length (compensation k) = d →
  Forall (λ c, c == 0) (compensation k) → Forall2 Qeq (ksum k) acc →
  ∃ k', kahanSum_AddAll k vs = Some k' ∧
    Forall2 Qeq (ksum k') (fold_left vector_add vs acc).
Proof.
  revert k acc; induction vs as [|v vs IH]; intros k acc Hvs Hl Hlc Hz Hacc.
  - exists k. split; [reflexivity|exact Hacc].
  - inversion Hvs as [|? ? Hv Hvs']; subst. simpl.
    destruct (kahan_add_loop_spec (ksum k) (compensation k) v)
      as (ss & cs & E & Hss & Hcs & Hl1 & Hl2); [lia|lia|exact Hz|].
    unfold kahanSum_Add. rewrite E. simpl.
    apply (IH (mkKahanSum ss cs)); simpl; try lia; try assumption.
    eapply vq_trans; [exact Hss|]. apply vector_add_cong; [exact Hacc|apply vq_refl].
Qed.

Lemma vectors_sum_spec (d : nat) (vs : list (list Q)) :
  Forall (λ v, length v = d) vs →
  ∃ s, vectors_sum d vs = Some s ∧
    Forall2 Qeq s (fold_left vector_add vs (repeat 0 d)).
Proof.
  intros Hvs. unfold vectors_sum.
  assert (Hr : length (repeat (0 : Q) d) = d) by (clear; induction d; simpl; congruence).
  destruct (kahanSum_AddAll_spec d vs (newKahanSum d) (repeat 0 d)) as (k' & E & Hk);
    simpl; try exact Hr; try exact Hvs.
  - clear. induction d; simpl; constructor; [reflexivity|assumption].
  - apply vq_refl.
  - rewrite E. eexists; split; [reflexivity|exact Hk].
Qed.

Lemma Qsq_nonneg (z : Q) : 0 <= z * z.
Proof.
  destruct (Qlt_le_dec z 0) as [Hz|Hz].
  - setoid_replace (z * z) with ((- z) * (- z)) using relation Qeq by ring.
    apply Qmult_le_0_compat; lra.
  - apply Qmult_le_0_compat; lra.
Qed.
Lemma titu (x y a b : Q) :
  0 < a → 0 < b → (x + y) * (x + y) / (a + b) <= x * x / a + y * y / b.
Proof.
  intros Ha Hb.
  assert (Hab : 0 < a * b * (a + b)).
  { apply Qmult_lt_0_compat; [apply Qmult_lt_0_compat|]; lra. }
  assert (E : x * x / a + y * y / b - (x + y) * (x + y) / (a + b)
              == (x * b - y * a) * (x * b - y * a) * / (a * b * (a + b))).
  { field. repeat split; lra. }
  assert (0 <= (x * b - y * a) * (x * b - y * a) * / (a * b * (a + b))).
  { apply Qmult_le_0_compat; [apply Qsq_nonneg|]. apply Qinv_le_0_compat; lra. }
  lra.
Qed.

Lemma fold_vector_add_length (d : nat) (S : list (list Q)) (acc : list Q) :
  Forall (λ v, length v = d) S → length acc = d →
  length (fold_left vector_add S acc) = d.
Proof.
  revert acc; induction S as [|v S IH]; intros acc HS Hacc; simpl; [exact Hacc|].
  inversion_clear HS. apply IH; [assumption|]. rewrite length_vector_add; lia.
Qed.

Lemma fold_vector_add_split (d : nat) (S : list (list Q)) (acc : list Q) :
  Forall (λ v, length v = d) S → length acc = d →
  Forall2 Qeq (fold_left vector_add S acc)
              (vector_add acc (fold_left vector_add S (repeat 0 d))).
Proof.
  assert (Hr : length (repeat (0 : Q) d) = d) by (clear; induction d; simpl; congruence).
  revert acc; induction S as [|v S IH]; intros acc HS Hacc; simpl.
  - apply vq_sym. subst d. apply vector_add_zero_r.
  - inversion_clear HS as [|? ? Hv HS'].
    eapply vq_trans; [apply IH; [exact HS'|rewrite length_vector_add; lia]|].
    eapply vq_trans; [apply vector_add_assoc|].
    apply vector_add_cong; [apply vq_refl|].
    eapply vq_trans.
    2: { apply vq_sym. apply IH; [exact HS'|]. rewrite length_vector_add; rewrite Hr; lia. }
    apply vector_add_cong; [|apply vq_refl].
    apply vq_sym. rewrite <- Hv. apply vector_add_zero_l.
Qed.

Lemma fold_vector_add_app (d : nat) (S1 S2 : list (list Q)) :
  Forall (λ v, length v = d) (S1 ++ S2) →
  Forall2 Qeq (fold_left vector_add (S1 ++ S2) (repeat 0 d))
    (vector_add (fold_left vector_add S1 (repeat 0 d))
                (fold_left vector_add S2 (repeat 0 d))).
Proof.
  intros H. apply Forall_app in H as [H1 H2].
  assert (Hr : length (repeat (0 : Q) d) = d) by (clear; induction d; simpl; congruence).
  rewrite fold_left_app. apply fold_vector_add_split; [exact H2|].
  apply fold_vector_add_length; assumption.
Qed.

(** Counting channel. *)
Lemma fold_count_sample_vectors (S : list (list Q)) (c : Q) (acc : list Q) :
  fold_left vector_add (map GradientHeuristic_SampleVector S) (c :: acc)
  = fold_left (λ c _, c + 1) S c :: fold_left vector_add S acc.
Proof. revert c acc; induction S as [|g S IH]; intros c acc; simpl; [done|apply IH]. Qed.

Lemma fold_count_shift (S : list (list Q)) (c : Q) :
  fold_left (λ c _, c + 1) S c == c + fold_left (λ c _, c + 1) S 0.
Proof.
  revert c; induction S as [|g S IH]; intros c; simpl; [ring|].
  rewrite (IH (c + 1)), (IH (0 + 1)). ring.
Qed.

Lemma fold_count_pos (S : list (list Q)) :
  S ≠ [] → 0 < fold_left (λ c _, c + 1) S 0.
Proof.
  destruct S as [|g S]; [done|]. intros _. simpl.
  rewrite fold_count_shift.
  assert (∀ T : list (list Q), 0 <= fold_left (λ c _, c + 1) T 0).
  { induction T as [|h T IH]; simpl; [lra|]. rewrite fold_count_shift. lra. }
  specialize (H S). lra.
Qed.

Lemma fold_count_app (S1 S2 : list (list Q)) :
  fold_left (λ c _, c + 1) (S1 ++ S2) 0
  == fold_left (λ c _, c + 1) S1 0 + fold_left (λ c _, c + 1) S2 0.
Proof. rewrite fold_left_app, fold_count_shift. reflexivity. Qed.

(** [vectorNormSquared] as a sum of squares. *)
Lemma vectorNormSquared_acc (v : list Q) (r : Q) :
  fold_left (λ res x, res + x * x) v r == r + vectorNormSquared v.
Proof.
  unfold vectorNormSquared. revert r; induction v as [|x v IH]; intros r; simpl; [ring|].
  rewrite (IH (r + x * x)), (IH (0 + x * x)). ring.
Qed.

Lemma vectorNormSquared_cons (x : Q) (v : list Q) :
  vectorNormSquared (x :: v) == x * x + vectorNormSquared v.
Proof.
  unfold vectorNormSquared at 1. simpl. rewrite vectorNormSquared_acc. ring.
Qed.

Lemma vectorNormSquared_cong (a b : list Q) :
  Forall2 Qeq a b → vectorNormSquared a == vectorNormSquared b.
Proof.
  induction 1 as [|x y a b Hxy Hab IH]; [reflexivity|].
  rewrite !vectorNormSquared_cons, Hxy, IH. reflexivity.
Qed.

Lemma vectorNormSquared_nonneg (a : list Q) : 0 <= vectorNormSquared a.
Proof.
  induction a as [|x a IH]; [unfold vectorNormSquared; simpl; lra|].
  rewrite vectorNormSquared_cons. pose proof (Qsq_nonneg x). lra.
Qed.

Lemma vectorNormSquared_titu (a b : list Q) (n1 n2 : Q) :
  length a = length b → 0 < n1 → 0 < n2 →
  vectorNormSquared (vector_add a b) / (n1 + n2)
  <= vectorNormSquared a / n1 + vectorNormSquared b / n2.
Proof.
  intros Hl H1 H2. revert b Hl; induction a as [|x a IH]; intros [|y b] Hl;
    simpl in Hl; try discriminate.
  - change (vector_add (x :: a) (y :: b)) with ((x + y) :: vector_add a b).
    rewrite !vectorNormSquared_cons.
    assert (Hd : ∀ u v w : Q, (u + v) / w == u / w + v / w) by (intros; unfold Qdiv; ring).
    rewrite !Hd.
    pose proof (titu x y n1 n2 H1 H2).
    specialize (IH b ltac:(lia)). lra.
Qed.

Lemma grad_sum_shape (d : nat) (S : list (list Q)) :
  Forall (λ g, length g = d) S →
  ∃ c G, vectors_sum (Datatypes.S d) (map GradientHeuristic_SampleVector S) = Some (c :: G) ∧
    c == fold_left (λ c _, c + 1) S 0 ∧
    Forall2 Qeq G (fold_left vector_add S (repeat 0 d)) ∧ length G = d.
Proof.
  intros HS.
  destruct (vectors_sum_spec (Datatypes.S d) (map GradientHeuristic_SampleVector S))
    as (s & E & Hs).
  { clear -HS. induction HS; constructor; [simpl; lia|assumption]. }
  change (repeat (0 : Q) (Datatypes.S d)) with (0 :: repeat (0 : Q) d) in Hs.
  rewrite fold_count_sample_vectors in Hs.
  inversion Hs as [|c c0 G G0 Hc HG]; subst.
  exists c, G. split; [exact E|]. split; [exact Hc|]. split; [exact HG|].
  rewrite (vq_length _ _ HG). apply fold_vector_add_length; [exact HS|].
  clear. induction d; simpl; congruence.
Qed.

Lemma GradientHeuristic_Quality_pos (c : Q) (G : list Q) :
  0 < c → GradientHeuristic_Quality (c :: G) = Some (vectorNormSquared G / c).
Proof.
  intros Hc. unfold GradientHeuristic_Quality. cbn -[Qeq_bool vectorNormSquared Qdiv].
  destruct (Qeq_bool c 0) eqn:E; [apply Qeq_bool_iff in E; lra|reflexivity].
Qed.

Theorem GradientHeuristic_Quality_superadditive (d : nat) (S1 S2 : list (list Q)) :
  S1 ≠ [] → S2 ≠ [] → Forall (λ g, length g = d) (S1 ++ S2) →
  ∃ v1 v2 v q1 q2 q,
    vectors_sum (Datatypes.S d) (map GradientHeuristic_SampleVector S1) = Some v1 ∧
    vectors_sum (Datatypes.S d) (map GradientHeuristic_SampleVector S2) = Some v2 ∧
    vectors_sum (Datatypes.S d) (map GradientHeuristic_SampleVector (S1 ++ S2)) = Some v ∧
    GradientHeuristic_Quality v1 = Some q1 ∧
    GradientHeuristic_Quality v2 = Some q2 ∧
    GradientHeuristic_Quality v = Some q ∧
    q <= q1 + q2.
Proof.
  intros H1 H2 HS. pose proof HS as HS'. apply Forall_app in HS' as [HS1 HS2].
  destruct (grad_sum_shape d S1 HS1) as (c1 & G1 & E1 & Hc1 & HG1 & Hl1).
  destruct (grad_sum_shape d S2 HS2) as (c2 & G2 & E2 & Hc2 & HG2 & Hl2).
  destruct (grad_sum_shape d (S1 ++ S2) HS) as (c & G & E & Hc & HG & Hl).
  pose proof (fold_count_pos S1 H1) as P1.
  pose proof (fold_count_pos S2 H2) as P2.
  assert (Hcc : c == c1 + c2) by (rewrite Hc, fold_count_app, Hc1, Hc2; reflexivity).
  assert (Q1 : 0 < c1) by (rewrite Hc1; exact P1).
  assert (Q2 : 0 < c2) by (rewrite Hc2; exact P2).
  assert (Q0 : 0 < c) by (rewrite Hcc; lra).
  exists (c1 :: G1), (c2 :: G2), (c :: G).
  eexists _, _, _.
  split; [exact E1|]. split; [exact E2|]. split; [exact E|].
  split; [apply GradientHeuristic_Quality_pos, Q1|].
  split; [apply GradientHeuristic_Quality_pos, Q2|].
  split; [apply GradientHeuristic_Quality_pos, Q0|].
  assert (HN : vectorNormSquared G == vectorNormSquared (vector_add G1 G2)).
  { apply vectorNormSquared_cong.
    eapply vq_trans; [exact HG|]. eapply vq_trans; [apply fold_vector_add_app, HS|].
    apply vector_add_cong; apply vq_sym; assumption. }
  rewrite HN, Hcc. apply vectorNormSquared_titu; [lia|exact Q1|exact Q2].
Qed.

Lemma HessianHeuristic_Quality_dim1 (g h : Q) :
  ¬ h == 0 →
  ∃ q, HessianHeuristic_Quality [g; h] = Some q ∧ q == g * g / (2 * h).
Proof.
  intros Hh.
  unfold HessianHeuristic_Quality, minimize.
  change (inferDimension (length [g; h])) with (Some 1%nat).
  cbn -[Qplus Qmult Qminus Qopp Qdiv Qeq_bool Qinv].
  assert (Hr : ∀ r, h * r == 0 → r == 0).
  { intros r Hr'. apply Qmult_integral in Hr' as [e|e]; [contradiction|exact e]. }
  destruct (Qeq_bool _ 0) eqn:E.
  - apply Qeq_bool_iff in E. cbn -[Qplus Qmult Qminus Qopp Qdiv Qeq_bool Qinv].
    eexists; split; [reflexivity|].
    assert (Hg : g == 0).
    { rewrite Qplus_0_l in E. apply Qmult_integral in E as [e|e];
      rewrite Qplus_0_l in e; apply Hr in e;
      lra. }
    rewrite Hg. field. exact Hh.
  - cbn -[Qplus Qmult Qminus Qopp Qdiv Qeq_bool Qinv]. eexists; split; [reflexivity|].
    apply Qeq_bool_neq in E.
    assert (Hg : ¬ g == 0).
    { intros Hg. apply E. rewrite Hg. ring. }
    field. split; [exact Hh|]. exact Hg.
Qed.

Lemma dim1_fold_shape (S : list (list Q)) (a b : Q) :
  Forall (λ v, ∃ g h, v = [g; h] ∧ 0 < h) S →
  ∃ G H, fold_left vector_add S [a; b] = [G; H] ∧ b <= H ∧ (S ≠ [] → b < H).
Proof.
  revert a b; induction S as [|v S IH]; intros a b HS.
  - exists a, b. split; [reflexivity|]. split; [lra|done].
  - inversion_clear HS as [|? ? (g & h & -> & Hh) HS'].
    destruct (IH (a + g) (b + h) HS') as (G & H & E & Hle & _).
    exists G, H. split; [exact E|]. split; [lra|intros _; lra].
Qed.

Lemma HessianHeuristic_Quality_superadditive_dim1 (S1 S2 : list (list Q)) :
  S1 ≠ [] → S2 ≠ [] → Forall (λ v, ∃ g h, v = [g; h] ∧ 0 < h) (S1 ++ S2) →
  ∃ v1 v2 v q1 q2 q,
    vectors_sum 2 S1 = Some v1 ∧ vectors_sum 2 S2 = Some v2 ∧
    vectors_sum 2 (S1 ++ S2) = Some v ∧
    HessianHeuristic_Quality v1 = Some q1 ∧
    HessianHeuristic_Quality v2 = Some q2 ∧
    HessianHeuristic_Quality v = Some q ∧
    q <= q1 + q2.
Proof.
  intros H1 H2 HS. pose proof HS as HS'. apply Forall_app in HS' as [HS1 HS2].
  assert (Hlen : ∀ T, Forall (λ v, ∃ g h, v = [g; h] ∧ 0 < h) T →
                      Forall (λ v : list Q, length v = 2%nat) T).
  { intros T HT. eapply Forall_impl; [exact HT|]. intros v (g & h & -> & _). reflexivity. }
  destruct (vectors_sum_spec 2 S1 (Hlen _ HS1)) as (s1 & E1 & Hs1).
  destruct (vectors_sum_spec 2 S2 (Hlen _ HS2)) as (s2 & E2 & Hs2).
  destruct (vectors_sum_spec 2 (S1 ++ S2) (Hlen _ HS)) as (s & E & Hs).
  destruct (dim1_fold_shape S1 0 0 HS1) as (G1 & K1 & F1 & _ & P1).
  destruct (dim1_fold_shape S2 0 0 HS2) as (G2 & K2 & F2 & _ & P2).
  specialize (P1 H1). specialize (P2 H2).
  pose proof (fold_vector_add_app 2 S1 S2 (Hlen _ HS)) as Happ.
  change (repeat (0 : Q) 2) with [0; 0] in *.
  rewrite F1, F2 in Happ. rewrite F1 in Hs1. rewrite F2 in Hs2.
  cbn [vector_add zip_with] in Happ.
  pose proof (vq_trans _ _ _ Hs Happ) as Hs'.
  inversion Hs1 as [|a1 ? ? ? Ha1 Hr1]; subst; inversion Hr1 as [|b1 ? ? ? Hb1 Hr1']; subst;
    inversion Hr1'; subst.
  inversion Hs2 as [|a2 ? ? ? Ha2 Hr2]; subst; inversion Hr2 as [|b2 ? ? ? Hb2 Hr2']; subst;
    inversion Hr2'; subst.
  inversion Hs' as [|a ? ? ? Ha Hr]; subst; inversion Hr as [|b ? ? ? Hb Hr']; subst;
    inversion Hr'; subst.
  destruct (HessianHeuristic_Quality_dim1 a1 b1) as (q1 & Eq1 & Hq1); [rewrite Hb1; lra|].
  destruct (HessianHeuristic_Quality_dim1 a2 b2) as (q2 & Eq2 & Hq2); [rewrite Hb2; lra|].
  destruct (HessianHeuristic_Quality_dim1 a b) as (q & Eq & Hq); [rewrite Hb; lra|].
  exists [a1; b1], [a2; b2], [a; b], q1, q2, q.
  do 6 (split; [assumption|]).
  rewrite Hq, Hq1, Hq2, Ha, Hb, Ha1, Hb1, Ha2, Hb2.
  assert (E2h : 2 * (K1 + K2) == 2 * K1 + 2 * K2) by ring.
  rewrite E2h. apply titu; lra.
Qed.

Lemma Softmax_SampleVector_exps_ext (f g : Q → Q) (dmp : Q) (o t : list Q) :
  softmax_exps f o = softmax_exps g o →
  HessianHeuristic_SampleVector f (mkHessianHeuristic LossSoftmax dmp) o t
  = HessianHeuristic_SampleVector g (mkHessianHeuristic LossSoftmax dmp) o t.
Proof.
  intros E. unfold HessianHeuristic_SampleVector, Softmax_LossGrad.
  cbn [Loss LossHessian]. unfold Softmax_LossHessian. rewrite E. reflexivity.
Qed.

Lemma HessianHeuristic_Quality_not_superadditive :
  ∃ o1 t1 o2 t2 : list Q,
    ∀ exp32 : Q → Q, exp32 0 = 1 → exp32 (-200) = 0 →
    ∃ v1 v2 s1 s2 s q1 q2 q,
      HessianHeuristic_SampleVector exp32 (mkHessianHeuristic LossSoftmax 0) o1 t1 = Some v1 ∧
      HessianHeuristic_SampleVector exp32 (mkHessianHeuristic LossSoftmax 0) o2 t2 = Some v2 ∧
      vectors_sum 12 [v1] = Some s1 ∧ vectors_sum 12 [v2] = Some s2 ∧
      vectors_sum 12 ([v1] ++ [v2]) = Some s ∧
      HessianHeuristic_Quality s1 = Some q1 ∧
      HessianHeuristic_Quality s2 = Some q2 ∧
      HessianHeuristic_Quality s = Some q ∧
      q1 + q2 < q.
Proof.
  exists [0; 0; -200], [0; 0; 1], [0; -200; -200], [0; 0; 1].
  intros exp32 H0 H200.
  rewrite !(Softmax_SampleVector_exps_ext exp32 exp32_at_0_and_m200);
    [|vm_compute; rewrite ?H0, ?H200; reflexivity ..].
  eexists _, _, _, _, _, _, _, _.
  split; [vm_compute; reflexivity|].
  split; [vm_compute; reflexivity|].
  split; [vm_compute; reflexivity|].
  split; [vm_compute; reflexivity|].
  split; [vm_compute; reflexivity|].
  split; [vm_compute; reflexivity|].
  split; [vm_compute; reflexivity|].
  split; [vm_compute; reflexivity|].
  vm_compute. reflexivity.
Qed.

End HeuristicFacts.

(** C7 (amended).  The split criterion is superadditive for the
    [GradientHeuristic]: for every partition of a sample set into two
    non-empty parts, the qualities of the parts' summed vectors add up to
    at least the quality of the whole set's summed vector.  For the
    [HessianHeuristic] the same holds with one-dimensional outputs when
    every sample's damped curvature is positive, where [ApplyInverse]
    solves exactly. *)
Theorem Quality_superadditive :
  (∀ (d : nat) (S1 S2 : list (list Q)),
    S1 ≠ [] → S2 ≠ [] → Forall (λ g, length g = d) (S1 ++ S2) →
    ∃ v1 v2 v q1 q2 q,
      vectors_sum (S d) (map GradientHeuristic_SampleVector S1) = Some v1 ∧
      vectors_sum (S d) (map GradientHeuristic_SampleVector S2) = Some v2 ∧
      vectors_sum (S d) (map GradientHeuristic_SampleVector (S1 ++ S2)) = Some v ∧
      GradientHeuristic_Quality v1 = Some q1 ∧
      GradientHeuristic_Quality v2 = Some q2 ∧
      GradientHeuristic_Quality v = Some q ∧
      (q <= q1 + q2)%Q) ∧
  (∀ S1 S2 : list (list Q),
    S1 ≠ [] → S2 ≠ [] → Forall (λ v, ∃ g h, v = [g; h] ∧ (0 < h)%Q) (S1 ++ S2) →
    ∃ v1 v2 v q1 q2 q,
      vectors_sum 2 S1 = Some v1 ∧ vectors_sum 2 S2 = Some v2 ∧
      vectors_sum 2 (S1 ++ S2) = Some v ∧
      HessianHeuristic_Quality v1 = Some q1 ∧
      HessianHeuristic_Quality v2 = Some q2 ∧
      HessianHeuristic_Quality v = Some q ∧
      (q <= q1 + q2)%Q).
Proof.
  split.
  - exact GradientHeuristic_Quality_superadditive.
  - exact HessianHeuristic_Quality_superadditive_dim1.
Qed.

Lemma Quality_superadditive_witness :
  (∃ v1 v2 v q1 q2 q,
      vectors_sum 2 (map GradientHeuristic_SampleVector [[1%Q]]) = Some v1 ∧
      vectors_sum 2 (map GradientHeuristic_SampleVector [[(-1)%Q]]) = Some v2 ∧
      vectors_sum 2 (map GradientHeuristic_SampleVector ([[1%Q]] ++ [[(-1)%Q]])) = Some v ∧
      GradientHeuristic_Quality v1 = Some q1 ∧
      GradientHeuristic_Quality v2 = Some q2 ∧
      GradientHeuristic_Quality v = Some q ∧
      (q <= q1 + q2)%Q) ∧
  (∃ v1 v2 v q1 q2 q,
      vectors_sum 2 [[1%Q; 1%Q]] = Some v1 ∧ vectors_sum 2 [[(-1)%Q; 2%Q]] = Some v2 ∧
      vectors_sum 2 ([[1%Q; 1%Q]] ++ [[(-1)%Q; 2%Q]]) = Some v ∧
      HessianHeuristic_Quality v1 = Some q1 ∧
      HessianHeuristic_Quality v2 = Some q2 ∧
      HessianHeuristic_Quality v = Some q ∧
      (q <= q1 + q2)%Q).
Proof.
  split.
  - apply (proj1 Quality_superadditive 1%nat [[1%Q]] [[(-1)%Q]]);
      [discriminate|discriminate|repeat constructor].
  - apply (proj2 Quality_superadditive [[1%Q; 1%Q]] [[(-1)%Q; 2%Q]]);
      [discriminate|discriminate|].
    repeat constructor.
    + eexists _, _. split; [reflexivity|]. reflexivity.
    + eexists _, _. split; [reflexivity|]. reflexivity.
Defined.

(** ** sort.Search, inferDimension and the Hessian sample vector *)

Section SearchFacts.
Local Open Scope nat_scope.

Lemma sort_Search_loop_spec (f : nat → bool) (n : nat) :
  (∀ a b, (a ≤ b)%nat → f a = true → f b = true) →
  ∀ fuel i j, (j - i < fuel)%nat → (i ≤ j)%nat → (j ≤ n)%nat →
    (∀ k, (k < i)%nat → f k = false) → (j = n ∨ f j = true) →
    let r := sort_Search_loop f fuel i j in
    (∀ k, (k < r)%nat → f k = false) ∧ (r = n ∨ f r = true).
Proof.
  intros Hmono fuel. induction fuel as [|fuel IH]; intros i j Hf Hij Hjn Hlow Hj;
    cbv zeta; cbn [sort_Search_loop].
  - lia.
  - destruct (Nat.ltb_spec i j) as [Hlt|Hge].
    + remember ((i + j) / 2)%nat as h eqn:Eh.
      assert (Hh1 : (i <= h)%nat) by (subst h; apply Nat.div_le_lower_bound; lia).
      assert (Hh2 : (h < j)%nat) by (subst h; apply Nat.Div0.div_lt_upper_bound; lia).
      destruct (f h) eqn:Efh.
      * apply (IH i h); try lia; auto.
      * apply (IH (S h) j); try lia; auto.
        intros k Hk. destruct (Nat.lt_ge_cases k i) as [Hki|Hki]; [auto|].
        destruct (f k) eqn:Efk; [|reflexivity].
        rewrite (Hmono k h) in Efh; [discriminate|lia|exact Efk].
    + assert (i = j) by lia. subst j. split; assumption.
Qed.

Lemma inferDimension_spec (d : nat) : inferDimension (d + d * d) = Some d.
Proof.
  unfold inferDimension, sort_Search.
  set (L := (d + d * d)%nat).
  set (f := λ n, (L <=? n * (n + 1))%nat).
  destruct (sort_Search_loop_spec f L) with (fuel := S L) (i := 0%nat) (j := L)
    as [Hlow Hr]; try lia; auto.
  - intros a b Hab. subst f. simpl. intros Ha. apply Nat.leb_le in Ha. apply Nat.leb_le.
    transitivity (a * (a + 1))%nat; [exact Ha|]. apply Nat.mul_le_mono; lia.
  - set (r := sort_Search_loop f (S L) 0 L) in *.
    assert (Hrd : r = d).
    { destruct (Nat.lt_total r d) as [Hlt|[Heq|Hgt]]; [|exact Heq|].
      - exfalso. destruct Hr as [Hr|Hr].
        + subst L. nia.
        + subst f. simpl in Hr. apply Nat.leb_le in Hr. subst L.
          assert (r * (r + 1) < d * (d + 1))%nat by (apply Nat.mul_lt_mono; lia). nia.
      - exfalso. specialize (Hlow d Hgt). subst f. simpl in Hlow.
        apply Nat.leb_gt in Hlow. subst L. nia. }
    rewrite Hrd. replace (d * (d + 1))%nat with L by (subst L; nia).
    rewrite Nat.eqb_refl. reflexivity.
Qed.

Lemma inferDimension_Some (L x : nat) : inferDimension L = Some x → (x * (x + 1))%nat = L.
Proof.
  unfold inferDimension.
  set (y := sort_Search L _).
  destruct (Nat.eqb_spec (y * (y + 1)) L) as [E|E]; [|discriminate].
  intros H. injection H as <-. exact E.
Qed.

Lemma HessianHeuristic_SampleVector_shape (exp32 : Q → Q) (h : HessianHeuristic)
    (o t v : list Q) :
  HessianHeuristic_SampleVector exp32 h o t = Some v →
  ∃ g data, Softmax_LossGrad exp32 o t = Some g ∧ v = g ++ data.
Proof.
  unfold HessianHeuristic_SampleVector.
  destruct (Softmax_LossGrad exp32 o t) as [g|]; [|discriminate]. cbn.
  destruct (LossHessian exp32 (Loss h) o t) as [hs|]; [|discriminate]. cbn.
  destruct (add_damping _ _ _ _) as [data|]; [|discriminate]. cbn.
  intros E. injection E as <-. eauto.
Qed.

Lemma HessianHeuristic_Sigmoid_sample (exp32 : Q → Q) :
  exp32 0%Q = 1%Q →
  ∃ v x g,
    HessianHeuristic_SampleVector exp32 (mkHessianHeuristic LossSigmoid 0) [0%Q] [1%Q] = Some v ∧
    v !! 0%nat = Some x ∧ (x == 0)%Q ∧
    LossGrad exp32 LossSigmoid [0%Q] [1%Q] = Some [g] ∧ (g == -(1#2))%Q.
Proof.
  intros H0.
  unfold HessianHeuristic_SampleVector. vm_compute. rewrite !H0.
  eexists _, _, _. split; [reflexivity|]. split; [reflexivity|].
  split; [vm_compute; reflexivity|]. split; [reflexivity|]. vm_compute; reflexivity.
Qed.

End SearchFacts.

(** C2 (code bug, the documented part).  [HessianHeuristic.SampleVector]
    takes its gradient from [Softmax{}] whatever the configured loss is,
    so with [Loss = Sigmoid{}] the gradient part is the softmax gradient
    (0 on output [0], target [1]) rather than the sigmoid gradient (-1/2).
    The dimension recovery is right: [inferDimension] maps [d + d*d] to [d]
    and only returns [x] when [x*(x+1)] is the length. *)
Theorem HessianHeuristic_SampleVector_grad_from_softmax :
  (∀ exp32 h o t v, HessianHeuristic_SampleVector exp32 h o t = Some v →
     ∃ g data, Softmax_LossGrad exp32 o t = Some g ∧ v = g ++ data) ∧
  (∀ exp32 : Q → Q, exp32 0%Q = 1%Q →
     ∃ v x g,
       HessianHeuristic_SampleVector exp32 (mkHessianHeuristic LossSigmoid 0) [0%Q] [1%Q]
         = Some v ∧
       v !! 0%nat = Some x ∧ (x == 0)%Q ∧
       LossGrad exp32 LossSigmoid [0%Q] [1%Q] = Some [g] ∧ (g == -(1#2))%Q) ∧
  (∀ d : nat, inferDimension (d + d * d)%nat = Some d) ∧
  (∀ L x : nat, inferDimension L = Some x → (x * (x + 1))%nat = L).
Proof.
  split; [exact HessianHeuristic_SampleVector_shape|].
  split; [exact HessianHeuristic_Sigmoid_sample|].
  split; [exact inferDimension_spec|exact inferDimension_Some].
Qed.

Lemma HessianHeuristic_SampleVector_grad_from_softmax_witness :
  (∃ v x g,
     HessianHeuristic_SampleVector exp32_at_0_and_m200 (mkHessianHeuristic LossSigmoid 0)
       [0%Q] [1%Q] = Some v ∧
     v !! 0%nat = Some x ∧ (x == 0)%Q ∧
     LossGrad exp32_at_0_and_m200 LossSigmoid [0%Q] [1%Q] = Some [g] ∧ (g == -(1#2))%Q) ∧
  (∃ g data,
     Softmax_LossGrad exp32_at_0_and_m200 [0%Q] [1%Q] = Some g ∧ [0%Q; 2 # 8] = g ++ data) ∧
  inferDimension (3 + 3 * 3)%nat = Some 3%nat ∧
  (3 * (3 + 1))%nat = 12%nat.
Proof.
  split; [apply (proj1 (proj2 HessianHeuristic_SampleVector_grad_from_softmax));
          vm_compute; reflexivity|].
  split; [|split].
  - apply (proj1 HessianHeuristic_SampleVector_grad_from_softmax
             exp32_at_0_and_m200 (mkHessianHeuristic LossSigmoid 0) [0%Q] [1%Q]).
    vm_compute. reflexivity.
  - apply (proj1 (proj2 (proj2 HessianHeuristic_SampleVector_grad_from_softmax))).
  - apply (proj2 (proj2 (proj2 HessianHeuristic_SampleVector_grad_from_softmax))).
    vm_compute. reflexivity.
Defined.

(** ** GradientHeuristic with a zero count *)

Lemma fdiv_m1_zero (c : F32.float) :
  F32.is_zero c = true → ∃ n, F32.fdiv (F32.Fin (-1)) c = F32.Inf n.
Proof.
  destruct c as [q| |n|]; intros Hz; try discriminate; cbn in Hz |- *.
  - rewrite Hz. eexists. reflexivity.
  - eexists. reflexivity.
Qed.

Lemma fmul_Inf_not_finite (x : F32.float) (n : bool) :
  F32.is_finite (F32.fmul x (F32.Inf n)) = false.
Proof. destruct x; cbn; try destruct (Qeq_bool _ _); reflexivity. Qed.

Lemma feq_zero_count (c : F32.float) :
  F32.is_zero c = true → F32.feq c (F32.Fin 0) = true.
Proof.
  destruct c as [q| |n|]; intros Hz; try discriminate; cbn.
  - apply Qeq_bool_iff. apply Qeq_bool_iff in Hz. exact Hz.
  - reflexivity.
Qed.

(** C10 (amended).  When the count channel of the aggregate is zero (+0
    or -0), the scale [-1/count] is an infinity and every entry of the
    output delta of [GradientHeuristic.LeafOutput] is non-finite (there are
    as many entries as gradient coordinates), while [Quality] returns 0. *)
Theorem GradientHeuristic_LeafOutput_zero_count (count : F32.float) (rest : list F32.float) :
  F32.is_zero count = true →
  F32.is_finite (F32.fdiv (F32.Fin (-1)) count) = false ∧
  (∃ out, F32.GradientHeuristic_LeafOutput (count :: rest) = Some out ∧
     length out = length rest ∧ Forall (λ x, F32.is_finite x = false) out) ∧
  F32.GradientHeuristic_Quality (count :: rest) = Some (F32.Fin 0).
Proof.
  intros Hz. destruct (fdiv_m1_zero count Hz) as [n Hn].
  split; [rewrite Hn; reflexivity|].
  split.
  - unfold F32.GradientHeuristic_LeafOutput. cbn -[F32.fdiv F32.fmul].
    rewrite Hn. eexists. split; [reflexivity|]. split; [apply length_map|].
    apply Forall_forall. intros x Hx. apply list_elem_of_In, in_map_iff in Hx.
    destruct Hx as (y & <- & _). apply fmul_Inf_not_finite.
  - unfold F32.GradientHeuristic_Quality. cbn -[F32.feq].
    rewrite (feq_zero_count count Hz). reflexivity.
Qed.

Lemma GradientHeuristic_LeafOutput_zero_count_witness :
  F32.is_zero (F32.Fin 0) = true ∧
  F32.is_finite (F32.fdiv (F32.Fin (-1)) (F32.Fin 0)) = false ∧
  (∃ out, F32.GradientHeuristic_LeafOutput [F32.Fin 0; F32.Fin 1; F32.Fin 0; F32.NaN] = Some out ∧
     length out = length [F32.Fin 1; F32.Fin 0; F32.NaN] ∧
     Forall (λ x, F32.is_finite x = false) out) ∧
  F32.GradientHeuristic_Quality [F32.Fin 0; F32.Fin 1; F32.Fin 0; F32.NaN] = Some (F32.Fin 0).
Proof.
  split; [reflexivity|].
  apply (GradientHeuristic_LeafOutput_zero_count (F32.Fin 0) [F32.Fin 1; F32.Fin 0; F32.NaN]).
  reflexivity.
Defined.

(** C10 (as stated, refuted).  With no gradient coordinate the aggregate is
    just a zero count: the output delta is empty, so it contains no
    non-finite entry. *)
Lemma GradientHeuristic_LeafOutput_zero_count_empty :
  ∃ gradSum out,
    gradSum !! 0%nat = Some (F32.Fin 0) ∧
    F32.GradientHeuristic_LeafOutput gradSum = Some out ∧
    Forall (λ x, F32.is_finite x = true) out ∧
    F32.GradientHeuristic_Quality gradSum = Some (F32.Fin 0).
Proof.
  exists [F32.Fin 0], []. repeat split; try reflexivity. constructor.
Qed.

(* ------------------------------------------------------------------ *)
(** ** Polynomials of the sigmoid loss *)

Section PolyFacts.
Local Open Scope Q_scope.

Lemma nth_Polynomial_Scale (p : Polynomial) (s : Q) (k : nat) :
  nth k (Polynomial_Scale p s) 0 == nth k p 0 * s.
Proof.
  revert k. induction p as [|x p IH]; intros [|k]; cbn; try ring. apply IH.
Qed.

Lemma nth_FlipX_from (i : nat) (p : Polynomial) (k : nat) :
  nth k (FlipX_from i p) 0 == (if Nat.odd (i + k) then -1 else 1) * nth k p 0.
Proof.
  revert i k. induction p as [|x p IH]; intros i [|k]; cbn.
  - destruct (Nat.odd _); ring.
  - destruct (Nat.odd _); ring.
  - rewrite Nat.add_0_r. destruct (Nat.odd i); ring.
  - rewrite IH. replace (S i + k)%nat with (i + S k)%nat by lia. reflexivity.
Qed.

Lemma nth_FlipX (p : Polynomial) (k : nat) :
  nth k (FlipX p) 0 == (if Nat.odd k then -1 else 1) * nth k p 0.
Proof. apply nth_FlipX_from. Qed.

Lemma nth_Polynomial_Add (p p1 : Polynomial) (k : nat) :
  nth k (Polynomial_Add p p1) 0 == nth k p 0 + nth k p1 0.
Proof.
  revert p1 k. induction p as [|x p IH]; intros p1 k.
  - cbn [Polynomial_Add]. replace (nth k [] 0) with 0 by (destruct k; reflexivity).
    revert k. induction p1 as [|y p1 IH1]; intros [|k]; cbn; try ring.
    rewrite IH1. ring.
  - destruct p1 as [|y p1]; destruct k as [|k]; cbn; try ring. apply IH.
Qed.

Lemma length_Polynomial_Add (p p1 : Polynomial) :
  length (Polynomial_Add p p1) = Nat.max (length p) (length p1).
Proof.
  revert p1. induction p as [|x p IH]; intros [|y p1]; cbn; try lia.
  - rewrite length_map. reflexivity.
  - rewrite IH. reflexivity.
Qed.

Lemma zip_index_Some {A B C} (f : A → B → C) (xs : list A) (ys : list B) :
  length xs = length ys →
  ∃ r, zip_index f xs ys = Some r ∧ r = zip_with f xs ys.
Proof.
  revert ys. induction xs as [|x xs IH]; intros [|y ys] Hl; cbn in *; try lia.
  - eauto.
  - destruct (IH ys) as (r & -> & ->); [lia|]. eauto.
Qed.

Lemma poly_blocks_spec (ps : list Polynomial) :
  (∀ p, In p ps → p ≠ []) →
  poly_blocks ps = Some (concat (map (λ p, 0 :: tail p) ps)).
Proof.
  induction ps as [|p ps IH]; intros Hne; [reflexivity|].
  destruct p as [|c tl]; [exfalso; apply (Hne []); [left|]; reflexivity|].
  cbn. rewrite IH; [reflexivity|]. intros q Hq. apply Hne. right. exact Hq.
Qed.

End PolyFacts.

(** C6 (amended).  [Sigmoid.LossPolynomials] returns, per coordinate, the
    polynomial [-(t_i p(o_i) + (1 - t_i) flip_x(p(-o_i)))], coefficient by
    coefficient and constant term included, where [p = plog] stands for
    [newPolynomialLogSigmoid]; the constant term is set to zero only by
    [PolynomialHeuristic.SampleVector], which lays each polynomial out as
    [0] followed by its coefficients of degree 1 and above. *)
Theorem Sigmoid_LossPolynomials_coefficients (plog : Q → Polynomial) (o t : list Q) :
  length o = length t →
  ∃ res, Sigmoid_LossPolynomials plog o t = Some res ∧ length res = length o ∧
    (∀ i x ti p k, o !! i = Some x → t !! i = Some ti → res !! i = Some p →
       (nth k p 0 == -(ti * nth k (plog x) 0
                      + (1 - ti) * ((if Nat.odd k then -1 else 1) * nth k (plog (- x)) 0)))%Q) ∧
    ((∀ x, plog x ≠ []) →
       PolynomialHeuristic_SampleVector plog o t
       = Some (concat (map (λ p, 0%Q :: tail p) res))).
Proof.
  intros Hl. unfold PolynomialHeuristic_SampleVector, Sigmoid_LossPolynomials.
  destruct (zip_index_Some (λ x t0,
      Polynomial_Scale (Polynomial_Add (Polynomial_Scale (plog x) t0)
        (Polynomial_Scale (FlipX (plog (- x)%Q)) (1 - t0)%Q)) (-1)%Q) o t Hl)
    as (r & Hr & ->).
  rewrite Hr. eexists. split; [reflexivity|]. split; [|split].
  - rewrite length_zip_with. lia.
  - intros i x ti p k Hx Ht Hp.
    rewrite lookup_zip_with, Hx, Ht in Hp. cbn in Hp. injection Hp as <-.
    rewrite nth_Polynomial_Scale, nth_Polynomial_Add, !nth_Polynomial_Scale, nth_FlipX.
    ring.
  - intros Hne. cbn. apply poly_blocks_spec.
    intros p Hp. apply list_elem_of_In, elem_of_lookup_zip_with in Hp.
    destruct Hp as (i & x & ti & -> & _ & _).
    intros Hnil. apply (f_equal length) in Hnil.
    unfold Polynomial_Scale at 1 in Hnil. rewrite length_map, length_Polynomial_Add in Hnil.
    unfold Polynomial_Scale in Hnil. rewrite length_map in Hnil.
    destruct (plog x) eqn:E; [exact (Hne x E)|]. cbn in Hnil. lia.
Qed.

Lemma Sigmoid_LossPolynomials_coefficients_witness :
  length [0%Q; 1%Q] = length [1%Q; 0%Q] ∧
  ∃ res, Sigmoid_LossPolynomials (λ x, [x; 1; x * x]%Q) [0%Q; 1%Q] [1%Q; 0%Q] = Some res ∧
    length res = length [0%Q; 1%Q] ∧
    (∀ i x ti p k, [0%Q; 1%Q] !! i = Some x → [1%Q; 0%Q] !! i = Some ti → res !! i = Some p →
       (nth k p 0 == -(ti * nth k ((λ x, [x; 1; x * x]%Q) x) 0
                      + (1 - ti) * ((if Nat.odd k then -1 else 1)
                                    * nth k ((λ x, [x; 1; x * x]%Q) (- x)) 0)))%Q) ∧
    ((∀ x, (λ x, [x; 1; x * x]%Q) x ≠ []) →
       PolynomialHeuristic_SampleVector (λ x, [x; 1; x * x]%Q) [0%Q; 1%Q] [1%Q; 0%Q]
       = Some (concat (map (λ p, 0%Q :: tail p) res))).
Proof.
  split; [reflexivity|].
  apply (Sigmoid_LossPolynomials_coefficients (λ x, [x; 1; x * x]%Q) [0%Q; 1%Q] [1%Q; 0%Q]).
  reflexivity.
Defined.

(** C6 (as stated, refuted).  The constant term is not cleared by
    [Sigmoid.LossPolynomials]: at output [0] with target [1] it is
    [-log sigmoid(0) = ln 2], positive for any expansion whose constant term
    [log sigmoid(0)] is negative. *)
Lemma Sigmoid_LossPolynomials_constant_kept :
  ∃ o t, ∀ plog : Q → Polynomial, (nth 0 (plog 0%Q) 0 < 0)%Q →
    ∃ res p, Sigmoid_LossPolynomials plog o t = Some res ∧ res !! 0%nat = Some p ∧
      (0 < nth 0 p 0)%Q.
Proof.
  exists [0%Q], [1%Q]. intros plog Hneg.
  destruct (Sigmoid_LossPolynomials_coefficients plog [0%Q] [1%Q] eq_refl)
    as (res & Hres & Hlen & Hcoef & _).
  destruct res as [|p res]; [discriminate|].
  exists (p :: res), p. split; [exact Hres|]. split; [reflexivity|].
  rewrite (Hcoef 0%nat 0%Q 1%Q p 0%nat eq_refl eq_refl eq_refl). cbn -[Qmult Qplus Qopp Qminus].
  lra.
Qed.

(* ------------------------------------------------------------------ *)
(** ** The worker pool of [EvaluateAll] *)

Section PoolFacts.
Import Pool.

Lemma pool_spawn_all (b : bool) (k : nat) ch ev w r e :
  rtc (step b) (mkState (Spawning k) ch ev w r e)
               (mkState (Spawning 0) ch ev (w + k) (r + k) e).
Proof.
  revert w r. induction k as [|k IH]; intros w r.
  - rewrite !Nat.add_0_r. apply rtc_refl.
  - eapply rtc_l; [apply step_spawn|].
    replace (w + S k)%nat with (S w + k)%nat by lia.
    replace (r + S k)%nat with (S r + k)%nat by lia. apply IH.
Qed.

Lemma wait_inv_init (procs : nat) (starts : list nat) :
  wait_inv procs starts (init procs starts).
Proof.
  unfold wait_inv. cbn. repeat split; try lia; try discriminate; reflexivity.
Qed.

Lemma wait_inv_step (procs : nat) (starts : list nat) (s s' : state) :
  wait_inv procs starts s → step true s s' → wait_inv procs starts s'.
Proof.
  unfold wait_inv. intros (Hw & Hex & Hperm & Hret & Hpc) Hst.
  inversion Hst; subst; cbn in *;
    repeat split; auto; try lia; try discriminate.
  - intros H. specialize (Hex H). discriminate.
  - rewrite <- Hperm. apply Permutation_middle.
  - intros ->. specialize (Hret eq_refl). discriminate.
  - destruct pc; lia.
Qed.

Lemma wait_inv_rtc (procs : nat) (starts : list nat) (s : state) :
  rtc (step true) (init procs starts) s → wait_inv procs starts s.
Proof.
  revert s. apply rtc_ind_r.
  - apply wait_inv_init.
  - intros s1 s2 _ Hst IH. eapply wait_inv_step; eauto.
Qed.

End PoolFacts.

(** C1 (code bug).  [Model.EvaluateAll] spawns its workers and returns
    without waiting for them: from the start there is a run of the pool in
    which the main goroutine has returned while no sequence has been
    evaluated and every start is still in the channel.  With the [wg.Wait()]
    the other parallel operations have, the main goroutine returns only once
    the channel is drained and every start has been evaluated. *)
Theorem EvaluateAll_returns_before_workers (procs : nat) (starts : list nat) :
  (1 ≤ procs)%nat →
  (∃ s, rtc Pool.EvaluateAll_step (Pool.init procs starts) s ∧
        Pool.main_pc s = Pool.Returned ∧ Pool.evaluated s = [] ∧ Pool.chan s = starts) ∧
  (∀ s, rtc (Pool.step true) (Pool.init procs starts) s →
        Pool.main_pc s = Pool.Returned → Pool.chan s = [] ∧ Pool.evaluated s ≡ₚ starts).
Proof.
  intros Hp. split.
  - eexists. split.
    + eapply rtc_r; [apply (pool_spawn_all false procs)|]. apply Pool.step_loop_done.
    + cbn. auto.
  - intros s Hrtc Hret. destruct (wait_inv_rtc procs starts s Hrtc) as (_ & Hex & Hperm & Hr & Hpc).
    rewrite Hret in Hpc. specialize (Hr Hret). rewrite Hr in Hpc.
    assert (Hc : Pool.chan s = []) by (apply Hex; lia).
    split; [exact Hc|]. rewrite Hc, app_nil_r in Hperm. exact Hperm.
Qed.

Lemma EvaluateAll_returns_before_workers_witness :
  (1 ≤ 4)%nat ∧
  (∃ s, rtc Pool.EvaluateAll_step (Pool.init 4 [0; 1; 2]%nat) s ∧
        Pool.main_pc s = Pool.Returned ∧ Pool.evaluated s = [] ∧ Pool.chan s = [0; 1; 2]%nat) ∧
  (∀ s, rtc (Pool.step true) (Pool.init 4 [0; 1; 2]%nat) s →
        Pool.main_pc s = Pool.Returned → Pool.chan s = [] ∧ Pool.evaluated s ≡ₚ [0; 1; 2]%nat).
Proof.
  split; [lia|]. apply (EvaluateAll_returns_before_workers 4 [0; 1; 2]%nat). lia.
Defined.

(* ------------------------------------------------------------------ *)
(** ** The pruner *)

Section PruneFacts.

Lemma pruneLeaf_nodes (r : UTree) (l n r' : _) (n' : nat) :
  pruneLeaf r l n = Some (r', n') →
  (n ≤ n')%nat ∧ (∀ a, a ∈ leaf_ptrs r' → a ∈ leaf_ptrs r) ∧
  (∀ a, a ∈ node_ptrs r' → a ∈ node_ptrs r ∨ (n ≤ a)%nat) ∧
  (∀ m fs fb tb, r = TBranch m fs fb tb →
     ∀ a, a ∈ node_ptrs r' → a ∈ node_ptrs fb ++ node_ptrs tb ∨ (n ≤ a)%nat).
Proof.
  revert n r' n'. induction r as [m l'|m fs fb IHf tb IHt]; intros n r' n' Hp; cbn in Hp.
  - destruct (Nat.eqb l' l); [discriminate|]. injection Hp as <- <-.
    repeat split; auto. intros ? ? ? ? [=].
  - destruct (is_leaf_ptr fb l).
    { injection Hp as <- <-. repeat split; auto.
      - intros a Ha. cbn. apply elem_of_app. right. exact Ha.
      - intros a Ha. left. cbn. apply elem_of_cons. right. apply elem_of_app. right. exact Ha.
      - intros ? ? ? ? [= <- <- <- <-] a Ha. left. apply elem_of_app. right. exact Ha. }
    destruct (is_leaf_ptr tb l).
    { injection Hp as <- <-. repeat split; auto.
      - intros a Ha. cbn. apply elem_of_app. left. exact Ha.
      - intros a Ha. left. cbn. apply elem_of_cons. right. apply elem_of_app. left. exact Ha.
      - intros ? ? ? ? [= <- <- <- <-] a Ha. left. apply elem_of_app. left. exact Ha. }
    destruct (pruneLeaf fb l n) as [[fb' n1]|] eqn:Ef; [|discriminate]. cbn in Hp.
    destruct (pruneLeaf tb l n1) as [[tb' n2]|] eqn:Et; [|discriminate]. cbn in Hp.
    injection Hp as <- <-.
    destruct (IHf _ _ _ Ef) as (Hn1 & Hlf & Hnf & _).
    destruct (IHt _ _ _ Et) as (Hn2 & Hlt & Hnt & _).
    assert (Hsub : ∀ a, a ∈ node_ptrs (TBranch n2 fs fb' tb') →
              a ∈ node_ptrs fb ++ node_ptrs tb ∨ (n ≤ a)%nat).
    { intros a Ha. cbn in Ha. apply elem_of_cons in Ha as [->|Ha]; [right; lia|].
      apply elem_of_app in Ha as [Ha|Ha].
      - destruct (Hnf a Ha); [left; apply elem_of_app; left; auto | right; lia].
      - destruct (Hnt a Ha); [left; apply elem_of_app; right; auto | right; lia]. }
    repeat split.
    + lia.
    + intros a Ha. cbn in *. apply elem_of_app in Ha as [Ha|Ha]; apply elem_of_app; auto.
    + intros a Ha. destruct (Hsub a Ha) as [H|H]; [left|right; exact H].
      cbn. apply elem_of_cons. right. exact H.
    + intros ? ? ? ? [= <- <- <- <-]. exact Hsub.
Qed.


Lemma best_prune_inv (P : UTree → Prop) (h : Heuristic) (samples : list vecSample)
    (r : UTree) (n0 : nat) :
  (∀ l n1 t1 n2, (n0 ≤ n1)%nat → pruneLeaf r l n1 = Some (t1, n2) → P t1) →
  ∀ ls n best best' n',
    (n0 ≤ n)%nat →
    (∀ q t1, best = Some (q, t1) → P t1) →
    best_prune h samples r ls n best = Some (best', n') →
    (n ≤ n')%nat ∧ ∀ q t1, best' = Some (q, t1) → P t1.
Proof.
  intros HP ls. induction ls as [|l ls IH]; intros n best best' n' Hn Hb Hbp; cbn in Hbp.
  - injection Hbp as <- <-. split; [lia|exact Hb].
  - destruct (pruneLeaf r l n) as [[t1 n1]|] eqn:Ep; [|discriminate]. cbn in Hbp.
    destruct (treeQuality h samples t1) as [q|]; [|discriminate]. cbn in Hbp.
    destruct (pruneLeaf_nodes _ _ _ _ _ Ep) as (Hn1 & _).
    assert (Ht1 : P t1) by (eapply HP; [|exact Ep]; lia).
    apply IH in Hbp as [Hn' Hb']; [split; [lia|exact Hb'] | lia |].
    intros q' t' Hq. destruct best as [[bq bt]|].
    + destruct (negb (Qle_bool q bq)); [injection Hq as <- <-; exact Ht1|].
      eapply Hb. exact Hq.
    + injection Hq as <- <-. exact Ht1.
Qed.

Lemma prune_loop_inv (P : UTree → Prop) (h : Heuristic) (maxLeaves : Z)
    (samples : list vecSample) (n0 : nat) :
  (∀ r l n1 t1 n2, P r → (n0 ≤ n1)%nat → pruneLeaf r l n1 = Some (t1, n2) → P t1) →
  ∀ fuel r n r' n', (n0 ≤ n)%nat → P r →
    prune_loop h maxLeaves samples fuel r n = Some (r', n') → P r' ∧ (n ≤ n')%nat.
Proof.
  intros HP fuel. induction fuel as [|fuel IH]; intros r n r' n' Hn Hr Hl; cbn in Hl.
  - destruct (_ <=? _)%Z; [injection Hl as <- <-; split; [exact Hr|lia]|discriminate].
  - destruct (_ <=? _)%Z; [injection Hl as <- <-; split; [exact Hr|lia]|].
    destruct (best_prune h samples r (Tree_Leaves r) n None) as [[best n1]|] eqn:Eb;
      [|discriminate]. cbn in Hl.
    destruct (best_prune_inv P h samples r n0 (λ l n1 t1 n2 H1 H2, HP r l n1 t1 n2 Hr H1 H2)
                (Tree_Leaves r) n None best n1 Hn (λ _ _ H, match H with end) Eb)
      as (Hn1 & Hbest).
    destruct best as [[q bt]|]; [|discriminate].
    apply IH in Hl as [HPr' Hn']; [split; [exact HPr'|lia] | lia | eapply Hbest; reflexivity].
Qed.

Lemma Tree_Copy_spec {F} (r : tree F) :
  ∀ (st : LeafStore) n st1 c n',
    (∀ a, a ∈ leaf_ptrs r → (a < n)%nat) →
    Tree_Copy st r n = Some (st1, c, n') →
    (n ≤ n')%nat ∧
    (∀ a, a ∈ node_ptrs c ++ leaf_ptrs c → (n ≤ a < n')%nat) ∧
    (∀ k, (k < n)%nat → st1 !! k = st !! k) ∧
    (∀ l, l ∈ leaf_ptrs c → ∃ l0, l0 ∈ leaf_ptrs r ∧ is_Some (st !! l0) ∧ st1 !! l = st !! l0).
Proof.
  induction r as [m l|m f fb IHf tb IHt]; intros st n st1 c n' Hlt Hc; cbn in Hc.
  - destruct (st !! l) as [lf|] eqn:El; [|discriminate]. cbn in Hc.
    injection Hc as <- <- <-. split; [|split; [|split]].
    + lia.
    + intros a Ha. cbn in Ha. apply elem_of_cons in Ha as [->|Ha]; [lia|].
      apply list_elem_of_singleton in Ha as ->. lia.
    + intros k Hk. apply lookup_insert_ne. lia.
    + intros l' Hl'. cbn in Hl'. apply list_elem_of_singleton in Hl' as ->.
      exists l. split; [left|]. rewrite El, lookup_insert_eq. split; [eexists|]; reflexivity.
  - destruct (Tree_Copy st fb n) as [[[st2 fb'] n1]|] eqn:Ef; [|discriminate]. cbn in Hc.
    destruct (Tree_Copy st2 tb n1) as [[[st3 tb'] n2]|] eqn:Et; [|discriminate]. cbn in Hc.
    injection Hc as <- <- <-.
    assert (Hlf : ∀ a, a ∈ leaf_ptrs fb → (a < n)%nat)
      by (intros a Ha; apply Hlt; cbn; apply elem_of_app; auto).
    destruct (IHf st n st2 fb' n1 Hlf Ef) as (Hn1 & Hrf & Hsf & Hlvf).
    assert (Hlt' : ∀ a, a ∈ leaf_ptrs tb → (a < n1)%nat)
      by (intros a Ha; cut (a < n)%nat; [lia|]; apply Hlt; cbn; apply elem_of_app; auto).
    destruct (IHt st2 n1 st3 tb' n2 Hlt' Et) as (Hn2 & Hrt & Hst & Hlvt).
    split; [|split; [|split]].
    + lia.
    + intros a Ha. cbn in Ha. apply elem_of_cons in Ha as [->|Ha]; [lia|].
      rewrite !elem_of_app in Ha.
      destruct Ha as [[Ha|Ha]|[Ha|Ha]].
      * assert (n ≤ a < n1)%nat by (apply Hrf; apply elem_of_app; auto). lia.
      * assert (n1 ≤ a < n2)%nat by (apply Hrt; apply elem_of_app; auto). lia.
      * assert (n ≤ a < n1)%nat by (apply Hrf; apply elem_of_app; auto). lia.
      * assert (n1 ≤ a < n2)%nat by (apply Hrt; apply elem_of_app; auto). lia.
    + intros k Hk. rewrite Hst by lia. apply Hsf. exact Hk.
    + intros l Hl. cbn in Hl. apply elem_of_app in Hl as [Hl|Hl].
      * destruct (Hlvf l Hl) as (l0 & Hl0 & Hs & Heq). exists l0.
        split; [cbn; apply elem_of_app; auto|]. split; [exact Hs|].
        rewrite Hst; [exact Heq|].
        assert (n ≤ l < n1)%nat by (apply Hrf; apply elem_of_app; auto). lia.
      * destruct (Hlvt l Hl) as (l0 & Hl0 & Hs & Heq). exists l0.
        split; [cbn; apply elem_of_app; auto|].
        rewrite Heq, Hsf; [split; [rewrite <- Hsf; [exact Hs|]|reflexivity]|];
          apply Hlt; cbn; apply elem_of_app; auto.
Qed.

Lemma leafSums_from_some (t : UTree) (samples : list vecSample) :
  ∀ sums sums', leafSums_from t sums samples = Some sums' →
  ∀ l k0, sums !! l = Some k0 →
    ∃ k', kahanSum_AddAll k0
            (map snd (filter (λ s : vecSample, UTree_Evaluate s.1 t = Some l) samples)) = Some k' ∧
          sums' !! l = Some k'.
Proof.
  induction samples as [|s rest IH]; intros sums sums' Hs l k0 Hk0; cbn in Hs.
  - injection Hs as <-. exists k0. auto.
  - destruct (leafSums_add t sums s) as [sums1|] eqn:Ea; [|discriminate]. cbn in Hs.
    unfold leafSums_add in Ea.
    destruct (UTree_Evaluate s.1 t) as [leaf|] eqn:Ev; [|discriminate]. cbn in Ea.
    rewrite filter_cons. destruct (decide (UTree_Evaluate s.1 t = Some l)) as [Hl|Hl].
    + rewrite Ev in Hl. injection Hl as ->. rewrite Hk0 in Ea.
      destruct (kahanSum_Add k0 s.2) as [k|] eqn:Ek; [|discriminate]. cbn in Ea.
      injection Ea as <-. cbn. rewrite Ek.
      apply (IH _ _ Hs). apply lookup_insert_eq.
    + assert (leaf ≠ l) by (intros ->; apply Hl; exact Ev).
      destruct (kahanSum_Add _ s.2) as [k|]; [|discriminate]. cbn in Ea.
      injection Ea as <-. apply (IH _ _ Hs). rewrite lookup_insert_ne by congruence. exact Hk0.
Qed.

Lemma leafSums_from_none (t : UTree) (samples : list vecSample) :
  ∀ sums sums', leafSums_from t sums samples = Some sums' →
  ∀ l, sums !! l = None →
    (filter (λ s : vecSample, UTree_Evaluate s.1 t = Some l) samples = [] ∧ sums' !! l = None) ∨
    (∃ v vs k', map snd (filter (λ s : vecSample, UTree_Evaluate s.1 t = Some l) samples) = v :: vs ∧
       kahanSum_AddAll (newKahanSum (length v)) (v :: vs) = Some k' ∧ sums' !! l = Some k').
Proof.
  induction samples as [|s rest IH]; intros sums sums' Hs l Hn; cbn in Hs.
  - injection Hs as <-. left. auto.
  - destruct (leafSums_add t sums s) as [sums1|] eqn:Ea; [|discriminate]. cbn in Hs.
    unfold leafSums_add in Ea.
    destruct (UTree_Evaluate s.1 t) as [leaf|] eqn:Ev; [|discriminate]. cbn in Ea.
    rewrite filter_cons. destruct (decide (UTree_Evaluate s.1 t = Some l)) as [Hl|Hl].
    + rewrite Ev in Hl. injection Hl as ->. rewrite Hn in Ea.
      destruct (kahanSum_Add _ s.2) as [k|] eqn:Ek; [|discriminate]. cbn in Ea.
      injection Ea as <-. right.
      destruct (leafSums_from_some t rest _ _ Hs l k (lookup_insert_eq _ _ _)) as (k' & Hk' & Hl').
      exists s.2, (map snd (filter (λ s : vecSample, UTree_Evaluate s.1 t = Some l) rest)), k'.
      split; [reflexivity|]. split; [|exact Hl']. cbn [kahanSum_AddAll]. rewrite Ek. exact Hk'.
    + assert (leaf ≠ l) by (intros ->; apply Hl; exact Ev).
      destruct (kahanSum_Add _ s.2) as [k|]; [|discriminate]. cbn in Ea.
      injection Ea as <-. apply (IH _ _ Hs). rewrite lookup_insert_ne by congruence. exact Hn.
Qed.

Lemma UTree_Evaluate_leaf (ts : TimestepSample) (t : UTree) (l : nat) :
  UTree_Evaluate ts t = Some l → l ∈ leaf_ptrs t.
Proof.
  induction t as [m l'|m fs fb IHf tb IHt]; cbn; intros He.
  - injection He as ->. left.
  - apply elem_of_app.
    destruct (union_test ts fs) as [[]|]; [right; auto|left; auto|discriminate].
Qed.

Lemma set_deltas_spec (h : Heuristic) (L : list (nat * kahanSum)) :
  ∀ st st', NoDup L.*1 → set_deltas h L st = Some st' →
  ∀ l, (∀ k, (l, k) ∈ L → ∃ lf out, st !! l = Some lf ∧ H_LeafOutput h (ksum k) = Some out ∧
                            st' !! l = Some (mkLeaf out (LeafFeature lf))) ∧
       (l ∉ L.*1 → st' !! l = st !! l).
Proof.
  induction L as [|[l0 k0] L IH]; intros st st' Hnd Hs l; cbn in Hs.
  - injection Hs as <-. split; [intros k Hk; inversion Hk|reflexivity].
  - destruct (H_LeafOutput h (ksum k0)) as [out|] eqn:Eo; [|discriminate]. cbn in Hs.
    destruct (st !! l0) as [lf|] eqn:El; [|discriminate]. cbn in Hs.
    cbn in Hnd. apply NoDup_cons in Hnd as [Hnin Hnd].
    destruct (IH _ _ Hnd Hs l) as [IH1 IH2]. split.
    + intros k Hk. apply elem_of_cons in Hk as [Hk|Hk].
      * injection Hk as -> ->. exists lf, out. split; [exact El|]. split; [exact Eo|].
        rewrite IH2 by exact Hnin. apply lookup_insert_eq.
      * destruct (IH1 k Hk) as (lf' & out' & Hl & Ho & Hl').
        assert (l ≠ l0).
        { intros ->. apply Hnin. apply list_elem_of_fmap. exists (l0, k). auto. }
        exists lf', out'. rewrite lookup_insert_ne in Hl by congruence. auto.
    + intros Hnin'. cbn in Hnin'. apply not_elem_of_cons in Hnin' as [Hne Hnin'].
      rewrite IH2 by exact Hnin'. apply lookup_insert_ne. congruence.
Qed.

Lemma prune_loop_done (h : Heuristic) (m : Z) (samples : list vecSample) fuel r n :
  (Z.of_nat (length (Tree_Leaves r)) ≤ m)%Z →
  prune_loop h m samples fuel r n = Some (r, n).
Proof.
  intros Hle. destruct fuel; cbn; apply Z.leb_le in Hle; rewrite Hle; reflexivity.
Qed.

Lemma root_ptr_in {F} (t : tree F) : root_ptr t ∈ node_ptrs t.
Proof. destruct t; cbn; left. Qed.

Lemma map_to_list_fst_none (sums : gmap nat kahanSum) (k : nat) :
  sums !! k = None → k ∉ (map_to_list sums).*1.
Proof.
  intros Hn Hin. apply list_elem_of_fmap in Hin as ([k' v] & -> & Hin).
  apply elem_of_map_to_list in Hin. cbn in Hn. congruence.
Qed.

Lemma filter_routed_leaf (samples : list vecSample) (c : UTree) (l : nat) v vs :
  map snd (filter (λ s : vecSample, UTree_Evaluate s.1 c = Some l) samples) = v :: vs →
  l ∈ leaf_ptrs c.
Proof.
  destruct (filter _ samples) as [|s rest] eqn:Ef; [discriminate|]. intros _.
  assert (Hs : s ∈ filter (λ s : vecSample, UTree_Evaluate s.1 c = Some l) samples)
    by (rewrite Ef; left).
  apply list_elem_of_filter in Hs as [Hs _]. eapply UTree_Evaluate_leaf. exact Hs.
Qed.

(** The sum of a leaf of the copy [c] with no routed sample is absent. *)
Lemma leafSums_unrouted (samples : list vecSample) (c : UTree) (sums : gmap nat kahanSum)
    (l : nat) :
  leafSums samples c = Some sums → l ∉ leaf_ptrs c → sums !! l = None.
Proof.
  intros Hs Hl. destruct (leafSums_from_none c samples ∅ sums Hs l (lookup_empty l))
    as [[_ Hn]|(v & vs & k & Hf & _ & _)]; [exact Hn|].
  exfalso. apply Hl. eapply filter_routed_leaf. exact Hf.
Qed.

End PruneFacts.

(** C8 (amended).  [Pruner.Prune] returns the input tree itself, with the
    leaf store untouched, when the tree has at most [MaxLeaves] leaves.
    When it prunes, it returns a copy made of fresh [Tree] structs and fresh
    leaves (sharing no node or leaf with the input, and overwriting no leaf
    in the store), the input's leaves keep their values, and each leaf of
    the copy that receives at least one sample gets the heuristic's
    [LeafOutput] of the Kahan sum of the vectors of the samples routed to it;
    a leaf of the copy that receives no sample keeps the output delta (and
    feature) copied from a leaf of the input tree. *)
Theorem Pruner_Prune_spec (h : Heuristic) (maxLeaves : Z) (samples : list vecSample)
    (t : UTree) (st : LeafStore) (next : nat) :
  (1 ≤ maxLeaves)%Z →
  ((Z.of_nat (length (Tree_Leaves t)) ≤ maxLeaves)%Z →
     Pruner_Prune h maxLeaves samples t st next = Some (t, st, next)) ∧
  (NoDup (node_ptrs t) →
   (∀ a, a ∈ node_ptrs t ++ leaf_ptrs t → (a < next)%nat) →
   (∀ a, is_Some (st !! a) → (a < next)%nat) →
   (maxLeaves < Z.of_nat (length (Tree_Leaves t)))%Z →
   ∀ t' st' next', Pruner_Prune h maxLeaves samples t st next = Some (t', st', next') →
   (∀ a, a ∈ node_ptrs t' ++ leaf_ptrs t' →
      (a ∉ node_ptrs t ++ leaf_ptrs t) ∧ st !! a = None) ∧
   (∀ a, (a < next)%nat → st' !! a = st !! a) ∧
   (∀ l, l ∈ leaf_ptrs t' →
      match map snd (filter (λ s : vecSample, UTree_Evaluate s.1 t' = Some l) samples) with
      | [] => ∃ l0, l0 ∈ leaf_ptrs t ∧ is_Some (st !! l0) ∧ st' !! l = st !! l0
      | v :: vs => ∃ k out, kahanSum_AddAll (newKahanSum (length v)) (v :: vs) = Some k ∧
                     H_LeafOutput h (ksum k) = Some out ∧ OutputDelta <$> st' !! l = Some out
      end)).
Proof.
  intros Hmax. assert (Hm : (maxLeaves <? 1)%Z = false) by (apply Z.ltb_ge; lia). split.
  { intros Hle. unfold Pruner_Prune. rewrite Hm, prune_loop_done by exact Hle. cbn.
    rewrite Nat.eqb_refl. reflexivity. }
  intros Hnd Hlt Hst Hgt t' st' next' Hp.
  unfold Pruner_Prune in Hp. rewrite Hm in Hp.
  destruct (prune_loop h maxLeaves samples _ t next) as [[result next1]|] eqn:El;
    [|discriminate]. cbn in Hp.
  (* the invariant of the pruned trees *)
  set (P := λ r : UTree,
         (∀ a, a ∈ node_ptrs r → (a ∈ node_ptrs t ∧ a ≠ root_ptr t) ∨ (next ≤ a)%nat) ∧
         (∀ a, a ∈ leaf_ptrs r → a ∈ leaf_ptrs t)).
  assert (HPstep : ∀ r l n1 t1 n2, P r → (next ≤ n1)%nat →
             pruneLeaf r l n1 = Some (t1, n2) → P t1).
  { intros r l n1 t1 n2 [Hn Hl] Hn1 Hpl.
    destruct (pruneLeaf_nodes _ _ _ _ _ Hpl) as (_ & Hl1 & Hn1' & _). split.
    - intros a Ha. destruct (Hn1' a Ha) as [Ha'|Ha']; [exact (Hn a Ha')|right; lia].
    - intros a Ha. apply Hl, Hl1, Ha. }
  destruct t as [m l|m fs fb tb].
  { exfalso. cbn in Hgt. lia. }
  assert (HPfirst : ∀ l n1 t1 n2, (next ≤ n1)%nat →
            pruneLeaf (TBranch m fs fb tb) l n1 = Some (t1, n2) → P t1).
  { intros l n1 t1 n2 Hn1 Hpl.
    destruct (pruneLeaf_nodes _ _ _ _ _ Hpl) as (_ & Hl1 & _ & Hsub). split.
    - intros a Ha. destruct (Hsub _ _ _ _ eq_refl a Ha) as [Ha'|Ha']; [left|right; lia].
      cbn. split; [apply elem_of_cons; right; exact Ha'|].
      intros ->. cbn in Hnd. apply NoDup_cons in Hnd as [Hnin _]. exact (Hnin Ha').
    - exact Hl1. }
  (* the first round of the loop, then the others *)
  assert (HPres : P result ∧ (next ≤ next1)%nat).
  { remember (length (Tree_Leaves (TBranch m fs fb tb))) as fuel eqn:Ef.
    destruct fuel as [|fuel]; [exfalso; lia|]. cbn [prune_loop] in El.
    assert (Hc : (Z.of_nat (length (Tree_Leaves (TBranch m fs fb tb))) <=? maxLeaves)%Z = false)
      by (apply Z.leb_gt; rewrite <- Ef; exact Hgt).
    rewrite Hc in El.
    destruct (best_prune h samples _ _ next None) as [[best n1]|] eqn:Eb; [|discriminate].
    cbn in El.
    destruct (best_prune_inv P h samples _ next HPfirst _ next None best n1 (le_n _)
                (λ _ _ H, match H with end) Eb) as (Hn1 & Hbest).
    destruct best as [[q bt]|]; [|discriminate].
    destruct (prune_loop_inv P h maxLeaves samples next HPstep fuel bt n1 result next1)
      as [HPr Hn']; [lia|eapply Hbest; reflexivity|exact El|].
    split; [exact HPr|lia]. }
  destruct HPres as [[HPn HPl] Hnext1].
  set (t := TBranch m fs fb tb) in *.
  (* the result is not the input tree: it is copied *)
  assert (Hroot : Nat.eqb (root_ptr result) (root_ptr t) = false).
  { apply Nat.eqb_neq. intros Heq.
    destruct (HPn _ (root_ptr_in result)) as [[_ Hne]|Hge]; [exact (Hne Heq)|].
    assert (root_ptr t < next)%nat by (apply Hlt; apply elem_of_app; left; apply root_ptr_in).
    lia. }
  rewrite Hroot in Hp.
  destruct (Tree_Copy st result next1) as [[[st1 c] next2]|] eqn:Ec; [|discriminate].
  cbn in Hp. unfold recomputeOutputDeltas in Hp.
  destruct (leafSums samples c) as [sums|] eqn:Es; [|discriminate]. cbn in Hp.
  destruct (set_deltas h (map_to_list sums) st1) as [st2|] eqn:Ed; [|discriminate].
  injection Hp as <- <- <-.
  destruct (Tree_Copy_spec result st next1 st1 c next2) as (Hn2 & Hrange & Hkeep & Hleaves);
    [|exact Ec|].
  { intros a Ha. cut (a < next)%nat; [lia|]. apply Hlt, elem_of_app. right. apply HPl, Ha. }
  pose proof (set_deltas_spec h (map_to_list sums) st1 st2 (NoDup_fst_map_to_list sums) Ed)
    as Hset.
  split; [|split].
  - intros a Ha. assert (Hge : (next ≤ a)%nat) by (specialize (Hrange a Ha); lia).
    split.
    + intros Hin. specialize (Hlt a Hin). lia.
    + destruct (st !! a) eqn:Ea; [|reflexivity].
      exfalso. assert (a < next)%nat by (apply Hst; rewrite Ea; eexists; reflexivity). lia.
  - intros a Ha. destruct (Hset a) as [_ Hout].
    rewrite Hout.
    + apply Hkeep. lia.
    + apply map_to_list_fst_none. apply (leafSums_unrouted samples c sums a Es).
      intros Hin. specialize (Hrange a (proj2 (elem_of_app _ _ _) (or_intror Hin))). lia.
  - intros l Hl.
    destruct (leafSums_from_none c samples ∅ sums Es l (lookup_empty l))
      as [[Hf Hn]|(v & vs & k & Hf & Hk & Hsl)].
    + rewrite Hf. cbn.
      destruct (Hleaves l Hl) as (l0 & Hl0 & Hs0 & Heq).
      exists l0. split; [exact (HPl l0 Hl0)|]. split; [exact Hs0|].
      destruct (Hset l) as [_ Hout]. rewrite Hout by (apply map_to_list_fst_none; exact Hn).
      exact Heq.
    + rewrite Hf. exists k.
      destruct (Hset l) as [Hin _].
      destruct (Hin k) as (lf & out & _ & Ho & Hl2); [apply elem_of_map_to_list; exact Hsl|].
      exists out. split; [exact Hk|]. split; [exact Ho|]. rewrite Hl2. reflexivity.
Qed.

Lemma Pruner_Prune_spec_witness :
  (1 ≤ 2)%Z ∧
  ((Z.of_nat (length (Tree_Leaves ex_prune_tree)) ≤ 2)%Z →
     Pruner_Prune GradientHeuristicQ 2 ex_prune_samples ex_prune_tree ex_prune_store 20
     = Some (ex_prune_tree, ex_prune_store, 20%nat)) ∧
  (NoDup (node_ptrs ex_prune_tree) →
   (∀ a, a ∈ node_ptrs ex_prune_tree ++ leaf_ptrs ex_prune_tree → (a < 20)%nat) →
   (∀ a, is_Some (ex_prune_store !! a) → (a < 20)%nat) →
   (2 < Z.of_nat (length (Tree_Leaves ex_prune_tree)))%Z →
   ∀ t' st' next',
   Pruner_Prune GradientHeuristicQ 2 ex_prune_samples ex_prune_tree ex_prune_store 20
     = Some (t', st', next') →
   (∀ a, a ∈ node_ptrs t' ++ leaf_ptrs t' →
      (a ∉ node_ptrs ex_prune_tree ++ leaf_ptrs ex_prune_tree) ∧ ex_prune_store !! a = None) ∧
   (∀ a, (a < 20)%nat → st' !! a = ex_prune_store !! a) ∧
   (∀ l, l ∈ leaf_ptrs t' →
      match map snd (filter (λ s : vecSample, UTree_Evaluate s.1 t' = Some l)
                       ex_prune_samples) with
      | [] => ∃ l0, l0 ∈ leaf_ptrs ex_prune_tree ∧ is_Some (ex_prune_store !! l0) ∧
                    st' !! l = ex_prune_store !! l0
      | v :: vs => ∃ k out, kahanSum_AddAll (newKahanSum (length v)) (v :: vs) = Some k ∧
                     H_LeafOutput GradientHeuristicQ (ksum k) = Some out ∧
                     OutputDelta <$> st' !! l = Some out
      end)).
Proof.
  split; [lia|].
  apply (Pruner_Prune_spec GradientHeuristicQ 2 ex_prune_samples ex_prune_tree
           ex_prune_store 20).
  lia.
Defined.

(** C8 (as stated, refuted).  Pruning the three-leaf example to two leaves
    keeps its false-branch subtree; in the copy, the leaf that no sample
    reaches is not recomputed: it keeps the output delta [[7; 7]] copied from
    the input, which is not the [GradientHeuristic.LeafOutput] of any
    two-dimensional sum (the sample vectors all have two entries). *)
Lemma Pruner_Prune_stale_leaf :
  ∃ t' st' next' l lf,
    Pruner_Prune GradientHeuristicQ 2 ex_prune_samples ex_prune_tree ex_prune_store 20
      = Some (t', st', next') ∧
    l ∈ leaf_ptrs t' ∧
    filter (λ s : vecSample, UTree_Evaluate s.1 t' = Some l) ex_prune_samples = [] ∧
    st' !! l = Some lf ∧ OutputDelta lf = [7; 7]%Q ∧
    Forall (λ s : vecSample, length s.2 = 2%nat) ex_prune_samples ∧
    (∀ v out, length v = 2%nat → GradientHeuristic_LeafOutput v = Some out →
       out ≠ OutputDelta lf).
Proof.
  eexists _, _, _, 25%nat, (mkLeaf [7; 7]%Q 0). split; [vm_compute; reflexivity|].
  split; [vm_compute; right; left|].
  split; [vm_compute; reflexivity|].
  split; [vm_compute; reflexivity|].
  split; [reflexivity|].
  split; [repeat constructor|].
  intros v out Hv Ho. unfold GradientHeuristic_LeafOutput in Ho.
  destruct v as [|c [|x [|y v]]]; cbn in Hv; try discriminate.
  cbn in Ho. injection Ho as <-. discriminate.
Qed.

(** ** Bitmap (part_011) *)

Section BitmapFacts.

Lemma land_pow2_eqb (x k : Z) :
  0 <= k → (Z.land x (Z.shiftl 1 k) =? 0) = negb (Z.testbit x k).
Proof.
  intros Hk. rewrite Z.shiftl_1_l.
  destruct (Z.testbit x k) eqn:E; simpl.
  - apply Z.eqb_neq. intros H0.
    assert (Hb : Z.testbit (Z.land x (2 ^ k)) k = false) by (rewrite H0; apply Z.testbit_0_l).
    rewrite Z.land_spec, E, Z.pow2_bits_eqb, Z.eqb_refl in Hb by exact Hk. discriminate.
  - apply Z.eqb_eq. apply Z.bits_inj_iff'. intros m Hm.
    rewrite Z.land_spec, Z.testbit_0_l, Z.pow2_bits_eqb by exact Hk.
    destruct (Z.eqb_spec k m) as [<-|]; [rewrite E; reflexivity|apply andb_false_r].
Qed.

Lemma byte_bits_high (y m : Z) : 0 <= y < 256 → 8 <= m → Z.testbit y m = false.
Proof.
  intros Hy Hm. rewrite <- (Z.mod_small y (2 ^ 8)) by (simpl; lia).
  apply Z.mod_pow2_bits_high. lia.
Qed.

Lemma byte_bound (y : Z) :
  0 <= y → (∀ m, 8 <= m → Z.testbit y m = false) → 0 <= y < 256.
Proof.
  intros Hy Hm.
  assert (E : y = Z.land y (Z.ones 8)).
  { apply Z.bits_inj_iff'. intros m Hm0.
    rewrite Z.land_spec, Z.testbit_ones by lia.
    destruct (Z.ltb_spec m 8).
    - replace (0 <=? m) with true by (symmetry; apply Z.leb_le; lia). simpl.
      symmetry; apply andb_true_r.
    - rewrite Hm by lia. reflexivity. }
  rewrite E, Z.land_ones by lia. apply Z.mod_pos_bound. simpl. lia.
Qed.

Lemma shiftr3 (i : Z) : Z.shiftr i 3 = i / 8.
Proof. rewrite Z.shiftr_div_pow2 by lia. reflexivity. Qed.

Lemma land7 (i : Z) : Z.land i 7 = i mod 8.
Proof. change 7 with (Z.ones 3). rewrite Z.land_ones by lia. reflexivity. Qed.

(** In range, [Get] reads bit [i mod 8] of byte [i / 8]. *)
Lemma Bitmap_Get_bit (b : Bitmap) (i : Z) :
  Bitmap_WF b → 0 <= i < numBits b →
  ∃ byte, bytes b !! Z.to_nat (i / 8) = Some byte ∧
    Bitmap_Get b i = Some (Z.testbit byte (i mod 8)).
Proof.
  intros (H0 & Hlen & _) Hi.
  destruct (lookup_lt_is_Some_2 (bytes b) (Z.to_nat (i / 8))) as [byte Eb].
  { apply Nat2Z.inj_lt. rewrite Z2Nat.id by (apply Z.div_pos; lia).
    apply Z.div_lt_upper_bound; lia. }
  exists byte. split; [exact Eb|].
  unfold Bitmap_Get, slice_get.
  replace ((i <? 0) || (i >=? numBits b)) with false
    by (rewrite Z.geb_leb; destruct (Z.ltb_spec i 0), (Z.leb_spec (numBits b) i);
        try lia; reflexivity).
  rewrite shiftr3.
  replace ((0 <=? i / 8) && (i / 8 <? Z.of_nat (length (bytes b)))) with true.
  2:{ symmetry. apply andb_true_iff. split; [apply Z.leb_le, Z.div_pos; lia|].
      apply Z.ltb_lt, Z.div_lt_upper_bound; lia. }
  rewrite Eb. cbn. rewrite land7, land_pow2_eqb, negb_involutive
    by (apply Z.mod_pos_bound; lia). reflexivity.
Qed.

(** The byte written by [Set] at bit [k]. *)
Lemma set_byte_bits (byte k m : Z) (v : bool) :
  0 <= byte < 256 → 0 <= k < 8 → 0 <= m →
  Z.testbit (if v then Z.lor byte (Z.shiftl 1 k)
             else Z.land byte (Z.lxor (Z.shiftl 1 k) 255)) m
  = if m =? k then v else Z.testbit byte m.
Proof.
  intros Hb Hk Hm. rewrite Z.shiftl_1_l.
  destruct v.
  - rewrite Z.lor_spec, Z.pow2_bits_eqb by lia.
    destruct (Z.eqb_spec m k) as [->|Hne].
    + rewrite Z.eqb_refl. apply orb_true_r.
    + replace (k =? m) with false by (symmetry; apply Z.eqb_neq; lia). apply orb_false_r.
  - rewrite Z.land_spec, Z.lxor_spec, Z.pow2_bits_eqb by lia.
    change 255 with (Z.ones 8). rewrite Z.testbit_ones by lia.
    destruct (Z.eqb_spec m k) as [->|Hne].
    + rewrite Z.eqb_refl.
      replace ((0 <=? k) && (k <? 8)) with true
        by (symmetry; apply andb_true_iff; split; [apply Z.leb_le|apply Z.ltb_lt]; lia).
      apply andb_false_r.
    + replace (k =? m) with false by (symmetry; apply Z.eqb_neq; lia).
      replace (0 <=? m) with true by (symmetry; apply Z.leb_le; lia).
      destruct (Z.ltb_spec m 8); simpl.
      * apply andb_true_r.
      * rewrite byte_bits_high by lia. reflexivity.
Qed.

Lemma Bitmap_Get_out (b : Bitmap) (i : Z) :
  i < 0 ∨ numBits b <= i → Bitmap_Get b i = None.
Proof.
  intros Hi. unfold Bitmap_Get.
  replace ((i <? 0) || (i >=? numBits b)) with true; [reflexivity|].
  rewrite Z.geb_leb. destruct (Z.ltb_spec i 0), (Z.leb_spec (numBits b) i);
    try lia; reflexivity.
Qed.

(** X1: on a well-formed bitmap, [Set(i, v)] with [i] in range succeeds,
    keeps the bitmap well formed and its length, makes [Get(i)] return [v],
    and leaves [Get(j)] unchanged for every other index [j]. *)
Theorem Bitmap_Set_Get (b : Bitmap) (i : Z) (v : bool) :
  Bitmap_WF b → 0 <= i < numBits b →
  ∃ b', Bitmap_Set b i v = Some b' ∧ Bitmap_WF b' ∧ numBits b' = numBits b ∧
    Bitmap_Get b' i = Some v ∧ (∀ j, j ≠ i → Bitmap_Get b' j = Bitmap_Get b j).
Proof.
  intros Hwf Hi.
  destruct (Bitmap_Get_bit b i Hwf Hi) as (byte & Eb & _).
  destruct Hwf as (H0 & Hlen & Hbytes).
  assert (Hbr : 0 <= byte < 256)
    by (rewrite Forall_lookup in Hbytes; exact (Hbytes _ _ Eb)).
  assert (Hk : 0 <= i mod 8 < 8) by (apply Z.mod_pos_bound; lia).
  set (byte' := if v then Z.lor byte (Z.shiftl 1 (i mod 8))
                else Z.land byte (Z.lxor (Z.shiftl 1 (i mod 8)) 255)).
  set (b' := mkBitmap (numBits b) (<[Z.to_nat (i / 8) := byte']> (bytes b))).
  assert (Hset : Bitmap_Set b i v = Some b').
  { unfold Bitmap_Set, slice_get.
    replace ((i <? 0) || (i >=? numBits b)) with false
      by (rewrite Z.geb_leb; destruct (Z.ltb_spec i 0), (Z.leb_spec (numBits b) i);
          try lia; reflexivity).
    rewrite shiftr3.
    replace ((0 <=? i / 8) && (i / 8 <? Z.of_nat (length (bytes b)))) with true.
    2:{ symmetry. apply andb_true_iff. split; [apply Z.leb_le, Z.div_pos; lia|].
        apply Z.ltb_lt, Z.div_lt_upper_bound; lia. }
    rewrite Eb. cbn. rewrite land7. reflexivity. }
  assert (Hbr' : 0 <= byte' < 256).
  { apply byte_bound.
    - subst byte'. destruct v; [apply Z.lor_nonneg; split; [lia|]; rewrite Z.shiftl_1_l; apply Z.pow_nonneg; lia|].
      apply Z.land_nonneg. lia.
    - intros m Hm. subst byte'. rewrite set_byte_bits by lia.
      replace (m =? i mod 8) with false by (symmetry; apply Z.eqb_neq; lia).
      apply byte_bits_high; lia. }
  assert (Hwf' : Bitmap_WF b').
  { split; [exact H0|split].
    - simpl. rewrite length_insert. exact Hlen.
    - simpl. apply Forall_insert; [exact Hbytes|exact Hbr']. }
  exists b'. split; [exact Hset|split; [exact Hwf'|split; [reflexivity|split]]].
  - destruct (Bitmap_Get_bit b' i Hwf' Hi) as (y & Ey & ->).
    simpl in Ey. rewrite list_lookup_insert_eq in Ey.
    2:{ apply Nat2Z.inj_lt. rewrite Z2Nat.id by (apply Z.div_pos; lia).
        apply Z.div_lt_upper_bound; lia. }
    injection Ey as <-. subst byte'. rewrite set_byte_bits, Z.eqb_refl by lia. reflexivity.
  - intros j Hj.
    destruct (decide (0 <= j < numBits b)) as [Hjr|Hjr].
    2:{ rewrite !Bitmap_Get_out; [reflexivity|lia|simpl; lia]. }
    destruct (Bitmap_Get_bit b j (conj H0 (conj Hlen Hbytes)) Hjr) as (z & Ez & ->).
    destruct (Bitmap_Get_bit b' j Hwf' Hjr) as (y & Ey & ->).
    simpl in Ey.
    destruct (Z.eq_dec (j / 8) (i / 8)) as [Heq|Hne].
    + rewrite Heq in Ey, Ez. rewrite Eb in Ez. injection Ez as <-.
      rewrite list_lookup_insert_eq in Ey.
      2:{ apply Nat2Z.inj_lt. rewrite Z2Nat.id by (apply Z.div_pos; lia).
          apply Z.div_lt_upper_bound; lia. }
      injection Ey as <-. subst byte'.
      rewrite set_byte_bits by (try apply Z.mod_pos_bound; lia).
      replace (j mod 8 =? i mod 8) with false; [reflexivity|].
      symmetry. apply Z.eqb_neq. intros Hm.
      pose proof (Z.div_mod j 8). pose proof (Z.div_mod i 8). lia.
    + rewrite list_lookup_insert_ne in Ey.
      2:{ intros E. apply Hne. apply Z2Nat.inj in E; [lia| |]; apply Z.div_pos; lia. }
      congruence.
Qed.

(** X2: for [n >= 0], [NewBitmap(n)] allocates [ceil(n/8)] bytes, all
    zero, and is a well-formed bitmap of [n] bits whose [Get(i)] returns
    false for every [i] in [0, n) and panics outside. *)
Theorem NewBitmap_spec (n : Z) :
  0 <= n →
  length (bytes (NewBitmap n)) = Z.to_nat ((n + 7) / 8) ∧
  Forall (λ x, x = 0) (bytes (NewBitmap n)) ∧
  Bitmap_WF (NewBitmap n) ∧ numBits (NewBitmap n) = n ∧
    ∀ i, Bitmap_Get (NewBitmap n) i = if decide (0 <= i < n) then Some false else None.
Proof.
  intros Hn.
  split.
  { unfold NewBitmap. simpl. rewrite repeat_length. f_equal.
    rewrite Z.rem_mod_nonneg, Z.quot_div_nonneg by lia.
    pose proof (Z.div_mod n 8). pose proof (Z.mod_pos_bound n 8).
    destruct (Z.eqb_spec (n mod 8) 0) as [E|E].
    - apply Z.div_unique with (r := n mod 8 + 7); lia.
    - apply Z.div_unique with (r := n mod 8 - 1); lia. }
  split.
  { unfold NewBitmap. simpl. apply Forall_forall. intros x Hx.
    apply list_elem_of_In, repeat_spec in Hx. exact Hx. }
  assert (Hwf : Bitmap_WF (NewBitmap n)).
  { unfold NewBitmap, Bitmap_WF. simpl. rewrite repeat_length.
    rewrite Z.rem_mod_nonneg, Z.quot_div_nonneg by lia.
    pose proof (Z.div_mod n 8). pose proof (Z.mod_pos_bound n 8).
    pose proof (Z.div_pos n 8).
    split; [exact Hn|split].
    - destruct (Z.eqb_spec (n mod 8) 0); rewrite Z2Nat.id; lia.
    - apply Forall_forall. intros x Hx. apply list_elem_of_In, repeat_spec in Hx. lia. }
  split; [exact Hwf|split; [reflexivity|]].
  intros i. destruct (decide (0 <= i < n)) as [Hi|Hi].
  - destruct (Bitmap_Get_bit _ i Hwf Hi) as (byte & Eb & ->).
    unfold NewBitmap in Eb; simpl in Eb.
    apply list_elem_of_lookup_2, list_elem_of_In, repeat_spec in Eb.
    subst byte. rewrite Z.testbit_0_l. reflexivity.
  - apply Bitmap_Get_out. simpl. lia.
Qed.

(** X3: on a well-formed bitmap, [Get(i)] and [Set(i, v)] panic exactly
    when [i < 0] or [i >= numBits]. *)
Theorem Bitmap_panics (b : Bitmap) (i : Z) (v : bool) :
  Bitmap_WF b →
  (Bitmap_Get b i = None ↔ i < 0 ∨ numBits b <= i) ∧
  (Bitmap_Set b i v = None ↔ i < 0 ∨ numBits b <= i).
Proof.
  intros Hwf. destruct (decide (0 <= i < numBits b)) as [Hi|Hi].
  - destruct (Bitmap_Get_bit b i Hwf Hi) as (byte & _ & ->).
    destruct (Bitmap_Set_Get b i v Hwf Hi) as (b' & -> & _).
    split; split; intros H; [discriminate|lia|discriminate|lia].
  - assert (Hs : Bitmap_Set b i v = None).
    { unfold Bitmap_Set.
      replace ((i <? 0) || (i >=? numBits b)) with true; [reflexivity|].
      rewrite Z.geb_leb. destruct (Z.ltb_spec i 0), (Z.leb_spec (numBits b) i);
        try lia; reflexivity. }
    rewrite Hs, Bitmap_Get_out by lia. split; split; intros; (reflexivity || lia).
Qed.

Lemma NewBitmap_10_WF : Bitmap_WF (NewBitmap 10).
Proof. cbv [Bitmap_WF NewBitmap]. simpl. split; [lia|split; [lia|repeat constructor; lia]]. Qed.

Lemma Bitmap_Set_Get_witness :
  (Bitmap_WF (NewBitmap 10) ∧ 0 <= 3 < numBits (NewBitmap 10)) ∧
  ∃ b', Bitmap_Set (NewBitmap 10) 3 true = Some b' ∧ Bitmap_WF b' ∧
    numBits b' = numBits (NewBitmap 10) ∧ Bitmap_Get b' 3 = Some true ∧
    (∀ j, j ≠ 3 → Bitmap_Get b' j = Bitmap_Get (NewBitmap 10) j).
Proof.
  split; [split; [exact NewBitmap_10_WF|simpl; lia]|].
  apply (Bitmap_Set_Get (NewBitmap 10) 3 true NewBitmap_10_WF). simpl. lia.
Defined.

Lemma NewBitmap_spec_witness :
  0 <= 10 ∧
  length (bytes (NewBitmap 10)) = Z.to_nat ((10 + 7) / 8) ∧
  Forall (λ x, x = 0) (bytes (NewBitmap 10)) ∧
  Bitmap_WF (NewBitmap 10) ∧ numBits (NewBitmap 10) = 10 ∧
    ∀ i, Bitmap_Get (NewBitmap 10) i = if decide (0 <= i < 10) then Some false else None.
Proof. split; [lia|]. apply (NewBitmap_spec 10). lia. Defined.

Lemma Bitmap_panics_witness :
  Bitmap_WF (NewBitmap 10) ∧
  (Bitmap_Get (NewBitmap 10) 10 = None ↔ 10 < 0 ∨ numBits (NewBitmap 10) <= 10) ∧
  (Bitmap_Set (NewBitmap 10) 10 true = None ↔ 10 < 0 ∨ numBits (NewBitmap 10) <= 10).
Proof.
  split; [exact NewBitmap_10_WF|].
  apply (Bitmap_panics (NewBitmap 10) 10 true NewBitmap_10_WF).
Defined.

End BitmapFacts.

(** ** Polynomial.Apply (math_types.go) *)

Section PolyApplyFacts.
Local Open Scope Q_scope.

Lemma Polynomial_Apply_fold (p : Polynomial) (x r c : Q) :
  fst (fold_left (λ '(res, coeff) c, (res + c * coeff, coeff * x)%Q) p (r, c))
  == r + c * poly_value p x.
Proof.
  revert r c. induction p as [|a p IH]; intros r c; cbn [fold_left poly_value].
  - simpl. ring.
  - rewrite IH. ring.
Qed.

Lemma Polynomial_Apply_value (p : Polynomial) (x : Q) :
  Polynomial_Apply p x == poly_value p x.
Proof. unfold Polynomial_Apply. rewrite Polynomial_Apply_fold. ring. Qed.

Lemma poly_value_FlipX_from (i : nat) (p : Polynomial) (x : Q) :
  poly_value (FlipX_from i p) x
  == if Nat.even i then poly_value p (- x) else - poly_value p (- x).
Proof.
  revert i. induction p as [|c p IH]; intros i; cbn [FlipX_from poly_value].
  - destruct (Nat.even i); ring.
  - rewrite IH, Nat.even_succ, <- Nat.negb_even.
    destruct (Nat.even i); simpl; ring.
Qed.

Lemma poly_value_Add (p q : Polynomial) (x : Q) :
  poly_value (Polynomial_Add p q) x == poly_value p x + poly_value q x.
Proof.
  revert q. induction p as [|a p IH]; intros [|b q]; cbn [Polynomial_Add poly_value].
  - simpl. ring.
  - cbn [map poly_value].
    assert (Hm : ∀ q, poly_value (map (λ y, 0 + y) q) x == poly_value q x).
    { clear. induction q as [|c q IHq]; cbn [map poly_value]; [reflexivity|].
      rewrite IHq. ring. }
    rewrite Hm. ring.
  - simpl. ring.
  - rewrite IH. ring.
Qed.

Lemma poly_value_Scale (p : Polynomial) (s x : Q) :
  poly_value (Polynomial_Scale p s) x == poly_value p x * s.
Proof.
  induction p as [|a p IH]; cbn [Polynomial_Scale map poly_value] in *.
  - ring.
  - unfold Polynomial_Scale in IH. rewrite IH. ring.
Qed.

(** X4: [Apply] commutes with the polynomial operations: [FlipX(p)] at [x]
    is [p] at [-x], [p.Add(q)] at [x] is [p(x) + q(x)], and [p.Scale(s)] at
    [x] is [p(x) * s]. *)
Theorem Polynomial_Apply_ops (p q : Polynomial) (s x : Q) :
  Polynomial_Apply (FlipX p) x == Polynomial_Apply p (- x) ∧
  Polynomial_Apply (Polynomial_Add p q) x == Polynomial_Apply p x + Polynomial_Apply q x ∧
  Polynomial_Apply (Polynomial_Scale p s) x == Polynomial_Apply p x * s.
Proof.
  rewrite !Polynomial_Apply_value. split; [|split].
  - unfold FlipX. rewrite poly_value_FlipX_from. reflexivity.
  - apply poly_value_Add.
  - apply poly_value_Scale.
Qed.

(** X5: for outputs and targets of equal length, [Sigmoid.LossPolynomials]
    returns one polynomial per output, and polynomial [i] evaluated at [a]
    is [-(t_i * P(o_i)(a) + (1 - t_i) * P(-o_i)(-a))], where [P(x)] is
    [newPolynomialLogSigmoid(x)]. *)
Theorem Sigmoid_LossPolynomials_Apply (plog : Q → Polynomial) (outputs targets : list Q) :
  length outputs = length targets →
  ∃ ps, Sigmoid_LossPolynomials plog outputs targets = Some ps ∧
    length ps = length outputs ∧
    ∀ i p x t a, ps !! i = Some p → outputs !! i = Some x → targets !! i = Some t →
      Polynomial_Apply p a
      == - (t * Polynomial_Apply (plog x) a + (1 - t) * Polynomial_Apply (plog (- x)) (- a)).
Proof.
  intros Hl. unfold Sigmoid_LossPolynomials.
  match goal with |- context [zip_index ?f _ _] =>
    destruct (zip_index_Some f outputs targets Hl) as (r & -> & ->) end.
  eexists; split; [reflexivity|split].
  - rewrite length_zip_with. lia.
  - intros i p x t a Hp Hx Ht.
    rewrite lookup_zip_with, Hx, Ht in Hp. simpl in Hp. injection Hp as <-.
    rewrite !Polynomial_Apply_value, poly_value_Scale, poly_value_Add, !poly_value_Scale.
    unfold FlipX. rewrite poly_value_FlipX_from. simpl. ring.
Qed.

Lemma Sigmoid_LossPolynomials_Apply_witness :
  length [0] = length [1] ∧
  ∃ ps, Sigmoid_LossPolynomials (λ x, [x; 1]) [0] [1] = Some ps ∧
    length ps = length [0] ∧
    ∀ i p x t a, ps !! i = Some p → [0] !! i = Some x → [1] !! i = Some t →
      Polynomial_Apply p a
      == - (t * Polynomial_Apply [x; 1] a + (1 - t) * Polynomial_Apply [- x; 1] (- a)).
Proof.
  split; [reflexivity|].
  apply (Sigmoid_LossPolynomials_Apply (λ x, [x; 1]) [0] [1]). reflexivity.
Defined.

End PolyApplyFacts.

(** ** minimizeUnary and PolynomialHeuristic.LeafOutput *)

Section MinimizeFacts.
Local Open Scope Q_scope.

Lemma minimizeUnary_loop_bounds (f : Q → Q) (n : nat) (minX maxX : Q) (m1 m2 : option Q) :
  minX <= maxX →
  minX <= minimizeUnary_loop f n minX maxX m1 m2 <= maxX.
Proof.
  revert minX maxX m1 m2. induction n as [|n IH]; intros minX maxX m1 m2 Hle; cbn [minimizeUnary_loop].
  - split; unfold Qdiv; setoid_replace (/ 2) with (1 # 2) using relation Qeq by reflexivity; lra.
  - assert (Hw : 0 <= (maxX - minX) / Phi32 <= maxX - minX).
    { unfold Qdiv. setoid_replace (/ Phi32) with (8388608 # 13573053) using relation Qeq by reflexivity. lra. }
    match goal with |- context [if ?c then _ else _] => destruct c end;
      match goal with |- context [minimizeUnary_loop f n ?a ?b ?u ?v] =>
        destruct (IH a b u v) as [H1 H2]; [lra|split; lra] end.
Qed.

(** X6: for [minX <= maxX], [minimizeUnary] returns a point of
    [[minX, maxX]], whatever the function and the number of iterations. *)
Theorem minimizeUnary_bounds (minX maxX : Q) (iters : Z) (f : Q → Q) :
  minX <= maxX → minX <= minimizeUnary minX maxX iters f <= maxX.
Proof. intros Hle. apply minimizeUnary_loop_bounds, Hle. Qed.

Lemma ph_minimize_loop_spec (delta : Q) (polys : list Q) (n i : nat) (y : Q) :
  0 <= delta → ((i + n) * Sigmoid_LossPolynomialSize <= length polys)%nat →
  ∃ xs y', ph_minimize_loop delta polys n i y = Some (xs, y') ∧ length xs = n ∧
    Forall (λ x, - delta <= x <= delta) xs.
Proof.
  revert i y. induction n as [|n IH]; intros i y Hd Hlen; cbn [ph_minimize_loop].
  - exists [], y. split; [reflexivity|split; [reflexivity|constructor]].
  - unfold Sigmoid_LossPolynomialSize in *.
    replace ((i * 10 + 10 <=? length polys)%nat) with true
      by (symmetry; apply Nat.leb_le; lia).
    cbn [mbind option_bind].
    match goal with |- context [ph_minimize_loop delta polys n (S i) ?y0] =>
      destruct (IH (S i) y0 Hd) as (xs & y' & -> & Hl & Hf); [lia|] end.
    cbn. eexists _, _. split; [reflexivity|split; [simpl; lia|]].
    constructor; [|exact Hf].
    apply minimizeUnary_loop_bounds. lra.
Qed.

(** X7: for [MaxDelta >= 0], [PolynomialHeuristic.LeafOutput] never panics;
    it returns one entry per full block of [LossPolynomialSize] (10)
    coefficients, each in [[-delta, delta]], where [delta] is [MaxDelta], or
    1 when [MaxDelta] is 0. *)
Theorem PolynomialHeuristic_LeafOutput_bounded (p : PolynomialHeuristic) (sum : list Q) :
  0 <= MaxDelta p →
  ∃ xs, PolynomialHeuristic_LeafOutput p sum = Some xs ∧
    length xs = (length sum / Sigmoid_LossPolynomialSize)%nat ∧
    Forall (λ x, - (if Qeq_bool (MaxDelta p) 0 then 1 else MaxDelta p) <= x
                 <= (if Qeq_bool (MaxDelta p) 0 then 1 else MaxDelta p)) xs.
Proof.
  intros Hd. unfold PolynomialHeuristic_LeafOutput, PolynomialHeuristic_minimize.
  destruct (ph_minimize_loop_spec (if Qeq_bool (MaxDelta p) 0 then 1 else MaxDelta p)
              sum (length sum / Sigmoid_LossPolynomialSize) 0 0) as (xs & y & -> & Hl & Hf).
  - destruct (Qeq_bool (MaxDelta p) 0); lra.
  - unfold Sigmoid_LossPolynomialSize. rewrite Nat.add_0_l, Nat.mul_comm.
    apply Nat.Div0.mul_div_le.
  - exists xs. split; [reflexivity|split; [exact Hl|exact Hf]].
Qed.

Lemma minimizeUnary_bounds_witness :
  0 <= 1 ∧ 0 <= minimizeUnary 0 1 30 (λ x, x * x) <= 1.
Proof. split; [discriminate|]. apply (minimizeUnary_bounds 0 1 30 (λ x, x * x)). discriminate. Defined.

Lemma PolynomialHeuristic_LeafOutput_bounded_witness :
  0 <= MaxDelta (mkPolynomialHeuristic 0) ∧
  ∃ xs, PolynomialHeuristic_LeafOutput (mkPolynomialHeuristic 0) (repeat 0 20) = Some xs ∧
    length xs = (length (repeat 0 20) / Sigmoid_LossPolynomialSize)%nat ∧
    Forall (λ x, - (if Qeq_bool 0 0 then 1 else 0) <= x <= (if Qeq_bool 0 0 then 1 else 0)) xs.
Proof.
  split; [discriminate|].
  apply (PolynomialHeuristic_LeafOutput_bounded (mkPolynomialHeuristic 0) (repeat 0 20)).
  discriminate.
Defined.

End MinimizeFacts.

(** ** Hessian.Apply (math_types.go) and the loss derivatives (loss.go) *)

Section HessFacts.
Local Open Scope Q_scope.

Lemma Qsum_ext (f g : nat → Q) (s n : nat) :
  (∀ k, (s <= k < s + n)%nat → f k == g k) → Qsum f s n == Qsum g s n.
Proof.
  revert s. induction n as [|n IH]; intros s H; cbn [Qsum]; [reflexivity|].
  rewrite (H s) by lia. rewrite (IH (S s)) by (intros; apply H; lia). reflexivity.
Qed.

Lemma Qsum_plus (f g : nat → Q) (s n : nat) :
  Qsum (λ k, f k + g k) s n == Qsum f s n + Qsum g s n.
Proof. revert s. induction n as [|n IH]; intros s; cbn [Qsum]; [ring|rewrite IH; ring]. Qed.

Lemma Qsum_scale (c : Q) (f : nat → Q) (s n : nat) :
  Qsum (λ k, c * f k) s n == c * Qsum f s n.
Proof. revert s. induction n as [|n IH]; intros s; cbn [Qsum]; [ring|rewrite IH; ring]. Qed.

Lemma Qsum_zero (f : nat → Q) (s n : nat) :
  (∀ k, (s <= k < s + n)%nat → f k == 0) → Qsum f s n == 0.
Proof.
  intros H. rewrite (Qsum_ext f (λ _, 0)) by exact H.
  clear H. revert s. induction n as [|n IH]; intros s; cbn [Qsum]; [reflexivity|rewrite IH; ring].
Qed.

Lemma Qsum_single (f : nat → Q) (s n i : nat) :
  (s <= i < s + n)%nat → (∀ k, k ≠ i → (s <= k < s + n)%nat → f k == 0) →
  Qsum f s n == f i.
Proof.
  revert s. induction n as [|n IH]; intros s Hi H; [lia|cbn [Qsum]].
  destruct (decide (s = i)) as [->|Hne].
  - rewrite Qsum_zero; [ring|]. intros k Hk. apply H; lia.
  - rewrite H by lia. rewrite IH by (intros; try apply H; lia). ring.
Qed.

Lemma float_sum_acc (v : list Q) (a : Q) : fold_left Qplus v a == a + float_sum v.
Proof.
  unfold float_sum. revert a. induction v as [|x v IH]; intros a; cbn [fold_left].
  - ring.
  - rewrite IH, (IH (0 + x)). ring.
Qed.

Lemma float_sum_cons (x : Q) (v : list Q) : float_sum (x :: v) == x + float_sum v.
Proof. unfold float_sum at 1. cbn [fold_left]. rewrite float_sum_acc. ring. Qed.

Lemma float_sum_Qsum (v : list Q) (s : nat) :
  Qsum (λ k, nth (k - s) v 0) s (length v) == float_sum v.
Proof.
  revert s. induction v as [|x v IH]; intros s; cbn [Qsum length].
  - reflexivity.
  - rewrite float_sum_cons, Nat.sub_diag. cbn [nth].
    rewrite <- (IH (S s)). apply Qplus_comp; [reflexivity|].
    apply Qsum_ext. intros k Hk. replace (k - s)%nat with (S (k - S s)) by lia. reflexivity.
Qed.

Lemma vectorDot_from_Qsum (acc : Q) (a b : list Q) (s : nat) :
  (length a <= length b)%nat →
  ∃ q, vectorDot_from acc a b = Some q ∧
    q == acc + Qsum (λ k, nth (k - s) a 0 * nth (k - s) b 0) s (length a).
Proof.
  revert acc b s. induction a as [|x a IH]; intros acc [|y b] s Hl; cbn in Hl; try lia.
  - eexists; split; [reflexivity|]. cbn [Qsum length]. ring.
  - eexists; split; [reflexivity|]. cbn [Qsum length]. ring.
  - cbn [vectorDot_from].
    destruct (IH (acc + x * y) b (S s)) as (q & -> & Hq); [lia|].
    eexists; split; [reflexivity|]. rewrite Hq. cbn [Qsum length].
    assert (E : Qsum (λ k, nth (k - s) (x :: a) 0 * nth (k - s) (y :: b) 0) (S s) (length a)
                == Qsum (λ k, nth (k - S s) a 0 * nth (k - S s) b 0) (S s) (length a)).
    { apply Qsum_ext. intros k Hk. replace (k - s)%nat with (S (k - S s)) by lia. reflexivity. }
    rewrite E, Nat.sub_diag. cbn [nth]. ring.
Qed.

Lemma Apply_row_vectorDot (data : list Q) (r j : nat) (acc : Q) (v : list Q) :
  (r + j + length v <= length data)%nat →
  Apply_row data r j acc v = vectorDot_from acc (take (length v) (drop (r + j) data)) v.
Proof.
  revert j acc. induction v as [|x v IH]; intros j acc Hl; cbn [Apply_row length].
  - reflexivity.
  - cbn [length] in Hl.
    destruct (lookup_lt_is_Some_2 data (r + j)) as [a Ea]; [lia|].
    rewrite Ea.
    rewrite (drop_S _ a) by exact Ea. cbn [take vectorDot_from].
    rewrite IH by lia. replace (r + S j)%nat with (S (r + j)) by lia. reflexivity.
Qed.

Lemma Apply_row_Some (h : Hessian) (v : list Q) (i : nat) :
  (Dim h * Dim h <= length (Data h))%nat → length v = Dim h → (i < Dim h)%nat →
  ∃ q, Apply_row (Data h) (i * Dim h) 0 0 v = Some q ∧
    vectorDot (take (Dim h) (drop (i * Dim h) (Data h))) v = Some q.
Proof.
  intros Hd Hv Hi.
  assert (Hr : (i * Dim h + 0 + length v <= length (Data h))%nat).
  { rewrite Hv. transitivity (Dim h * Dim h)%nat; [|exact Hd].
    replace (Dim h * Dim h)%nat with (S i * Dim h + (Dim h - S i) * Dim h)%nat by nia. nia. }
  rewrite Apply_row_vectorDot by exact Hr. rewrite Nat.add_0_r, Hv.
  destruct (vectorDot_from_Qsum 0 (take (Dim h) (drop (i * Dim h) (Data h))) v 0)
    as (q & E & _).
  { rewrite length_take, Hv. lia. }
  exists q. split; [exact E|exact E].
Qed.

Lemma Hessian_Apply_ok (h : Hessian) (v : list Q) :
  (Dim h * Dim h <= length (Data h))%nat → length v = Dim h →
  ∃ r, Hessian_Apply h v = Some r ∧ length r = Dim h ∧
     ∀ i, (i < Dim h)%nat → r !! i = vectorDot (take (Dim h) (drop (i * Dim h) (Data h))) v.
Proof.
  intros Hd Hv. unfold Hessian_Apply.
  replace ((length v =? Dim h)%nat) with true by (symmetry; apply Nat.eqb_eq, Hv).
  cbn [negb].
  assert (Hm : ∃ r, mapM (λ i, Apply_row (Data h) (i * Dim h)%nat 0 0 v) (seq 0 (Dim h))
                    = Some r).
  { apply mapM_is_Some_2. apply Forall_forall. intros i Hi.
    apply list_elem_of_In, in_seq in Hi.
    destruct (Apply_row_Some h v i Hd Hv) as (q & E & _); [lia|].
    unfold compose. rewrite E. eauto. }
  destruct Hm as (r & Er). rewrite Er. exists r.
  apply mapM_Some_1 in Er.
  split; [reflexivity|split].
  - apply Forall2_length in Er. rewrite length_seq in Er. lia.
  - intros i Hi.
    destruct (Forall2_lookup_l _ _ _ i i Er) as (q & Eq & Hq).
    { apply lookup_seq. lia. }
    rewrite Eq. destruct (Apply_row_Some h v i Hd Hv Hi) as (q' & E1 & E2).
    congruence.
Qed.

(** X8: for a Hessian whose [Data] holds at least [Dim * Dim] entries,
    [Apply(v)] panics exactly when [len(v) != Dim]; otherwise it returns
    [Dim] entries, entry [i] being [vectorDot] of row [i]
    ([Data[i*Dim : i*Dim+Dim]]) with [v]. *)
Theorem Hessian_Apply_spec (h : Hessian) (v : list Q) :
  (Dim h * Dim h <= length (Data h))%nat →
  (Hessian_Apply h v = None ↔ length v ≠ Dim h) ∧
  (length v = Dim h → ∃ r, Hessian_Apply h v = Some r ∧ length r = Dim h ∧
     ∀ i, (i < Dim h)%nat → r !! i = vectorDot (take (Dim h) (drop (i * Dim h) (Data h))) v).
Proof.
  intros Hd. split; [|exact (Hessian_Apply_ok h v Hd)].
  split.
  - intros HN Hv. destruct (Hessian_Apply_ok h v Hd Hv) as (r & E & _). congruence.
  - intros Hv. unfold Hessian_Apply.
    replace ((length v =? Dim h)%nat) with false by (symmetry; apply Nat.eqb_neq, Hv).
    reflexivity.
Qed.

Lemma float_sum_pos (v : list Q) :
  v ≠ [] → Forall (λ x, 0 < x) v → 0 < float_sum v.
Proof.
  induction v as [|x v IH]; intros Hne Hf; [congruence|].
  rewrite float_sum_cons. inversion Hf as [|? ? Hx Hv]; subst.
  destruct v as [|y v].
  - unfold float_sum. simpl. lra.
  - pose proof (IH ltac:(discriminate) Hv). lra.
Qed.

Lemma float_sum_nonneg (v : list Q) : Forall (λ x, 0 <= x) v → 0 <= float_sum v.
Proof.
  induction v as [|x v IH]; intros Hf; [unfold float_sum; simpl; lra|].
  rewrite float_sum_cons. inversion Hf; subst. pose proof (IH H2). lra.
Qed.

Lemma float_sum_zip_grad (T D : Q) (a b : list Q) :
  length a = length b →
  float_sum (zip_with (λ x t, T * x * D - t) a b) == T * D * float_sum a - float_sum b.
Proof.
  revert b. induction a as [|x a IH]; intros [|y b] Hl; cbn in Hl; try lia.
  - unfold float_sum. simpl. ring.
  - cbn [zip_with]. rewrite !float_sum_cons, IH by lia. ring.
Qed.

Lemma softmax_exps_pos (exp32 : Q → Q) (outputs : list Q) :
  (∀ x, 0 < exp32 x) → outputs ≠ [] →
  ∃ m, max_output outputs = Some m ∧
    softmax_exps exp32 outputs = Some (map (λ x, exp32 (x - m)) outputs) ∧
    0 < float_sum (map (λ x, exp32 (x - m)) outputs).
Proof.
  intros Hpos Hne. destruct outputs as [|o rest]; [congruence|].
  eexists; split; [reflexivity|split; [reflexivity|]].
  apply float_sum_pos; [discriminate|].
  apply Forall_forall. intros y Hy. apply list_elem_of_fmap in Hy as (x & -> & _). apply Hpos.
Qed.

(** X9: when the exponential is positive, [Softmax.LossGrad] on non-empty
    outputs and targets of the same length returns one entry per output,
    and the entries sum to zero. *)
Theorem Softmax_LossGrad_sum_zero (exp32 : Q → Q) (outputs targets : list Q) :
  (∀ x, 0 < exp32 x) → outputs ≠ [] → length targets = length outputs →
  ∃ g, Softmax_LossGrad exp32 outputs targets = Some g ∧
    length g = length outputs ∧ float_sum g == 0.
Proof.
  intros Hpos Hne Hl.
  destruct (softmax_exps_pos exp32 outputs Hpos Hne) as (m & _ & Ee & HS).
  unfold Softmax_LossGrad. rewrite Ee. cbn [mbind option_bind].
  match goal with |- context [zip_index ?f ?a ?b] =>
    destruct (zip_index_Some f a b) as (r & -> & ->) end.
  { rewrite length_map. lia. }
  eexists; split; [reflexivity|split].
  - rewrite length_zip_with, length_map. lia.
  - rewrite float_sum_zip_grad by (rewrite length_map; lia). field. lra.
Qed.

Lemma nth_repeat_in (a : Q) (n k : nat) : (k < n)%nat → nth k (repeat a n) 0 = a.
Proof. revert k. induction n as [|n IH]; intros [|k] Hk; cbn; try lia; auto with lia. Qed.

Lemma nth_row (l : list Q) (n d k : nat) :
  (k < d)%nat → nth k (take d (drop n l)) 0 = nth (n + k) l 0.
Proof.
  intros Hk. rewrite !nth_lookup, lookup_take, lookup_drop.
  destruct (decide (k < d)%nat); [reflexivity|lia].
Qed.

(** The row sums of a matrix stored row-major, through [Hessian.Apply]. *)
Lemma Hessian_Apply_ones (h : Hessian) :
  (Dim h * Dim h <= length (Data h))%nat →
  ∃ r, Hessian_Apply h (repeat 1 (Dim h)) = Some r ∧ length r = Dim h ∧
    ∀ i, (i < Dim h)%nat → ∃ q, r !! i = Some q ∧
      q == Qsum (λ k, nth (i * Dim h + k) (Data h) 0) 0 (Dim h).
Proof.
  intros Hd. destruct (Hessian_Apply_ok h (repeat 1 (Dim h)) Hd) as (r & E & Hl & Hr).
  { apply repeat_length. }
  exists r. split; [exact E|split; [exact Hl|]].
  intros i Hi. rewrite Hr by exact Hi.
  destruct (vectorDot_from_Qsum 0 (take (Dim h) (drop (i * Dim h) (Data h)))
              (repeat 1 (Dim h)) 0) as (q & Eq & Hq).
  { rewrite length_take, repeat_length. lia. }
  exists q. split; [exact Eq|]. rewrite Hq.
  assert (Hlt : length (take (Dim h) (drop (i * Dim h) (Data h))) = Dim h).
  { rewrite length_take, length_drop.
    assert (i * Dim h + Dim h <= Dim h * Dim h)%nat by nia. lia. }
  rewrite Hlt. rewrite Qplus_0_l. apply Qsum_ext. intros k Hk.
  rewrite Nat.sub_0_r, nth_row, nth_repeat_in by lia. ring.
Qed.

Lemma mod_div_entry (d i j : nat) :
  (i < d)%nat → ((i + j * d) `mod` d = i ∧ (i + j * d) `div` d = j)%nat.
Proof.
  intros Hi. split.
  - rewrite Nat.Div0.mod_add. apply Nat.mod_small, Hi.
  - rewrite Nat.div_add by lia. rewrite Nat.div_small by exact Hi. reflexivity.
Qed.

(** X10: when the exponential is positive, [Softmax.LossHessian] on
    non-empty outputs is a [len(outputs)]-square matrix that is symmetric,
    and [Apply] maps the all-ones vector to zero. *)
Theorem Softmax_LossHessian_sym_null (exp32 : Q → Q) (outputs targets : list Q) :
  (∀ x, 0 < exp32 x) → outputs ≠ [] →
  ∃ h, Softmax_LossHessian exp32 outputs targets = Some h ∧
    Dim h = length outputs ∧ length (Data h) = (Dim h * Dim h)%nat ∧
    (∀ i j, (i < Dim h)%nat → (j < Dim h)%nat → ∃ a b,
       Data h !! (i + j * Dim h)%nat = Some a ∧ Data h !! (j + i * Dim h)%nat = Some b ∧ a == b) ∧
    ∃ r, Hessian_Apply h (repeat 1 (Dim h)) = Some r ∧ Forall (λ x, x == 0) r.
Proof.
  intros Hpos Hne.
  destruct (softmax_exps_pos exp32 outputs Hpos Hne) as (m & _ & Ee & HS).
  unfold Softmax_LossHessian. rewrite Ee. cbn [mbind option_bind].
  set (exps := map (λ x, exp32 (x - m)) outputs) in *.
  set (S := float_sum exps) in *.
  set (T := float_sum targets).
  set (d := length outputs).
  set (val := λ i j : nat,
    (if (i =? j)%nat then - nth j exps 0 * nth i exps 0 / (S * S) + nth i exps 0 / S
     else - nth j exps 0 * nth i exps 0 / (S * S)) * T).
  set (data := map (λ k, val (k mod d) (k / d))%nat (seq 0 (d * d))).
  assert (Hlook : ∀ i j, (i < d)%nat → (j < d)%nat → data !! (i + j * d)%nat = Some (val i j)).
  { intros i j Hi Hj. subst data. rewrite list_lookup_fmap, lookup_seq_lt by nia.
    cbn [fmap option_fmap option_map]. rewrite Nat.add_0_l.
    destruct (mod_div_entry d i j Hi) as [-> ->]. reflexivity. }
  exists (mkHessian d data). cbn [Dim Data].
  split; [reflexivity|split; [reflexivity|split; [subst data; rewrite length_map, length_seq; lia|split]]].
  - intros i j Hi Hj. exists (val i j), (val j i).
    split; [apply Hlook; lia|split; [apply Hlook; lia|]].
    subst val. cbv beta. rewrite Nat.eqb_sym.
    destruct (j =? i)%nat eqn:E; [apply Nat.eqb_eq in E; subst j; reflexivity|]. field. lra.
  - destruct (Hessian_Apply_ones (mkHessian d data)) as (r & Er & Hl & Hr).
    { cbn [Dim Data]. subst data. rewrite length_map, length_seq. lia. }
    exists r. split; [exact Er|].
    apply Forall_lookup. intros i q Hq.
    assert (Hi : (i < d)%nat) by (apply lookup_lt_Some in Hq; cbn [Dim] in Hl; lia).
    destruct (Hr i Hi) as (q' & Eq' & Hq'). rewrite Hq in Eq'. injection Eq' as <-.
    rewrite Hq'. cbn [Dim Data].
    rewrite (Qsum_ext _ (λ k, val k i) 0 d).
    2:{ intros k Hk. rewrite (Nat.add_comm (i * d) k), (nth_lookup_Some _ _ _ (val k i)).
        - reflexivity.
        - apply Hlook; lia. }
    rewrite (Qsum_ext _ (λ k, T * (- nth i exps 0 / (S * S)) * nth k exps 0
                              + T * (if (k =? i)%nat then nth k exps 0 / S else 0)) 0 d).
    2:{ intros k Hk. subst val. cbv beta. destruct (k =? i)%nat; field; lra. }
    rewrite Qsum_plus, Qsum_scale.
    assert (Hsum : Qsum (λ k, nth k exps 0) 0 d == S).
    { unfold S. rewrite <- (float_sum_Qsum exps 0). unfold exps, d. rewrite length_map.
      apply Qsum_ext. intros k _. rewrite Nat.sub_0_r. reflexivity. }
    rewrite Hsum.
    rewrite (Qsum_single _ 0 d i) by (try lia; intros k Hk _;
      replace (k =? i)%nat with false by (symmetry; apply Nat.eqb_neq, Hk); ring).
    rewrite Nat.eqb_refl. field. lra.
Qed.

Lemma entry_inj (d i j i' j' : nat) :
  (i < d)%nat → (i' < d)%nat → (i + j * d = i' + j' * d)%nat → i = i' ∧ j = j'.
Proof.
  intros Hi Hi' E.
  destruct (mod_div_entry d i j Hi) as [M1 D1]. destruct (mod_div_entry d i' j' Hi') as [M2 D2].
  rewrite E in M1, D1. split; congruence.
Qed.

Lemma sigmoid_entry (exp32 : Q → Q) (x t : Q) :
  (∀ x, 0 < exp32 x) →
  ∃ h h0, Softmax_LossHessian exp32 [x; 0] [t; 1 - t] = Some h ∧
    Data h !! 0%nat = Some h0 ∧ 0 < h0 <= 1 # 4.
Proof.
  intros Hpos. unfold Softmax_LossHessian, softmax_exps, max_output.
  cbn [mbind option_bind fold_left map].
  set (m := if Qle_bool 0 x then x else 0).
  pose proof (Hpos (x - m)) as H0. pose proof (Hpos (0 - m)) as H1.
  set (e0 := exp32 (x - m)) in *. set (e1 := exp32 (0 - m)) in *.
  eexists _, _. split; [reflexivity|]. split; [reflexivity|].
  cbn [nth Nat.eqb length Nat.mul Nat.add Nat.modulo Nat.div].
  unfold float_sum. cbn [fold_left].
  assert (E : (- e0 * e0 / ((0 + e0 + e1) * (0 + e0 + e1)) + e0 / (0 + e0 + e1))
               * (0 + t + (1 - t)) == e0 * e1 / ((e0 + e1) * (e0 + e1))).
  { field. lra. }
  assert (Hs : 0 < (e0 + e1) * (e0 + e1)) by (apply Qmult_lt_0_compat; lra).
  assert (Hp : 0 < e0 * e1) by (apply Qmult_lt_0_compat; lra).
  rewrite E. split.
  - apply Qlt_shift_div_l; [exact Hs|]. rewrite Qmult_0_l. exact Hp.
  - apply Qle_shift_div_r; [exact Hs|].
    pose proof (Qsq_nonneg (e0 - e1)) as Hq.
    assert (Ee : (1 # 4) * ((e0 + e1) * (e0 + e1)) == e0 * e1 + (1 # 4) * ((e0 - e1) * (e0 - e1)))
      by ring.
    rewrite Ee. lra.
Qed.

Lemma lookup_repeat_lt {A} (a : A) (n k : nat) : (k < n)%nat → repeat a n !! k = Some a.
Proof. revert k. induction n as [|n IH]; intros [|k] Hk; cbn; try lia; auto with lia. Qed.

Lemma sigmoid_diag_inv (exp32 : Q → Q) (d : nat) (targets : list Q) :
  (∀ x, 0 < exp32 x) →
  ∀ outs i0 data,
    length data = (d * d)%nat → (i0 + length outs = d)%nat →
    (i0 + length outs <= length targets)%nat →
    (∀ i j, (i < d)%nat → (j < d)%nat → ∃ q, data !! (i + j * d)%nat = Some q ∧
       (i ≠ j → q == 0) ∧ (i = j → (i < i0)%nat → 0 < q <= 1 # 4)) →
    ∃ data', sigmoid_diag exp32 d i0 outs targets data = Some data' ∧
      length data' = (d * d)%nat ∧
      (∀ i j, (i < d)%nat → (j < d)%nat → ∃ q, data' !! (i + j * d)%nat = Some q ∧
         (i ≠ j → q == 0) ∧ (i = j → 0 < q <= 1 # 4)).
Proof.
  intros Hpos outs. induction outs as [|x outs IH]; intros i0 data Hl Hd Ht Hinv;
    cbn [sigmoid_diag length] in *.
  - exists data. split; [reflexivity|split; [exact Hl|]].
    intros i j Hi Hj. destruct (Hinv i j Hi Hj) as (q & Eq & Hne & Heq).
    exists q. split; [exact Eq|split; [exact Hne|]]. intros ->. apply Heq; [reflexivity|lia].
  - destruct (lookup_lt_is_Some_2 targets i0) as [t Et]; [lia|]. rewrite Et.
    destruct (sigmoid_entry exp32 x t Hpos) as (h & h0 & Eh & Eh0 & Hh0).
    cbn [mbind option_bind]. rewrite Eh. cbn [mbind option_bind]. rewrite Eh0.
    cbn [mbind option_bind].
    apply IH; [rewrite length_insert; exact Hl|lia|lia|].
    intros i j Hi Hj.
    destruct (decide (i = i0 ∧ j = i0)) as [[-> ->]|Hne].
    + exists h0. split; [apply list_lookup_insert_eq; nia|].
      split; [intros C; congruence|intros _ _; exact Hh0].
    + destruct (Hinv i j Hi Hj) as (q & Eq & Hq1 & Hq2).
      exists q. split.
      * rewrite list_lookup_insert_ne; [exact Eq|].
        intros E. apply Hne. symmetry in E. apply entry_inj in E; [lia|lia|lia].
      * split; [exact Hq1|]. intros -> Hlt.
        destruct (decide (j = i0)) as [->|Hj0]; [tauto|]. apply Hq2; [reflexivity|lia].
Qed.

(** X11: when the exponential is positive and there are at least as many
    targets as outputs, [Sigmoid.LossHessian] is a [len(outputs)]-square
    diagonal matrix whose diagonal entries lie in (0, 1/4]. *)
Theorem Sigmoid_LossHessian_diagonal (exp32 : Q → Q) (outputs targets : list Q) :
  (∀ x, 0 < exp32 x) → (length outputs <= length targets)%nat →
  ∃ h, Sigmoid_LossHessian exp32 outputs targets = Some h ∧
    Dim h = length outputs ∧ length (Data h) = (Dim h * Dim h)%nat ∧
    ∀ i j, (i < Dim h)%nat → (j < Dim h)%nat → ∃ q, Data h !! (i + j * Dim h)%nat = Some q ∧
      (i ≠ j → q == 0) ∧ (i = j → 0 < q <= 1 # 4).
Proof.
  intros Hpos Hl. unfold Sigmoid_LossHessian.
  set (d := length outputs).
  destruct (sigmoid_diag_inv exp32 d targets Hpos outputs 0 (repeat 0 (d * d)))
    as (data & -> & Hdl & Hdata).
  - apply repeat_length.
  - reflexivity.
  - exact Hl.
  - intros i j Hi Hj. exists 0. split; [apply lookup_repeat_lt; nia|].
    split; [intros; reflexivity|intros _ H; lia].
  - exists (mkHessian d data). split; [reflexivity|split; [reflexivity|split]].
    + exact Hdl.
    + exact Hdata.
Qed.

Lemma one_plus_sq_pos : ∀ x : Q, 0 < 1 + x * x.
Proof. intros x. pose proof (Qsq_nonneg x). lra. Qed.

Lemma Hessian_Apply_spec_witness :
  (Dim (mkHessian 2 [1; 2; 3; 4]%Q) * Dim (mkHessian 2 [1; 2; 3; 4]%Q)
     <= length (Data (mkHessian 2 [1; 2; 3; 4]%Q)))%nat ∧
  (Hessian_Apply (mkHessian 2 [1; 2; 3; 4]%Q) [1; 1] = None ↔
     length [1; 1] ≠ Dim (mkHessian 2 [1; 2; 3; 4]%Q)) ∧
  (length [1; 1] = Dim (mkHessian 2 [1; 2; 3; 4]%Q) →
   ∃ r, Hessian_Apply (mkHessian 2 [1; 2; 3; 4]%Q) [1; 1] = Some r ∧ length r = 2%nat ∧
     ∀ i, (i < 2)%nat → r !! i = vectorDot (take 2 (drop (i * 2) [1; 2; 3; 4]%Q)) [1; 1]).
Proof.
  split; [simpl; lia|].
  apply (Hessian_Apply_spec (mkHessian 2 [1; 2; 3; 4]%Q) [1; 1]). simpl. lia.
Defined.

Lemma Softmax_LossGrad_sum_zero_witness :
  ((∀ x, 0 < 1 + x * x) ∧ [0; 1] ≠ [] ∧ length [1; 0] = length [0; 1]) ∧
  ∃ g, Softmax_LossGrad (λ x, 1 + x * x) [0; 1] [1; 0] = Some g ∧
    length g = length [0; 1] ∧ float_sum g == 0.
Proof.
  split; [split; [exact one_plus_sq_pos|split; [discriminate|reflexivity]]|].
  apply (Softmax_LossGrad_sum_zero (λ x, 1 + x * x) [0; 1] [1; 0]);
    [exact one_plus_sq_pos|discriminate|reflexivity].
Defined.

Lemma Softmax_LossHessian_sym_null_witness :
  ((∀ x, 0 < 1 + x * x) ∧ [0; 1] ≠ []) ∧
  ∃ h, Softmax_LossHessian (λ x, 1 + x * x) [0; 1] [1; 0] = Some h ∧
    Dim h = 2%nat ∧ length (Data h) = (Dim h * Dim h)%nat ∧
    (∀ i j, (i < Dim h)%nat → (j < Dim h)%nat → ∃ a b,
       Data h !! (i + j * Dim h)%nat = Some a ∧ Data h !! (j + i * Dim h)%nat = Some b ∧ a == b) ∧
    ∃ r, Hessian_Apply h (repeat 1 (Dim h)) = Some r ∧ Forall (λ x, x == 0) r.
Proof.
  split; [split; [exact one_plus_sq_pos|discriminate]|].
  apply (Softmax_LossHessian_sym_null (λ x, 1 + x * x) [0; 1] [1; 0]);
    [exact one_plus_sq_pos|discriminate].
Defined.

Lemma Sigmoid_LossHessian_diagonal_witness :
  ((∀ x, 0 < 1 + x * x) ∧ (length [0; 1] <= length [1; 0])%nat) ∧
  ∃ h, Sigmoid_LossHessian (λ x, 1 + x * x) [0; 1] [1; 0] = Some h ∧
    Dim h = 2%nat ∧ length (Data h) = (Dim h * Dim h)%nat ∧
    ∀ i j, (i < Dim h)%nat → (j < Dim h)%nat → ∃ q, Data h !! (i + j * Dim h)%nat = Some q ∧
      (i ≠ j → q == 0) ∧ (i = j → 0 < q <= 1 # 4).
Proof.
  split; [split; [exact one_plus_sq_pos|simpl; lia]|].
  apply (Sigmoid_LossHessian_diagonal (λ x, 1 + x * x) [0; 1] [1; 0]);
    [exact one_plus_sq_pos|simpl; lia].
Defined.

End HessFacts.

Section InverseFacts.
Local Open Scope Q_scope.

Lemma Hessian_Apply_scaled (h : Hessian) (c : Q) (u : list Q) :
  scaled_identity h c → length u = Dim h →
  ∃ r, Hessian_Apply h u = Some r ∧ Forall2 Qeq r (map (Qmult c) u).
Proof.
  intros [Hd Hs] Hu.
  destruct (Hessian_Apply_ok h u Hd Hu) as (r & -> & Hl & Hr).
  exists r. split; [reflexivity|].
  apply Forall2_same_length_lookup. split; [rewrite length_map; lia|].
  intros i x y Ex Ey.
  assert (Hi : (i < Dim h)%nat) by (apply lookup_lt_Some in Ex; lia).
  rewrite Hr in Ex by exact Hi.
  rewrite list_lookup_fmap in Ey.
  destruct (u !! i) as [ui|] eqn:Eu; [|discriminate]. injection Ey as <-.
  set (row := take (Dim h) (drop (i * Dim h) (Data h))) in *.
  assert (Hrow : ∀ k, (k < Dim h)%nat → ∃ a, row !! k = Some a ∧
                   a == (if decide (i = k) then c else 0)).
  { intros k Hk. destruct (Hs i k Hi Hk) as (a & Ea & Ha). exists a. split; [|exact Ha].
    unfold row. rewrite lookup_take, lookup_drop.
    destruct (decide (k < Dim h)%nat); [exact Ea|lia]. }
  assert (Hlen : length row = Dim h).
  { unfold row. rewrite length_take, length_drop.
    assert (i * Dim h + Dim h <= Dim h * Dim h)%nat by nia. lia. }
  destruct (vectorDot_from_Qsum 0 row u 0) as (q & Eq & Hq); [lia|].
  unfold vectorDot in Ex. rewrite Eq in Ex. injection Ex as <-.
  rewrite Hq, Hlen, (Qsum_single _ 0 (Dim h) i); [|lia|].
  - rewrite Nat.sub_0_r.
    destruct (Hrow i Hi) as (a & Ea & Ha).
    rewrite (nth_lookup_Some _ _ _ _ Ea), (nth_lookup_Some _ _ _ _ Eu).
    destruct (decide (i = i)); [|congruence]. rewrite Ha. ring.
  - intros k Hki Hk. rewrite Nat.sub_0_r.
    destruct (Hrow k ltac:(lia)) as (a & Ea & Ha).
    rewrite (nth_lookup_Some _ _ _ _ Ea).
    destruct (decide (i = k)); [congruence|]. rewrite Ha. ring.
Qed.


Lemma vectorDifference_Some (a b : list Q) :
  length a = length b → vectorDifference a b = Some (zip_with Qminus a b).
Proof.
  intros Hl. unfold vectorDifference.
  destruct (zip_index_Some Qminus a b Hl) as (r & -> & ->). reflexivity.
Qed.

Lemma add_scaled_Some (x r : list Q) (s : Q) :
  length x = length r → add_scaled x r s = Some (zip_with (λ xj y, xj + s * y) x r).
Proof.
  revert x. induction r as [|y r IH]; intros [|xj x] Hl; cbn in Hl; try lia.
  - reflexivity.
  - cbn [add_scaled]. rewrite IH by lia. reflexivity.
Qed.

Lemma zip_minus_cong (a a' b b' : list Q) :
  Forall2 Qeq a a' → Forall2 Qeq b b' → Forall2 Qeq (zip_with Qminus a b) (zip_with Qminus a' b').
Proof.
  intros Ha; revert b b'; induction Ha as [|x x' a a' Hx Ha IH]; intros b b' Hb; [constructor|].
  inversion Hb as [|y y' b0 b0' Hy Hb0]; subst; simpl; [constructor|].
  constructor; [rewrite Hx, Hy; reflexivity|auto].
Qed.

Lemma map_scale_cong (c : Q) (a b : list Q) :
  Forall2 Qeq a b → Forall2 Qeq (map (Qmult c) a) (map (Qmult c) b).
Proof. induction 1 as [|x y a b Hxy _ IH]; constructor; [rewrite Hxy; reflexivity|exact IH]. Qed.

Lemma vectorNormSquared_scale (c : Q) (a : list Q) :
  vectorNormSquared (map (Qmult c) a) == c * c * vectorNormSquared a.
Proof.
  induction a as [|x a IH]; [unfold vectorNormSquared; simpl; ring|].
  cbn [map]. rewrite !vectorNormSquared_cons, IH. ring.
Qed.

Lemma vectorNormSquared_zero (a : list Q) :
  vectorNormSquared a == 0 → Forall (λ y, y == 0) a.
Proof.
  induction a as [|x a IH]; intros H; constructor; rewrite vectorNormSquared_cons in H;
    pose proof (Qsq_nonneg x); pose proof (vectorNormSquared_nonneg a).
  - assert (Hx : x * x == 0) by lra.
    destruct (Qmult_integral x x Hx); assumption.
  - apply IH. lra.
Qed.

Lemma vectorDot_from_scaled (c acc : Q) (a b : list Q) :
  Forall2 Qeq b (map (Qmult c) a) →
  ∃ q, vectorDot_from acc a b = Some q ∧ q == acc + c * vectorNormSquared a.
Proof.
  revert acc b. induction a as [|x a IH]; intros acc b Hb; inversion Hb as [|y z b' m Hy Hb']; subst.
  - eexists; split; [reflexivity|]. unfold vectorNormSquared; simpl; ring.
  - cbn [vectorDot_from].
    destruct (IH (acc + x * y) b' Hb') as (q & -> & Hq).
    eexists; split; [reflexivity|]. rewrite Hq, vectorNormSquared_cons, Hy. ring.
Qed.


Lemma ApplyInverse_loop_fixed (h : Hessian) (c : Q) (v x : list Q) (n : nat) :
  scaled_identity h c → length x = Dim h → length v = Dim h →
  Forall2 Qeq (map (Qmult c) x) v → ApplyInverse_loop h v n x = Some x.
Proof.
  intros Hs Hx Hv Hfix. destruct n as [|n]; [reflexivity|]. cbn [ApplyInverse_loop].
  destruct (Hessian_Apply_scaled h c x Hs Hx) as (hx & -> & Hhx). cbn [mbind option_bind].
  assert (Lhx : length hx = Dim h) by (apply Forall2_length in Hhx; rewrite length_map in Hhx; lia).
  rewrite vectorDifference_Some by lia. cbn [mbind option_bind].
  assert (Lr : length (zip_with Qminus v hx) = Dim h) by (rewrite length_zip_with; lia).
  destruct (Hessian_Apply_scaled h c _ Hs Lr) as (p & -> & Hp). cbn [mbind option_bind].
  assert (Hz : Forall (λ y, y == 0) (zip_with Qminus v hx)).
  { apply Forall_forall. intros y Hy. apply list_elem_of_lookup in Hy.
    destruct Hy as [i Ei]. rewrite lookup_zip_with in Ei.
    destruct (v !! i) as [vi|] eqn:Evi; [|discriminate].
    destruct (hx !! i) as [hi|] eqn:Ehi; [|discriminate]. injection Ei as <-.
    pose proof (vq_trans _ _ _ Hhx Hfix) as Hq.
    destruct (Forall2_lookup_r _ _ _ i vi Hq Evi) as (hi' & Ehi' & E). 
    rewrite Ehi in Ehi'. injection Ehi' as <-. rewrite E. ring. }
  assert (Hn : vectorNormSquared p == 0).
  { rewrite (vectorNormSquared_cong _ _ Hp), vectorNormSquared_scale.
    assert (vectorNormSquared (zip_with Qminus v hx) == 0) as ->; [|ring].
    clear -Hz. induction Hz as [|y l Hy _ IH]; [reflexivity|].
    rewrite vectorNormSquared_cons, Hy, IH. ring. }
  destruct (Qeq_bool (vectorNormSquared p) 0) eqn:E; [reflexivity|].
  apply Qeq_bool_neq in E. contradiction.
Qed.


Lemma zip_scaled_from_zero (s : Q) (r : list Q) :
  Forall2 Qeq (zip_with (λ xj y, xj + s * y) (repeat 0 (length r)) r) (map (Qmult s) r).
Proof. induction r as [|y r IH]; constructor; [ring|exact IH]. Qed.

(** X13: on a Hessian holding [c] times the identity ([c != 0]),
    [ApplyInverse(v)] returns [v / c] entry by entry: the first descent
    step lands on the solution and the next residual is zero. *)
Theorem Hessian_ApplyInverse_scaled_identity (h : Hessian) (c : Q) (v : list Q) :
  ¬ c == 0 → scaled_identity h c → length v = Dim h →
  ∃ x, Hessian_ApplyInverse h v = Some x ∧ Forall2 Qeq x (map (λ y, y / c) v).
Proof.
  intros Hc Hs Hv. unfold Hessian_ApplyInverse.
  destruct (Dim h) as [|n] eqn:Ed.
  { destruct v; [|discriminate]. exists []. split; [reflexivity|constructor]. }
  cbn [ApplyInverse_loop].
  assert (L0 : length (repeat 0 (length v)) = Dim h) by (rewrite repeat_length; lia).
  destruct (Hessian_Apply_scaled h c _ Hs L0) as (hx & -> & Hhx). cbn [mbind option_bind].
  assert (Lhx : length hx = Dim h) by (apply Forall2_length in Hhx; rewrite length_map in Hhx; lia).
  rewrite vectorDifference_Some by lia. cbn [mbind option_bind].
  set (r := zip_with Qminus v hx).
  assert (Lr : length r = Dim h) by (unfold r; rewrite length_zip_with; lia).
  assert (Hr : Forall2 Qeq r v).
  { unfold r. apply Forall2_same_length_lookup. split; [rewrite length_zip_with; lia|].
    intros i a b Ea Eb. rewrite lookup_zip_with, Eb in Ea.
    destruct (hx !! i) as [hi|] eqn:Ehi; [|discriminate]. injection Ea as <-.
    destruct (Forall2_lookup_l _ _ _ i hi Hhx Ehi) as (z & Ez & Hz).
    rewrite list_lookup_fmap, lookup_repeat_lt in Ez by (apply lookup_lt_Some in Ehi; lia).
    injection Ez as <-. rewrite Hz. ring. }
  destruct (Hessian_Apply_scaled h c r Hs Lr) as (p & -> & Hp). cbn [mbind option_bind].
  assert (Hdiv : vectorNormSquared p == c * c * vectorNormSquared v).
  { rewrite (vectorNormSquared_cong _ _ Hp), vectorNormSquared_scale,
      (vectorNormSquared_cong _ _ Hr). reflexivity. }
  destruct (Qeq_bool (vectorNormSquared p) 0) eqn:E.
  - apply Qeq_bool_eq in E. rewrite E in Hdiv.
    assert (Hv0 : vectorNormSquared v == 0).
    { destruct (Qmult_integral (c * c) (vectorNormSquared v)) as [Hcc|]; [lra| |assumption].
      destruct (Qmult_integral c c Hcc); contradiction. }
    apply vectorNormSquared_zero in Hv0.
    eexists; split; [reflexivity|].
    clear -Hv0 Hc. induction Hv0 as [|y l Hy _ IH]; constructor; [|exact IH].
    rewrite Hy. field. exact Hc.
  - apply Qeq_bool_neq in E.
    destruct (vectorDot_from_scaled c 0 r p) as (dd & Edd & Hdd).
    { apply (vq_trans _ _ _ Hp), map_scale_cong, vq_refl. }
    unfold vectorDot. rewrite Edd. cbn [mbind option_bind].
    rewrite add_scaled_Some by (rewrite repeat_length; lia). cbn [mbind option_bind].
    assert (Hnr : ¬ vectorNormSquared r == 0).
    { intros Hz. apply E. rewrite (vectorNormSquared_cong _ _ Hp), vectorNormSquared_scale, Hz. ring. }
    assert (Hstep : dd / vectorNormSquared p == / c).
    { rewrite Hdd, (vectorNormSquared_cong _ _ Hp), vectorNormSquared_scale. field. split; assumption. }
    set (x' := zip_with (λ xj y, xj + dd / vectorNormSquared p * y) (repeat 0 (length v)) r).
    assert (Hx' : Forall2 Qeq x' (map (λ y, y / c) v)).
    { unfold x'. replace (length v) with (length r) by lia.
      apply (vq_trans _ _ _ (zip_scaled_from_zero _ r)).
      apply Forall2_fmap. clear -Hr Hstep Hc.
      induction Hr as [|a b l l' Hab _ IH]; constructor; [|exact IH].
      rewrite Hstep, Hab. field. exact Hc. }
    exists x'. split; [|exact Hx'].
    apply (ApplyInverse_loop_fixed h c); [exact Hs| |lia|].
    + unfold x'. rewrite length_zip_with, repeat_length. lia.
    + apply (vq_trans _ (map (Qmult c) (map (λ y, y / c) v))).
      * apply map_scale_cong, Hx'.
      * rewrite map_map. clear -Hc. induction v as [|y v IH]; constructor; [|exact IH].
        field. exact Hc.
Qed.


Lemma Hessian_ApplyInverse_scaled_identity_witness :
  (¬ 3 == 0 ∧ scaled_identity (mkHessian 2 [3; 0; 0; 3]) 3 ∧
   length [1; 2] = Dim (mkHessian 2 [3; 0; 0; 3])) ∧
  ∃ x, Hessian_ApplyInverse (mkHessian 2 [3; 0; 0; 3]) [1; 2] = Some x ∧
       Forall2 Qeq x (map (λ y, y / 3) [1; 2]).
Proof.
  assert (H : ¬ 3 == 0 ∧ scaled_identity (mkHessian 2 [3; 0; 0; 3]) 3 ∧
              length [1; 2] = Dim (mkHessian 2 [3; 0; 0; 3])).
  { split; [discriminate|split; [|reflexivity]].
    split; [simpl; lia|]. intros i j Hi Hj. simpl in Hi, Hj.
    destruct i as [|[|i]]; [| |lia]; destruct j as [|[|j]]; try lia;
      eexists; (split; [reflexivity|vm_compute; reflexivity]). }
  split; [exact H|].
  destruct H as (H1 & H2 & H3). apply (Hessian_ApplyInverse_scaled_identity _ _ _ H1 H2 H3).
Defined.

End InverseFacts.

Section StepFacts.
Local Open Scope Q_scope.

Context (loss : list Q → list Q → option Q) (st : LeafStore) (t : UTree) (step : Q).


Lemma Qsum_swap (f : nat → nat → Q) (a m b n : nat) :
  Qsum (λ i, Qsum (f i) a m) b n == Qsum (λ j, Qsum (λ i, f i j) b n) a m.
Proof.
  revert b. induction n as [|n IH]; intros b; cbn [Qsum].
  - symmetry. apply Qsum_zero. intros; reflexivity.
  - rewrite IH. rewrite <- Qsum_plus. apply Qsum_ext. intros k _. reflexivity.
Qed.

Lemma float_sum_perm (l l' : list Q) : l ≡ₚ l' → float_sum l == float_sum l'.
Proof.
  induction 1 as [|x l l' _ IH|x y l|l l' l'' _ IH1 _ IH2].
  - reflexivity.
  - rewrite !float_sum_cons, IH. reflexivity.
  - rewrite !float_sum_cons. ring.
  - rewrite IH1, IH2. reflexivity.
Qed.

Lemma float_sum_cong (l l' : list Q) : Forall2 Qeq l l' → float_sum l == float_sum l'.
Proof.
  induction 1 as [|x y l l' Hxy _ IH]; [reflexivity|].
  rewrite !float_sum_cons, Hxy, IH. reflexivity.
Qed.

Lemma mapM_Qeq {A} (f : A → option Q) (W : A → Q) (l : list A) :
  (∀ a, a ∈ l → ∃ p, f a = Some p ∧ p == W a) →
  ∃ ps, mapM f l = Some ps ∧ Forall2 Qeq ps (map W l).
Proof.
  induction l as [|a l IH]; intros H.
  - exists []. split; [reflexivity|constructor].
  - destruct (H a) as (p & Ep & Hp); [left|].
    destruct IH as (ps & Eps & Hps); [intros b Hb; apply H; right; exact Hb|].
    exists (p :: ps). split; [cbn; rewrite Ep, Eps; reflexivity|constructor; assumption].
Qed.

Lemma mapM_None_elem {A B} (f : A → option B) (l : list A) :
  mapM f l = None → ∃ m a, l !! m = Some a ∧ f a = None.
Proof.
  induction l as [|a l IH]; intros H; [discriminate|].
  cbn in H. destruct (f a) eqn:Ea.
  - destruct (mapM f l); [discriminate|].
    destruct (IH eq_refl) as (m & x & Ex & Hx). exists (S m), x. split; assumption.
  - exists 0%nat, a. split; [reflexivity|exact Ea].
Qed.

Lemma mapM_None_of_elem {A B} (f : A → option B) (l : list A) (a : A) :
  a ∈ l → f a = None → mapM f l = None.
Proof.
  induction l as [|b l IH]; intros Ha Hf; [apply not_elem_of_nil in Ha; contradiction|].
  apply elem_of_cons in Ha. cbn. destruct Ha as [<-|Ha]; [rewrite Hf; reflexivity|].
  destruct (f b); [|reflexivity]. cbn. rewrite (IH Ha Hf). reflexivity.
Qed.

Lemma avg_worker_loop_some (n i j : nat) (tss : list TimestepSample) (ds : list Q) (s c : Q) :
  mapM (sample_loss_delta loss st t step) tss = Some ds → c == 0 →
  ∃ s' c', avg_worker_loop loss st t step n i j tss (mkKahanSum [s] [c])
             = Some (mkKahanSum [s'] [c']) ∧ c' == 0 ∧
    s' == s + Qsum (λ m, if Nat.eqb (m mod n) i then nth (m - j) ds 0 else 0) j (length tss).
Proof.
  revert j ds s c. induction tss as [|ts tss IH]; intros j ds s c Hm Hc.
  - exists s, c. split; [reflexivity|split; [exact Hc|]]. simpl. ring.
  - cbn in Hm. destruct (sample_loss_delta loss st t step ts) as [d|] eqn:Ed; [|discriminate].
    destruct (mapM (sample_loss_delta loss st t step) tss) as [ds'|] eqn:Eds; [|discriminate].
    injection Hm as <-. cbn [avg_worker_loop length Qsum].
    assert (Hsh : Qsum (λ m, if Nat.eqb (m mod n) i then nth (m - j) (d :: ds') 0 else 0) (S j) (length tss)
                  == Qsum (λ m, if Nat.eqb (m mod n) i then nth (m - S j) ds' 0 else 0) (S j) (length tss)).
    { apply Qsum_ext. intros m Hm. replace (m - j)%nat with (S (m - S j)) by lia. reflexivity. }
    rewrite Nat.sub_diag. cbn [nth].
    destruct (Nat.eqb (j mod n) i); cbn [negb].
    + rewrite Ed. cbn [mbind option_bind kahanSum_Add kahan_add_loop fst snd].
      destruct (IH (S j) ds' (s + (d - c)) (s + (d - c) - s - (d - c)) eq_refl) as (s' & c' & E & Hc' & Hs');
        [ring|].
      exists s', c'. split; [exact E|split; [exact Hc'|]]. rewrite Hs', Hsh, Hc. ring.
    + destruct (IH (S j) ds' s c eq_refl Hc) as (s' & c' & E & Hc' & Hs').
      exists s', c'. split; [exact E|split; [exact Hc'|]]. rewrite Hs', Hsh. ring.
Qed.

Lemma avg_worker_loop_none (n i j m : nat) (tss : list TimestepSample) (ts : TimestepSample)
    (k : kahanSum) :
  tss !! m = Some ts → sample_loss_delta loss st t step ts = None → ((j + m) mod n = i)%nat →
  avg_worker_loop loss st t step n i j tss k = None.
Proof.
  revert j m k. induction tss as [|ts' tss IH]; intros j m k Hm Hd Hi; [discriminate|].
  cbn [avg_worker_loop].
  destruct m as [|m].
  - injection Hm as ->. rewrite Nat.add_0_r in Hi.
    replace (Nat.eqb (j mod n) i) with true by (symmetry; apply Nat.eqb_eq, Hi).
    cbn [negb]. rewrite Hd. reflexivity.
  - cbn in Hm. replace (j + S m)%nat with (S j + m)%nat in Hi by lia.
    destruct (negb (Nat.eqb (j mod n) i)); [apply (IH _ m); assumption|].
    destruct (sample_loss_delta loss st t step ts'); [|reflexivity]. cbn [mbind option_bind].
    destruct (kahanSum_Add k [q]); [|reflexivity]. apply (IH _ m); assumption.
Qed.


(** X14: for [numProcs >= 1] workers taking the lock in any order,
    [AvgLossDelta] over non-empty timesteps panics exactly when the loss
    change of some timestep panics, and otherwise returns the plain sum
    of the per-timestep loss changes divided by [len(timesteps)]: the
    strided split over workers neither drops nor repeats a timestep. *)
Theorem AvgLossDelta_sequential (numProcs : nat) (ord : list nat) (tss : list TimestepSample) :
  (0 < numProcs)%nat → ord ≡ₚ seq 0 numProcs → tss ≠ [] →
  match mapM (sample_loss_delta loss st t step) tss with
  | Some ds => ∃ r, AvgLossDelta loss st t step numProcs ord tss = Some r ∧
                 r == float_sum ds / inject_Z (Z.of_nat (length tss))
  | None => AvgLossDelta loss st t step numProcs ord tss = None
  end.
Proof.
  intros Hn Hord _. unfold AvgLossDelta.
  destruct (mapM (sample_loss_delta loss st t step) tss) as [ds|] eqn:Eds.
  - set (W := λ i, Qsum (λ m, if Nat.eqb (m mod numProcs) i then nth (m - 0) ds 0 else 0)
                     0 (length tss)).
    destruct (mapM_Qeq (avg_worker loss st t step numProcs tss) W ord) as (ps & Eps & Hps).
    { intros i _. unfold avg_worker, newKahanSum. cbn [repeat].
      destruct (avg_worker_loop_some numProcs i 0 tss ds 0 0 Eds (Qeq_refl 0))
        as (s' & c' & E & _ & Hs').
      rewrite E. exists s'. split; [reflexivity|]. rewrite Hs'. unfold W. ring. }
    rewrite Eps. cbn [mbind option_bind]. eexists; split; [reflexivity|].
    assert (Hlen : length ds = length tss).
    { apply mapM_Some_1, Forall2_length in Eds. lia. }
    assert (Hsum : float_sum ps == float_sum ds).
    { rewrite (float_sum_cong _ _ Hps), (float_sum_perm _ _ (Permutation_map W Hord)).
      rewrite <- (float_sum_Qsum _ 0), length_map, length_seq.
      rewrite <- (float_sum_Qsum ds 0), Hlen.
      rewrite (Qsum_ext _ W) by (intros k Hk; rewrite Nat.sub_0_r;
        rewrite (nth_lookup_Some _ _ _ (W k)); [reflexivity|];
        rewrite list_lookup_fmap, lookup_seq_lt by lia; reflexivity).
      unfold W. rewrite Qsum_swap. apply Qsum_ext. intros m Hm.
      rewrite (Qsum_single _ 0 numProcs (m mod numProcs)).
      - rewrite Nat.eqb_refl. reflexivity.
      - pose proof (Nat.mod_upper_bound m numProcs ltac:(lia)). lia.
      - intros k Hk _. replace (Nat.eqb (m mod numProcs) k) with false; [reflexivity|].
        symmetry. apply Nat.eqb_neq. congruence. }
    rewrite Hsum. reflexivity.
  - destruct (mapM_None_elem _ _ Eds) as (m & ts & Em & Hd).
    rewrite (mapM_None_of_elem _ ord (m mod numProcs)%nat); [reflexivity| |].
    + rewrite Hord. apply list_elem_of_In, in_seq.
      pose proof (Nat.mod_upper_bound m numProcs ltac:(lia)). lia.
    + unfold avg_worker. rewrite (avg_worker_loop_none numProcs (m mod numProcs)%nat 0 m tss ts);
        [reflexivity|exact Em|exact Hd|reflexivity].
Qed.

End StepFacts.

Lemma AvgLossDelta_sequential_witness :
  ((0 < 2)%nat ∧ [1; 0]%nat ≡ₚ seq 0 2 ∧
   [mkTimestepSample [mkTimestep (mkBitmap 0 []) [1%Q] [0%Q]; mkTimestep (mkBitmap 0 []) [2%Q] [0%Q]] 0;
    mkTimestepSample [mkTimestep (mkBitmap 0 []) [1%Q] [0%Q]; mkTimestep (mkBitmap 0 []) [2%Q] [0%Q]] 1] ≠ []) ∧
  match mapM (sample_loss_delta (λ o _, Some (float_sum o)) {[0%nat := mkLeaf [1%Q] 0]} (TLeaf 0 0) (1 # 2))
          [mkTimestepSample [mkTimestep (mkBitmap 0 []) [1%Q] [0%Q]; mkTimestep (mkBitmap 0 []) [2%Q] [0%Q]] 0;
           mkTimestepSample [mkTimestep (mkBitmap 0 []) [1%Q] [0%Q]; mkTimestep (mkBitmap 0 []) [2%Q] [0%Q]] 1] with
  | Some ds => ∃ r, AvgLossDelta (λ o _, Some (float_sum o)) {[0%nat := mkLeaf [1%Q] 0]} (TLeaf 0 0) (1 # 2) 2 [1; 0]%nat
                   [mkTimestepSample [mkTimestep (mkBitmap 0 []) [1%Q] [0%Q]; mkTimestep (mkBitmap 0 []) [2%Q] [0%Q]] 0;
                    mkTimestepSample [mkTimestep (mkBitmap 0 []) [1%Q] [0%Q]; mkTimestep (mkBitmap 0 []) [2%Q] [0%Q]] 1] = Some r ∧
                 (r == float_sum ds / inject_Z (Z.of_nat 2))%Q
  | None => AvgLossDelta (λ o _, Some (float_sum o)) {[0%nat := mkLeaf [1%Q] 0]} (TLeaf 0 0) (1 # 2) 2 [1; 0]%nat
                   [mkTimestepSample [mkTimestep (mkBitmap 0 []) [1%Q] [0%Q]; mkTimestep (mkBitmap 0 []) [2%Q] [0%Q]] 0;
                    mkTimestepSample [mkTimestep (mkBitmap 0 []) [1%Q] [0%Q]; mkTimestep (mkBitmap 0 []) [2%Q] [0%Q]] 1] = None
  end.
Proof.
  assert (H1 : (0 < 2)%nat) by lia.
  assert (H2 : [1; 0]%nat ≡ₚ seq 0 2) by (simpl; apply perm_swap).
  assert (H3 : [mkTimestepSample [mkTimestep (mkBitmap 0 []) [1%Q] [0%Q]; mkTimestep (mkBitmap 0 []) [2%Q] [0%Q]] 0;
    mkTimestepSample [mkTimestep (mkBitmap 0 []) [1%Q] [0%Q]; mkTimestep (mkBitmap 0 []) [2%Q] [0%Q]] 1] ≠ [])
    by discriminate.
  split; [split; [exact H1|split; [exact H2|exact H3]]|].
  exact (AvgLossDelta_sequential (λ o _, Some (float_sum o)) {[0%nat := mkLeaf [1%Q] 0]} (TLeaf 0 0) (1 # 2) 2 [1; 0]%nat _ H1 H2 H3).
Defined.

Section PruneLeafFacts.

Lemma is_leaf_ptr_true {F} (t : tree F) (l : nat) :
  is_leaf_ptr t l = true → ∃ m, t = TLeaf m l.
Proof.
  destruct t as [m l'|]; cbn; [|discriminate].
  intros E. apply Nat.eqb_eq in E as ->. eauto.
Qed.

(** X15: [pruneLeaf] panics exactly when asked to prune the root leaf
    ([t.Leaf == l] at the top); the recursion never reaches a leaf [l]
    below the root, since the parent's checks catch it first. *)
Theorem pruneLeaf_panics_iff_root (t : UTree) (l next : nat) :
  pruneLeaf t l next = None ↔ ∃ m, t = TLeaf m l.
Proof.
  split.
  - revert next. induction t as [m l'|m fs fb IHf tb IHt]; intros next Hp; cbn in Hp.
    + destruct (Nat.eqb l' l) eqn:E; [|discriminate].
      apply Nat.eqb_eq in E as ->. eauto.
    + exfalso.
      destruct (is_leaf_ptr fb l) eqn:Efb; [discriminate|].
      destruct (is_leaf_ptr tb l) eqn:Etb; [discriminate|].
      destruct (pruneLeaf fb l next) as [[fb' n1]|] eqn:Ef.
      * cbn in Hp. destruct (pruneLeaf tb l n1) as [[tb' n2]|] eqn:Et; [discriminate|].
        destruct (IHt n1 Et) as [m' ->]. cbn in Etb. rewrite Nat.eqb_refl in Etb. discriminate.
      * destruct (IHf next Ef) as [m' ->]. cbn in Efb. rewrite Nat.eqb_refl in Efb. discriminate.
  - intros [m ->]. cbn. rewrite Nat.eqb_refl. reflexivity.
Qed.

(** X16: after [pruneLeaf t l], every sample that [t] routed to a leaf
    other than [l] is routed to the same leaf: the pruned branch is
    replaced by the sibling that those samples took anyway. *)
Theorem pruneLeaf_keeps_routing (t t' : UTree) (l next next' : nat)
    (ts : TimestepSample) (l' : nat) :
  pruneLeaf t l next = Some (t', next') →
  UTree_Evaluate ts t = Some l' → l' ≠ l → UTree_Evaluate ts t' = Some l'.
Proof.
  revert t' next next'.
  induction t as [m l0|m fs fb IHf tb IHt]; intros t' next next' Hp He Hne; cbn in Hp.
  - destruct (Nat.eqb l0 l); [discriminate|]. injection Hp as <- <-. exact He.
  - cbn in He.
    destruct (is_leaf_ptr fb l) eqn:Efb.
    { injection Hp as <- <-. destruct (is_leaf_ptr_true fb l Efb) as [mf ->].
      destruct (union_test ts fs) as [[|]|]; cbn in He; [exact He| |discriminate].
      injection He as ->. contradiction. }
    destruct (is_leaf_ptr tb l) eqn:Etb.
    { injection Hp as <- <-. destruct (is_leaf_ptr_true tb l Etb) as [mt ->].
      destruct (union_test ts fs) as [[|]|]; cbn in He; [| exact He |discriminate].
      injection He as ->. contradiction. }
    destruct (pruneLeaf fb l next) as [[fb' n1]|] eqn:Ef; [|discriminate]. cbn in Hp.
    destruct (pruneLeaf tb l n1) as [[tb' n2]|] eqn:Et; [|discriminate]. cbn in Hp.
    injection Hp as <- <-. cbn.
    destruct (union_test ts fs) as [[|]|]; [| |discriminate].
    + exact (IHt _ _ _ Et He Hne).
    + exact (IHf _ _ _ Ef He Hne).
Qed.

End PruneLeafFacts.

Lemma pruneLeaf_keeps_routing_witness :
  (pruneLeaf (TBranch 5 [mkBranchFeature (-1) 2] (TLeaf 1 10)
                (TBranch 2 [mkBranchFeature (-1) 2] (TLeaf 3 11) (TLeaf 4 12))) 11 20
     = Some (TBranch 20 [mkBranchFeature (-1) 2] (TLeaf 1 10) (TLeaf 4 12), 21%nat) ∧
   UTree_Evaluate (mkTimestepSample ex_seq 1)
     (TBranch 5 [mkBranchFeature (-1) 2] (TLeaf 1 10)
        (TBranch 2 [mkBranchFeature (-1) 2] (TLeaf 3 11) (TLeaf 4 12))) = Some 12%nat ∧
   12%nat ≠ 11%nat) ∧
  UTree_Evaluate (mkTimestepSample ex_seq 1)
    (TBranch 20 [mkBranchFeature (-1) 2] (TLeaf 1 10) (TLeaf 4 12)) = Some 12%nat.
Proof.
  assert (H1 : pruneLeaf (TBranch 5 [mkBranchFeature (-1) 2] (TLeaf 1 10)
                (TBranch 2 [mkBranchFeature (-1) 2] (TLeaf 3 11) (TLeaf 4 12))) 11 20
     = Some (TBranch 20 [mkBranchFeature (-1) 2] (TLeaf 1 10) (TLeaf 4 12), 21%nat))
    by reflexivity.
  assert (H2 : UTree_Evaluate (mkTimestepSample ex_seq 1)
     (TBranch 5 [mkBranchFeature (-1) 2] (TLeaf 1 10)
        (TBranch 2 [mkBranchFeature (-1) 2] (TLeaf 3 11) (TLeaf 4 12))) = Some 12%nat)
    by reflexivity.
  assert (H3 : 12%nat ≠ 11%nat) by lia.
  split; [split; [exact H1|split; [exact H2|exact H3]]|].
  exact (pruneLeaf_keeps_routing _ _ 11 20 21 _ 12 H1 H2 H3).
Defined.

Section SplitQualityFacts.
Local Open Scope Q_scope.

Lemma count_values_spec (vals : list bool) :
  (fst (OldSeq.count_values vals) + snd (OldSeq.count_values vals) = length vals)%nat ∧
  (fst (OldSeq.count_values vals) = 0%nat ↔ false ∉ vals) ∧
  (snd (OldSeq.count_values vals) = 0%nat ↔ true ∉ vals).
Proof.
  induction vals as [|v vals IH]; cbn [OldSeq.count_values].
  - split; [reflexivity|split; split; intros H; [apply not_elem_of_nil|reflexivity|apply not_elem_of_nil|reflexivity]].
  - destruct (OldSeq.count_values vals) as [fc tc]. cbn [fst snd] in *.
    destruct IH as (Hl & Hf & Ht).
    destruct v; cbn [fst snd length]; (split; [lia|split]); rewrite ?Hf, ?Ht, elem_of_cons;
      split; intros H; try lia;
      first [ intros [E|Hin]; [discriminate|exact (H Hin)]
            | intros Hin; apply H; right; exact Hin
            | exfalso; apply H; left; reflexivity ].
Qed.

Lemma add_into_Some (acc g : list Q) :
  (length g <= length acc)%nat →
  ∃ r, OldSeq.add_into acc g = Some r ∧ length r = length acc.
Proof.
  revert acc. induction g as [|x g IH]; intros [|a acc] Hl; cbn in Hl; try lia.
  - exists []. split; reflexivity.
  - exists (a :: acc). split; reflexivity.
  - cbn [OldSeq.add_into]. destruct (IH acc) as (r & -> & Hr); [lia|].
    eexists; split; [reflexivity|]. cbn. lia.
Qed.

Lemma minority_loop_Some (m : bool) (vals : list bool) (tss : list OldSeq.TimestepSample)
    (acc : list Q) :
  length vals = length tss →
  Forall (λ t, ∃ s, OldSeq.TimestepSample_Timestep t = Some s ∧
                    (length (OldSeq.Gradient s) <= length acc)%nat) tss →
  ∃ r, OldSeq.minority_loop m vals tss acc = Some r ∧ length r = length acc.
Proof.
  revert tss acc. induction vals as [|v vals IH]; intros [|t tss] acc Hl Hts; cbn in Hl; try lia.
  - exists acc. split; reflexivity.
  - inversion Hts as [|? ? (s & Es & Hs) Hts']; subst. cbn [OldSeq.minority_loop].
    destruct (Bool.eqb v m).
    + rewrite Es. cbn [mbind option_bind].
      destruct (add_into_Some acc (OldSeq.Gradient s) Hs) as (acc' & -> & Ha).
      cbn [mbind option_bind].
      destruct (IH tss acc') as (r & -> & Hr); [lia| |].
      * rewrite Ha. exact Hts'.
      * exists r. split; [reflexivity|lia].
    + apply IH; [lia|exact Hts'].
Qed.

Lemma vector_add_minus (a s : list Q) :
  length a = length s → Forall2 Qeq (vector_add a (zip_with Qminus s a)) s.
Proof.
  revert s. induction a as [|x a IH]; intros [|y s] Hl; cbn in Hl; try lia; [constructor|].
  constructor; [cbn; ring|]. apply IH. lia.
Qed.


(** X17: when every sample's feature value and timestep exist and no
    gradient is longer than [sum], [featureSplitQuality] returns 0 for a
    split that leaves one side empty, and otherwise at least
    [|sum|^2 / len(timesteps)], the quality of not splitting: the
    majority sum is [sum] minus the minority sum. *)
Theorem featureSplitQuality_bound (tss : list OldSeq.TimestepSample) (f : BranchFeature)
    (sum : list Q) (vals : list bool) :
  mapM (λ t, OldSeq.TimestepSample_BranchFeature t f) tss = Some vals →
  Forall (λ t, ∃ s, OldSeq.TimestepSample_Timestep t = Some s ∧
                    (length (OldSeq.Gradient s) <= length sum)%nat) tss →
  ∃ q, OldSeq.featureSplitQuality tss f sum = Some q ∧
    ((true ∉ vals ∨ false ∉ vals) → q == 0) ∧
    (true ∈ vals → false ∈ vals →
       vectorNormSquared sum / inject_Z (Z.of_nat (length tss)) <= q).
Proof.
  intros Hv Hts. unfold OldSeq.featureSplitQuality. rewrite Hv. cbn [mbind option_bind].
  assert (Hlv : length vals = length tss).
  { apply mapM_Some_1, Forall2_length in Hv. lia. }
  destruct (count_values_spec vals) as (Hc & Hf & Ht).
  destruct (OldSeq.count_values vals) as [fc tc]. cbn [fst snd] in *.
  destruct (orb (Nat.eqb fc 0) (Nat.eqb tc 0)) eqn:Etriv.
  - exists 0. split; [reflexivity|split; [intros _; reflexivity|]].
    intros Hin1 Hin2. exfalso.
    apply orb_true_iff in Etriv as [E|E]; apply Nat.eqb_eq in E;
      [apply Hf in E|apply Ht in E]; contradiction.
  - apply orb_false_iff in Etriv as [E1 E2].
    apply Nat.eqb_neq in E1, E2.
    assert (Hacc : length (repeat 0 (length sum)) = length sum) by apply repeat_length.
    destruct (minority_loop_Some (Nat.ltb tc fc) vals tss (repeat 0 (length sum)))
      as (mn & -> & Hmn); [exact Hlv|rewrite Hacc; exact Hts|].
    cbn [mbind option_bind]. rewrite Hacc in Hmn.
    destruct (zip_index_Some Qminus sum mn) as (mj & -> & ->); [lia|].
    cbn [mbind option_bind].
    eexists; split; [reflexivity|split].
    { intros [H|H]; exfalso; [apply E2, Ht, H|apply E1, Hf, H]. }
    intros _ _.
    set (k := Nat.min fc tc). set (K := Nat.max fc tc).
    assert (Hk : 0 < inject_Z (Z.of_nat k)).
    { unfold k. change 0 with (inject_Z 0). rewrite <- Zlt_Qlt. lia. }
    assert (HK : 0 < inject_Z (Z.of_nat K)).
    { unfold K. change 0 with (inject_Z 0). rewrite <- Zlt_Qlt. lia. }
    assert (Hn : inject_Z (Z.of_nat (length tss)) == inject_Z (Z.of_nat k) + inject_Z (Z.of_nat K)).
    { rewrite <- inject_Z_plus, <- Nat2Z.inj_add. unfold k, K.
      replace (Nat.min fc tc + Nat.max fc tc)%nat with (length tss) by lia. reflexivity. }
    rewrite Hn, <- (vectorNormSquared_cong _ _ (vector_add_minus mn sum ltac:(lia))).
    apply vectorNormSquared_titu; [rewrite length_zip_with; lia|exact Hk|exact HK].
Qed.

End SplitQualityFacts.

Lemma featureSplitQuality_bound_witness :
  (mapM (λ t, OldSeq.TimestepSample_BranchFeature t (mkBranchFeature 0 0))
     [OldSeq.mkTimestepSample [OldSeq.mkTimestep [true] [] [] [1%Q]; OldSeq.mkTimestep [false] [] [] [3%Q]] 0;
      OldSeq.mkTimestepSample [OldSeq.mkTimestep [true] [] [] [1%Q]; OldSeq.mkTimestep [false] [] [] [3%Q]] 1]
   = Some [true; false] ∧
   Forall (λ t, ∃ s, OldSeq.TimestepSample_Timestep t = Some s ∧
                     (length (OldSeq.Gradient s) <= length [4%Q])%nat)
     [OldSeq.mkTimestepSample [OldSeq.mkTimestep [true] [] [] [1%Q]; OldSeq.mkTimestep [false] [] [] [3%Q]] 0;
      OldSeq.mkTimestepSample [OldSeq.mkTimestep [true] [] [] [1%Q]; OldSeq.mkTimestep [false] [] [] [3%Q]] 1]) ∧
  ∃ q, OldSeq.featureSplitQuality
         [OldSeq.mkTimestepSample [OldSeq.mkTimestep [true] [] [] [1%Q]; OldSeq.mkTimestep [false] [] [] [3%Q]] 0;
          OldSeq.mkTimestepSample [OldSeq.mkTimestep [true] [] [] [1%Q]; OldSeq.mkTimestep [false] [] [] [3%Q]] 1]
         (mkBranchFeature 0 0) [4%Q] = Some q ∧
    ((true ∉ [true; false] ∨ false ∉ [true; false]) → (q == 0)%Q) ∧
    (true ∈ [true; false] → false ∈ [true; false] →
       (vectorNormSquared [4%Q] / inject_Z (Z.of_nat 2) <= q)%Q).
Proof.
  assert (H1 : mapM (λ t, OldSeq.TimestepSample_BranchFeature t (mkBranchFeature 0 0))
     [OldSeq.mkTimestepSample [OldSeq.mkTimestep [true] [] [] [1%Q]; OldSeq.mkTimestep [false] [] [] [3%Q]] 0;
      OldSeq.mkTimestepSample [OldSeq.mkTimestep [true] [] [] [1%Q]; OldSeq.mkTimestep [false] [] [] [3%Q]] 1]
   = Some [true; false]) by reflexivity.
  assert (H2 : Forall (λ t, ∃ s, OldSeq.TimestepSample_Timestep t = Some s ∧
                     (length (OldSeq.Gradient s) <= length [4%Q])%nat)
     [OldSeq.mkTimestepSample [OldSeq.mkTimestep [true] [] [] [1%Q]; OldSeq.mkTimestep [false] [] [] [3%Q]] 0;
      OldSeq.mkTimestepSample [OldSeq.mkTimestep [true] [] [] [1%Q]; OldSeq.mkTimestep [false] [] [] [3%Q]] 1]).
  { repeat constructor; eexists; (split; [reflexivity|simpl; lia]). }
  split; [split; [exact H1|exact H2]|].
  exact (featureSplitQuality_bound _ (mkBranchFeature 0 0) [4%Q] [true; false] H1 H2).
Defined.

Section ScaleAliasFacts.
Context {F : Type}.
Local Open Scope Q_scope.

Lemma leaf_scaled_refl (a : Leaf) : leaf_scaled 1 a a.
Proof.
  split; [reflexivity|]. induction (OutputDelta a); constructor; [ring|assumption].
Qed.

Lemma leaf_scaled_trans (c d : Q) (a b e : Leaf) :
  leaf_scaled c a b → leaf_scaled d b e → leaf_scaled (c * d) a e.
Proof.
  intros [Hf1 H1] [Hf2 H2]. split; [congruence|].
  revert H1 H2. generalize (OutputDelta a) (OutputDelta b) (OutputDelta e). clear.
  intros la lb le H1. revert le. induction H1 as [|y x lb la Hyx _ IH]; intros le H2;
    inversion H2 as [|z y' le' lb' Hzy H2']; subst; constructor.
  - rewrite Hzy, Hyx. ring.
  - apply IH. exact H2'.
Qed.

Lemma leaf_scaled_scale_leaf (s : Q) (a : Leaf) : leaf_scaled s a (scale_leaf s a).
Proof.
  split; [reflexivity|]. unfold scale_leaf. cbn. induction (OutputDelta a); constructor; [reflexivity|assumption].
Qed.

Lemma leaf_scaled_proper (c c' : Q) (a b : Leaf) :
  c == c' → leaf_scaled c a b → leaf_scaled c' a b.
Proof.
  intros Hc [Hf H]. split; [exact Hf|].
  induction H as [|y x lb la Hyx _ IH]; constructor; [rewrite Hyx, Hc; reflexivity|exact IH].
Qed.

Lemma Qpower_nat_add (s : Q) (a b : nat) :
  s ^ Z.of_nat (a + b) == s ^ Z.of_nat a * s ^ Z.of_nat b.
Proof.
  induction a as [|a IH]; [change (s ^ Z.of_nat b == 1 * s ^ Z.of_nat b); ring|].
  replace (Z.of_nat (S a + b)) with (Z.of_nat (a + b) + 1)%Z by lia.
  replace (Z.of_nat (S a)) with (Z.of_nat a + 1)%Z by lia.
  rewrite !Qpower_plus' by lia. rewrite IH. ring.
Qed.


Lemma Tree_Scale_counts (t : tree F) (st st' : LeafStore) (s : Q) :
  Tree_Scale st t s = Some st' →
  ∀ l, match st !! l with
       | Some a => ∃ b, st' !! l = Some b ∧
                     leaf_scaled (s ^ Z.of_nat (count_occ Nat.eq_dec (leaf_ptrs t) l)) a b
       | None => st' !! l = None
       end.
Proof.
  revert st st'. induction t as [m l0|m f fb IHf tb IHt]; intros st st' Hs l; cbn in Hs.
  - destruct (st !! l0) as [lf0|] eqn:E0; [|discriminate]. cbn in Hs. injection Hs as <-.
    cbn [leaf_ptrs count_occ].
    destruct (Nat.eq_dec l0 l) as [<-|Hne].
    + rewrite E0, lookup_insert_eq. eexists; split; [reflexivity|].
      apply (leaf_scaled_proper s); [change (s == s ^ 1); symmetry; apply Qpower_1_r|apply leaf_scaled_scale_leaf].
    + rewrite lookup_insert_ne by exact Hne.
      destruct (st !! l) as [a|]; [|reflexivity].
      eexists; split; [reflexivity|]. apply (leaf_scaled_proper 1); [change (1 == s ^ 0); reflexivity|apply leaf_scaled_refl].
  - destruct (Tree_Scale st fb s) as [st1|] eqn:E1; [|discriminate]. cbn in Hs.
    specialize (IHf st st1 E1 l). specialize (IHt st1 st' Hs l).
    cbn [leaf_ptrs]. rewrite count_occ_app.
    destruct (st !! l) as [a|].
    + destruct IHf as (b1 & Eb1 & H1). rewrite Eb1 in IHt. destruct IHt as (b2 & Eb2 & H2).
      exists b2. split; [exact Eb2|].
      eapply leaf_scaled_proper; [symmetry; apply Qpower_nat_add|].
      exact (leaf_scaled_trans _ _ _ _ _ H1 H2).
    + rewrite IHf in IHt. exact IHt.
Qed.

Lemma Tree_Scale_keys (t : tree F) (st st' : LeafStore) (s : Q) :
  Tree_Scale st t s = Some st' → ∀ l, is_Some (st' !! l) ↔ is_Some (st !! l).
Proof.
  intros Hs l. pose proof (Tree_Scale_counts t st st' s Hs l) as H.
  destruct (st !! l); [destruct H as (b & -> & _)|rewrite H]; split; intros Hx;
    try exact Hx; eauto; destruct Hx; discriminate.
Qed.

Lemma Tree_Scale_defined (t : tree F) (st : LeafStore) (s : Q) :
  is_Some (Tree_Scale st t s) ↔ ∀ l, l ∈ leaf_ptrs t → is_Some (st !! l).
Proof.
  revert st. induction t as [m l0|m f fb IHf tb IHt]; intros st; cbn [Tree_Scale leaf_ptrs].
  - split.
    + intros Hs l Hl. apply list_elem_of_singleton in Hl as ->.
      destruct (st !! l0); [eauto|destruct Hs; discriminate].
    + intros H. destruct (H l0 (proj2 (list_elem_of_singleton _ _) eq_refl)) as [lf ->]. cbn. eauto.
  - split.
    + intros Hs l Hl. destruct (Tree_Scale st fb s) as [st1|] eqn:E1; [|destruct Hs; discriminate].
      cbn in Hs. apply elem_of_app in Hl as [Hl|Hl].
      * apply (proj1 (IHf st)); [rewrite E1; eauto|exact Hl].
      * apply (Tree_Scale_keys fb st st1 s E1). apply (proj1 (IHt st1)); [exact Hs|exact Hl].
    + intros H. destruct (Tree_Scale st fb s) as [st1|] eqn:E1.
      * cbn. apply (proj2 (IHt st1)). intros l Hl.
        apply (Tree_Scale_keys fb st st1 s E1). apply H, elem_of_app. right. exact Hl.
      * exfalso. assert (Hf : is_Some (Tree_Scale st fb s)).
        { apply (proj2 (IHf st)). intros l Hl. apply H, elem_of_app. left. exact Hl. }
        rewrite E1 in Hf. destruct Hf; discriminate.
Qed.


Lemma Tree_Scale_frame (t : tree F) (st st' : LeafStore) (s : Q) (l : nat) :
  Tree_Scale st t s = Some st' → l ∉ leaf_ptrs t → st' !! l = st !! l.
Proof.
  revert st st'. induction t as [m l0|m f fb IHf tb IHt]; intros st st' Hs Hl; cbn in Hs.
  - destruct (st !! l0) as [lf0|]; [|discriminate]. cbn in Hs. injection Hs as <-.
    rewrite lookup_insert_ne; [reflexivity|]. intros ->. apply Hl. cbn. set_solver.
  - destruct (Tree_Scale st fb s) as [st1|] eqn:E1; [|discriminate]. cbn in Hs.
    cbn in Hl. rewrite (IHt st1 st' Hs) by set_solver. apply (IHf st st1 E1). set_solver.
Qed.

(** X18: with [*Leaf] pointers as keys of the leaf store, [Tree.Scale]
    succeeds exactly when every leaf the tree points to is stored; then a
    leaf that [k] positions of the tree share has its [OutputDelta]
    multiplied by [s^k] (each reference scales the shared leaf again),
    and every other leaf is untouched. *)
Theorem Tree_Scale_aliasing (t : tree F) (st : LeafStore) (s : Q) :
  (is_Some (Tree_Scale st t s) ↔ ∀ l, l ∈ leaf_ptrs t → is_Some (st !! l)) ∧
  ∀ st', Tree_Scale st t s = Some st' →
    ∀ l, match st !! l with
         | Some a => ∃ b, st' !! l = Some b ∧
                       leaf_scaled (s ^ Z.of_nat (count_occ Nat.eq_dec (leaf_ptrs t) l)) a b
         | None => st' !! l = None
         end.
Proof.
  split; [apply Tree_Scale_defined|intros st' Hs; exact (Tree_Scale_counts t st st' s Hs)].
Qed.

End ScaleAliasFacts.

(** ** Model.Add on trees that share leaves *)

Section ModelAddFacts.

Lemma Tree_NumFeatures_defined {F} (t : tree F) (st : LeafStore) :
  (∀ l, l ∈ leaf_ptrs t → is_Some (st !! l)) → ∃ n, Tree_NumFeatures st t = Some n.
Proof.
  induction t as [nd l | nd f fb IHfb tb IHtb]; intros H; simpl.
  - destruct (H l) as [lf ->]; [set_solver|]. eauto.
  - destruct IHfb as [a ->]; [intros; apply H; set_solver|].
    destruct IHtb as [b ->]; [intros; apply H; set_solver|]. simpl; eauto.
Qed.

(** C5 (counterexample). A tree whose two leaves are one [*Leaf] with
    delta [[1]]: [Model.Add] with step size 1 leaves that delta at [[1]],
    since it is scaled by [-1] once per position, not by [-1]. *)
Lemma Model_Add_shared_leaf :
  ex_store_wf !! 1%nat = Some (mkLeaf [1%Q] 1) ∧
  ∃ st' m', Model_Add ex_store_wf ex_model_wf ex_tree_shared 1%Q = Some (st', m') ∧
    st' !! 1%nat = Some (mkLeaf [1%Q] 1) ∧
    scale_leaf (- 1)%Q (mkLeaf [1%Q] 1) = mkLeaf [(-1)%Q] 1.
Proof.
  split; [reflexivity|]. do 2 eexists. split; [vm_compute; reflexivity|].
  split; vm_compute; reflexivity.
Qed.

(** C5 (amended). When every leaf [t] points to is stored, [Model.Add t s]
    multiplies each [*Leaf] of [t] in place by [(-s)^k], [k] being the
    number of positions of [t] that point to it (so by [-s] when the
    leaves of [t] are distinct objects); other leaves are untouched; [t]
    is appended to the trees, and [ExtraFeatures], hence
    [Model.NumFeatures], grows by exactly [t.NumFeatures()]. *)
Theorem Model_Add_spec (st : LeafStore) (m : Model) (t : Tree) (s : Q) :
  (∀ l, l ∈ leaf_ptrs t → is_Some (st !! l)) →
  ∃ st' m' n,
    Model_Add st m t s = Some (st', m') ∧
    (∀ l, l ∈ leaf_ptrs t → ∃ a b, st !! l = Some a ∧ st' !! l = Some b ∧
       leaf_scaled ((- s) ^ Z.of_nat (count_occ Nat.eq_dec (leaf_ptrs t) l))%Q a b) ∧
    (NoDup (leaf_ptrs t) → ∀ l, l ∈ leaf_ptrs t → st' !! l = scale_leaf (- s)%Q <$> st !! l) ∧
    (∀ l, l ∉ leaf_ptrs t → st' !! l = st !! l) ∧
    Trees m' = Trees m ++ [t] ∧
    Tree_NumFeatures st t = Some n ∧
    BaseFeatures m' = BaseFeatures m ∧
    ExtraFeatures m' = ExtraFeatures m + n ∧
    Model_NumFeatures m' = Model_NumFeatures m + n.
Proof.
  intros Hin.
  destruct (proj2 (Tree_Scale_defined t st (- s)%Q) Hin) as [st' Hsc].
  pose proof (Tree_Scale_counts t st st' (- s)%Q Hsc) as Hcnt.
  assert (Hnf : Tree_NumFeatures st' t = Tree_NumFeatures st t).
  { apply Tree_NumFeatures_ext. intros l _. specialize (Hcnt l).
    destruct (st !! l) as [a|]; [|by rewrite Hcnt].
    destruct Hcnt as (b & -> & Hf & _). cbn. by rewrite Hf. }
  destruct (Tree_NumFeatures_defined t st Hin) as [n Hn].
  exists st', (mkModel (BaseFeatures m) (ExtraFeatures m + n) (Trees m ++ [t])), n.
  unfold Model_Add. rewrite Hsc. simpl. rewrite Hnf, Hn. simpl.
  split; [reflexivity|]. split; [|split; [|split]].
  - intros l Hl. destruct (Hin l Hl) as [a Ha]. specialize (Hcnt l). rewrite Ha in Hcnt.
    destruct Hcnt as (b & Hb & Hs). eauto.
  - intros Hnd. destruct (Tree_Scale_spec (- s)%Q t st Hnd Hin) as (st'' & Hsc' & Hst'').
    rewrite Hsc in Hsc'. injection Hsc' as <-.
    intros l Hl. rewrite Hst'', decide_True by done. reflexivity.
  - intros l Hl. exact (Tree_Scale_frame t st st' (- s)%Q l Hsc Hl).
  - repeat split; try reflexivity. unfold Model_NumFeatures. simpl. lia.
Qed.

End ModelAddFacts.

Lemma Model_Add_spec_witness :
  (∀ l, l ∈ leaf_ptrs ex_tree_shared → is_Some (ex_store_wf !! l)) ∧
  ∃ st' m' n,
    Model_Add ex_store_wf ex_model_wf ex_tree_shared (1 # 2) = Some (st', m') ∧
    (∀ l, l ∈ leaf_ptrs ex_tree_shared → ∃ a b, ex_store_wf !! l = Some a ∧ st' !! l = Some b ∧
       leaf_scaled ((- (1 # 2)) ^ Z.of_nat (count_occ Nat.eq_dec (leaf_ptrs ex_tree_shared) l))%Q a b) ∧
    (NoDup (leaf_ptrs ex_tree_shared) →
       ∀ l, l ∈ leaf_ptrs ex_tree_shared → st' !! l = scale_leaf (- (1 # 2))%Q <$> ex_store_wf !! l) ∧
    (∀ l, l ∉ leaf_ptrs ex_tree_shared → st' !! l = ex_store_wf !! l) ∧
    Trees m' = Trees ex_model_wf ++ [ex_tree_shared] ∧
    Tree_NumFeatures ex_store_wf ex_tree_shared = Some n ∧
    BaseFeatures m' = BaseFeatures ex_model_wf ∧
    ExtraFeatures m' = ExtraFeatures ex_model_wf + n ∧
    Model_NumFeatures m' = Model_NumFeatures ex_model_wf + n.
Proof.
  assert (Hin : ∀ l, l ∈ leaf_ptrs ex_tree_shared → is_Some (ex_store_wf !! l)).
  { intros l Hl. simpl in Hl. apply elem_of_cons in Hl as [->|Hl]; [by vm_compute; eauto|].
    apply elem_of_cons in Hl as [->|Hl]; [by vm_compute; eauto|set_solver]. }
  split; [exact Hin|].
  exact (Model_Add_spec ex_store_wf ex_model_wf ex_tree_shared (1 # 2) Hin).
Defined.

(** ** newPolynomialLogSigmoid at the extremes *)

Section LogSigmoidFacts.
Import LogSigmoid.
Local Open Scope Q_scope.

Lemma map_lookup_option {A B} (f : A → B) (l : list A) (i : nat) :
  map f l !! i = f <$> l !! i.
Proof. revert i. induction l as [|a l IH]; intros [|i]; cbn; auto. Qed.

Lemma clamped_coeffs_finite :
  Forall (λ c, ∃ q, c = F32.Fin q ∧ ¬ q == 0)
    (map nan_to_zero (coeffs64 (F32.Fin (inject_Z (2 ^ 32))))).
Proof.
  vm_compute. repeat constructor; eexists; (split; [reflexivity|]); vm_compute; discriminate.
Qed.

Lemma clamp_exps_fst (e ie : F32.float) :
  fst (clamp_exps e ie) = if is_posinf e then F32.Fin (inject_Z (2 ^ 32)) else e.
Proof. unfold clamp_exps. destruct (is_posinf e), (is_posinf ie); reflexivity. Qed.

Lemma clamp_exps_snd_fin (e : F32.float) (q : Q) :
  snd (clamp_exps e (F32.Fin q)) = F32.Fin q.
Proof. unfold clamp_exps. destruct (is_posinf e); reflexivity. Qed.

Lemma res64_split (exp64 : Q → F32.float) (log64 : F32.float → F32.float) (x : Q) :
  res64 exp64 log64 x =
    (if negb (Qle_bool x (-22))
     then log64 (fdiv64 (F32.Fin 1) (fadd64 (F32.Fin 1) (snd (clamp_exps (exp64 x) (exp64 (- x))))))
     else F32.Fin x) :: coeffs64 (fst (clamp_exps (exp64 x) (exp64 (- x)))).
Proof. unfold res64. destruct (clamp_exps (exp64 x) (exp64 (- x))). reflexivity. Qed.

Lemma inv_one_plus (q : Q) :
  0 <= q → q <= inject_Z (2 ^ 1023) →
  fdiv64 (F32.Fin 1) (fadd64 (F32.Fin 1) (F32.Fin q)) = F32.Fin (1 / (1 + q)).
Proof.
  intros H0 H1.
  assert (Hmax : inject_Z (2 ^ 1023) + 1 <= MaxFloat64)
    by (apply Qle_bool_iff; vm_compute; reflexivity).
  assert (E1 : Qeq_bool (1 + q) 0 = false).
  { apply not_true_iff_false. rewrite Qeq_bool_iff. lra. }
  assert (E2 : (Qle_bool (- MaxFloat64) (1 + q) && Qle_bool (1 + q) MaxFloat64)%bool = true).
  { apply andb_true_iff. rewrite !Qle_bool_iff. split; lra. }
  assert (Hpos : 0 < 1 / (1 + q)).
  { apply Qlt_shift_div_l; lra. }
  assert (Hle : 1 / (1 + q) <= 1).
  { apply Qle_shift_div_r; lra. }
  assert (E3 : Qeq_bool (1 / (1 + q)) 0 = false).
  { apply not_true_iff_false. rewrite Qeq_bool_iff. lra. }
  assert (E4 : (Qle_bool (- MaxFloat64) (1 / (1 + q)) && Qle_bool (1 / (1 + q)) MaxFloat64)%bool = true).
  { apply andb_true_iff. rewrite !Qle_bool_iff. split; lra. }
  unfold fdiv64, fadd64, F32.fadd. cbn [F32.to_Q]. unfold F32.mk_fin at 1. rewrite E1.
  cbv beta iota. unfold overflow at 2. rewrite E2.
  unfold F32.fdiv. cbn [F32.is_zero F32.to_Q]. rewrite E1. unfold F32.mk_fin. rewrite E3.
  unfold overflow. rewrite E4. reflexivity.
Qed.

(** C9. For a float32 input [x], where [math.Exp] is finite, non-negative
    and at most [2^1023] up to 709 and [math.Log] is never NaN on positive
    values: when [exp(x)] overflows, the coefficients of degree 1 to 9 are
    those of [exp = 2^32], all finite and nonzero, otherwise those of
    [exp(x)]; the constant term is [float32(log(1/(1+exp(-x))))] when
    [x > -22] and [x] otherwise (so also when [exp(-x)] overflows); and
    each coefficient of [res64] that is NaN becomes 0 while every other is
    converted to float32. *)
Theorem newPolynomialLogSigmoid_extremes (exp64 : Q → F32.float) (log64 : F32.float → F32.float)
    (x : Q) :
  (∀ y, y <= 709 → ∃ q, exp64 y = F32.Fin q ∧ 0 <= q <= inject_Z (2 ^ 1023)) →
  (∀ q, 0 < q → log64 (F32.Fin q) ≠ F32.NaN) →
  length (newPolynomialLogSigmoid exp64 log64 x) = 10%nat ∧
  (exp64 x = F32.Inf false →
     tail (newPolynomialLogSigmoid exp64 log64 x) =
       map nan_to_zero (coeffs64 (F32.Fin (inject_Z (2 ^ 32)))) ∧
     Forall (λ c, ∃ q, c = F32.Fin q ∧ ¬ q == 0) (tail (newPolynomialLogSigmoid exp64 log64 x))) ∧
  (exp64 x ≠ F32.Inf false →
     tail (newPolynomialLogSigmoid exp64 log64 x) = map nan_to_zero (coeffs64 (exp64 x))) ∧
  (-22 < x → ∃ q, exp64 (- x) = F32.Fin q ∧
     newPolynomialLogSigmoid exp64 log64 x !! 0%nat = Some (to_f32 (log64 (F32.Fin (1 / (1 + q)))))) ∧
  (x <= -22 → newPolynomialLogSigmoid exp64 log64 x !! 0%nat = Some (to_f32 (F32.Fin x))) ∧
  (exp64 (- x) = F32.Inf false →
     newPolynomialLogSigmoid exp64 log64 x !! 0%nat = Some (to_f32 (F32.Fin x))) ∧
  (∀ i c, res64 exp64 log64 x !! i = Some c →
     newPolynomialLogSigmoid exp64 log64 x !! i = Some (if is_nan c then F32.Fin 0 else to_f32 c)).
Proof.
  intros Hexp Hlog. unfold newPolynomialLogSigmoid.
  assert (Hnan : ∀ i c, res64 exp64 log64 x !! i = Some c →
     map nan_to_zero (res64 exp64 log64 x) !! i = Some (if is_nan c then F32.Fin 0 else to_f32 c)).
  { intros i c Hc. rewrite map_lookup_option, Hc. reflexivity. }
  rewrite res64_split, clamp_exps_fst in *.
  split; [rewrite length_map; reflexivity|].
  assert (Hlow : x <= -22 → map nan_to_zero ((if negb (Qle_bool x (-22))
     then log64 (fdiv64 (F32.Fin 1) (fadd64 (F32.Fin 1) (snd (clamp_exps (exp64 x) (exp64 (- x))))))
     else F32.Fin x) :: coeffs64 (fst (clamp_exps (exp64 x) (exp64 (- x))))) !! 0%nat
       = Some (to_f32 (F32.Fin x))).
  { intros Hx. assert (Eb : negb (Qle_bool x (-22)) = false).
    { apply negb_false_iff. rewrite Qle_bool_iff. exact Hx. }
    rewrite Eb. reflexivity. }
  rewrite clamp_exps_fst in Hlow.
  split; [|split; [|split; [|split; [|split]]]].
  - intros Hinf. rewrite Hinf. cbn [is_posinf tail map]. split; [reflexivity|].
    exact clamped_coeffs_finite.
  - intros Hfin. cbn [tail map].
    destruct (exp64 x) as [| |[]|]; try reflexivity. contradiction.
  - intros Hx. destruct (Hexp (- x)) as (q & Eq & Hq0 & Hq1); [lra|].
    exists q. split; [exact Eq|]. rewrite Eq, clamp_exps_snd_fin.
    assert (Eb : negb (Qle_bool x (-22)) = true).
    { apply negb_true_iff, not_true_iff_false. rewrite Qle_bool_iff. lra. }
    rewrite Eb, inv_one_plus by assumption. cbn. unfold nan_to_zero.
    destruct (log64 (F32.Fin (1 / (1 + q)))) eqn:El; try reflexivity.
    exfalso. apply (Hlog (1 / (1 + q))); [apply Qlt_shift_div_l; lra|exact El].
  - exact Hlow.
  - intros Hinf. apply Hlow. apply Qnot_lt_le. intros Hx.
    destruct (Hexp (- x)) as (q & Eq & _); [lra|]. congruence.
  - exact Hnan.
Qed.
End LogSigmoidFacts.

Lemma newPolynomialLogSigmoid_extremes_witness :
  ((∀ y, y <= 709 → ∃ q, ex_exp64 y = F32.Fin q ∧ 0 <= q <= inject_Z (2 ^ 1023)) ∧
   (∀ q, 0 < q → ex_log64 (F32.Fin q) ≠ F32.NaN))%Q ∧
  (length (LogSigmoid.newPolynomialLogSigmoid ex_exp64 ex_log64 800) = 10%nat ∧
  (ex_exp64 800 = F32.Inf false →
     tail (LogSigmoid.newPolynomialLogSigmoid ex_exp64 ex_log64 800) =
       map LogSigmoid.nan_to_zero (LogSigmoid.coeffs64 (F32.Fin (inject_Z (2 ^ 32)))) ∧
     Forall (λ c, ∃ q, c = F32.Fin q ∧ ¬ q == 0)%Q
       (tail (LogSigmoid.newPolynomialLogSigmoid ex_exp64 ex_log64 800))) ∧
  (ex_exp64 800 ≠ F32.Inf false →
     tail (LogSigmoid.newPolynomialLogSigmoid ex_exp64 ex_log64 800) =
       map LogSigmoid.nan_to_zero (LogSigmoid.coeffs64 (ex_exp64 800))) ∧
  (-22 < 800 → ∃ q, ex_exp64 (- 800) = F32.Fin q ∧
     LogSigmoid.newPolynomialLogSigmoid ex_exp64 ex_log64 800 !! 0%nat =
       Some (LogSigmoid.to_f32 (ex_log64 (F32.Fin (1 / (1 + q))))))%Q ∧
  (800 <= -22 → LogSigmoid.newPolynomialLogSigmoid ex_exp64 ex_log64 800 !! 0%nat =
     Some (LogSigmoid.to_f32 (F32.Fin 800)))%Q ∧
  (ex_exp64 (- 800) = F32.Inf false →
     LogSigmoid.newPolynomialLogSigmoid ex_exp64 ex_log64 800 !! 0%nat =
       Some (LogSigmoid.to_f32 (F32.Fin 800)))%Q ∧
  (∀ i c, LogSigmoid.res64 ex_exp64 ex_log64 800 !! i = Some c →
     LogSigmoid.newPolynomialLogSigmoid ex_exp64 ex_log64 800 !! i =
       Some (if LogSigmoid.is_nan c then F32.Fin 0 else LogSigmoid.to_f32 c))).
Proof.
  assert (Hexp : ∀ y, (y <= 709)%Q → ∃ q, ex_exp64 y = F32.Fin q ∧ (0 <= q <= inject_Z (2 ^ 1023))%Q).
  { intros y Hy. unfold ex_exp64. apply Qle_bool_iff in Hy. rewrite Hy.
    exists 1%Q. split; [reflexivity|]. split; apply Qle_bool_iff; vm_compute; reflexivity. }
  assert (Hlog : ∀ q, (0 < q)%Q → ex_log64 (F32.Fin q) ≠ F32.NaN).
  { intros q _. unfold ex_log64. discriminate. }
  split; [split; [exact Hexp|exact Hlog]|].
  exact (newPolynomialLogSigmoid_extremes ex_exp64 ex_log64 800 Hexp Hlog).
Defined.
